(** * ProcForest: the process-tree aggregation engine

    A shallow embedding of [src/src/process_parser.py] and of the view
    builder of [src/main.py], followed by the properties of the
    specification that concern them.

    Conventions of the embedding:
    - a pid is a Python [int], here [Z];
    - a memory percentage is a Python [float]; where it is read, added and
      stored it is modelled by an exact rational [Q], and [round(x, 2)] by
      rounding half to even on hundredths, which is what CPython computes
      on the decimal value;
    - [text_sparkline], whose index turns on the last bit of a product, is
      computed in IEEE 754 binary64: every operation rounds the exact
      result to the nearest float, ties to even, and a stored total enters
      it as the float nearest to its hundredths;
    - a [str] is the string of the bytes of its UTF-8 encoding, and
      [str.lower()] is a parameter of the embedding: its Unicode tables are
      not reproduced, and the properties hold of every lowering;
    - the insertion-ordered dict [processes] is an association list whose
      keys are kept unique by [dict_set]; dicts that are only looked up
      ([children_map], [memo]) are [gmap]s and the on-stack [visited] set
      is a [gset];
    - a Python exception is a [Raise] outcome; the depth of the Python call
      stack is a fuel argument, and running out of it is [RecursionError]. *)

From Stdlib Require Import ZArith QArith Qround Qabs Qpower List Sorted String
  Ascii Bool.

From Stdlib Require Import Lia Lqa.

From stdpp Require Import base option gmap sets.

#[local] Set Warnings "-register-all,-clear-no-such-hyp".

Local Open Scope string_scope.

Local Open Scope Z_scope.

(** ** Exceptions and outcomes *)

Inductive exn : Type :=
  | NoSuchProcess
  | AccessDenied
  | KeyError
  | IndexError
  | OverflowError
  | ValueError
  | ZeroDivisionError
  | RecursionError.

Inductive outcome (A : Type) : Type :=
  | Ok (a : A)
  | Raise (e : exn).

Arguments Ok {A} a.

Arguments Raise {A} e.

#[global] Instance outcome_ret : MRet outcome := fun A a => Ok a.

#[global] Instance outcome_bind : MBind outcome := fun A B k m =>
  match m with
  | Ok a => k a
  | Raise e => Raise e
  end.

(** [try: body except (handled): fallback]. *)
Definition try_except {A : Type} (body : outcome A) (handled : exn -> bool)
    (fallback : outcome A) : outcome A :=
  match body with
  | Ok a => Ok a
  | Raise e => if handled e then fallback else Raise e
  end.

(** [except (psutil.NoSuchProcess, psutil.AccessDenied)]. *)
Definition psutil_error (e : exn) : bool :=
  match e with
  | NoSuchProcess | AccessDenied => true
  | _ => false
  end.

Definition is_ok {A : Type} (m : outcome A) : bool :=
  match m with
  | Ok _ => true
  | Raise _ => false
  end.

(** ** Numbers *)

(** Python's [round(x, 0)] on an exact value: nearest integer, ties to even. *)
Definition round_half_even (q : Q) : Z :=
  let f := Qfloor q in
  match Qcompare (q - inject_Z f) (1 # 2) with
  | Lt => f
  | Gt => f + 1
  | Eq => if Z.even f then f else f + 1
  end.

(** [round(x, 2)]. *)
Definition round2 (q : Q) : Q :=
  (inject_Z (round_half_even (q * 100)) / 100)%Q.

(** Truncation towards zero. *)
Definition py_int (q : Q) : Z := Z.quot (Qnum q) (Zpos (Qden q)).

(** ** Floats

    A Python [float] is an IEEE 754 binary64 value.  A finite one is given
    by the rational it stands for; the sign of zero, which nothing here
    observes, is left out.  An arithmetic operation returns the exact result
    rounded to the nearest binary64 value, ties to the even significand, and
    an infinity when the rounded result does not fit. *)

Inductive pyfloat : Type :=
  | Finite (value : Q)
  | Infinity (negative : bool)
  | NaN.

Definition pow2 (e : Z) : Q := (2 ^ e)%Q.

(** [floor(log2(q))] of a positive fraction [q]. *)
Definition binade_of (q : Q) : Z :=
  let e := Z.log2 (Qnum q) - Z.log2 (Zpos (Qden q)) in
  if Qle_bool (pow2 e) q then e else e - 1.

Definition binade (q : Q) : Z := binade_of (Qred q).

(** The exponent of the unit in the last place of the binary64 values next
    to [q]: 52 below the binade of [q], and -1074 on the subnormal values. *)
Definition ulp_exponent (q : Q) : Z := Z.max (binade (Qabs q)) (-1022) - 52.

(** The multiple of the unit in the last place nearest to [q], ties to the
    even multiple. *)
Definition round_binary64 (q : Q) : Q :=
  let e := ulp_exponent q in
  Qred (inject_Z (round_half_even (q / pow2 e)) * pow2 e).

(** The float of an exact result: rounded, and infinite from [2 ** 1024] on. *)
Definition to_float (q : Q) : pyfloat :=
  let r := round_binary64 q in
  if Qle_bool (pow2 1024) (Qabs r) then Infinity (Qle_bool r 0) else Finite r.

Arguments to_float q : simpl never.

(** [a * b] on floats. *)
Definition float_mul (a b : pyfloat) : pyfloat :=
  match a, b with
  | NaN, _ | _, NaN => NaN
  | Finite x, Finite y => to_float (x * y)
  | Infinity s, Finite y | Finite y, Infinity s =>
      if Qeq_bool y 0 then NaN else Infinity (xorb s (Qle_bool y 0))
  | Infinity s, Infinity t => Infinity (xorb s t)
  end.

(** [a / b] on floats. *)
Definition float_div (a b : pyfloat) : outcome pyfloat :=
  match b with
  | Finite y =>
      if Qeq_bool y 0 then Raise ZeroDivisionError
      else
        match a with
        | Finite x => Ok (to_float (x / y))
        | Infinity s => Ok (Infinity (xorb s (Qle_bool y 0)))
        | NaN => Ok NaN
        end
  | Infinity _ =>
      match a with
      | Finite _ => Ok (Finite 0)
      | _ => Ok NaN
      end
  | NaN => Ok NaN
  end.

(** [int(x)] on a float. *)
Definition float_int (x : pyfloat) : outcome Z :=
  match x with
  | Finite q => Ok (py_int q)
  | Infinity _ => Raise OverflowError
  | NaN => Raise ValueError
  end.

(** ** The snapshot source

    What psutil answers for the process with a given pid: its current
    parent, its name and its memory percentage.  Each query either answers
    or raises one of psutil's two exceptions. *)

Inductive psutil_result (A : Type) : Type :=
  | Answer (a : A)
  | Gone
  | Denied.

Arguments Answer {A} a.

Arguments Gone {A}.

Arguments Denied {A}.

Definition query {A : Type} (r : psutil_result A) : outcome A :=
  match r with
  | Answer a => Ok a
  | Gone => Raise NoSuchProcess
  | Denied => Raise AccessDenied
  end.

Record snapshot_source : Type := {
  os_parent : Z -> psutil_result (option Z);
  os_name : Z -> psutil_result string;
  os_memory_percent : Z -> psutil_result Q
}.

(** ** [get_parent_tree] *)

(** The nested dict returned by [get_parent_tree]: [{}] or
    [{"ppid", "name", "ppids", "memory"}]. *)
Inductive parent_tree : Type :=
  | NoParent
  | Parent (ppid : Z) (name : string) (ppids : parent_tree) (memory : Q).

Fixpoint get_parent_tree (depth : nat) (os : snapshot_source) (proc : Z)
    : outcome parent_tree :=
  match depth with
  | O => Raise RecursionError
  | S depth' =>
      try_except
        (parent ← query (os_parent os proc);
         match parent with
         | None => Ok NoParent
         | Some parent =>
             name ← query (os_name os parent);
             ppids ← get_parent_tree depth' os parent;
             memory ← query (os_memory_percent os parent);
             Ok (Parent parent name ppids (round2 memory))
         end)
        psutil_error
        (Ok NoParent)
  end.

(** ** [text_sparkline] *)

(** The eight glyphs of [bars], U+2581 to U+2588, as code points. *)
Definition bars : list Z :=
  [0x2581; 0x2582; 0x2583; 0x2584; 0x2585; 0x2586; 0x2587; 0x2588].

(** [s[i]] on a Python sequence: a negative index counts from the end, an
    index outside [-len, len) raises [IndexError]. *)
Definition py_index {A : Type} (s : list A) (i : Z) : outcome A :=
  let n := Z.of_nat (length s) in
  let j := if i <? 0 then i + n else i in
  if (0 <=? j) && (j <? n) then
    match nth_error s (Z.to_nat j) with
    | Some a => Ok a
    | None => Raise IndexError
    end
  else Raise IndexError.

(** [int(memory_percent * maximum / 100)]; [maximum] and [100] are [int]s,
    which the float operations take as the floats of the same value. *)
Definition sparkline_index (memory_percent : pyfloat) : outcome Z :=
  let maximum := Z.of_nat (length bars) - 1 in
  scaled ← float_div (float_mul memory_percent (to_float (inject_Z maximum)))
             (to_float 100);
  float_int scaled.

Definition text_sparkline (memory_percent : pyfloat) : outcome Z :=
  index ← sparkline_index memory_percent;
  py_index bars index.

Arguments text_sparkline memory_percent : simpl never.

(** ** Strings

    A Python [str] is kept as the bytes of its UTF-8 encoding; the order of
    [String.ltb] on the bytes is Python's order on the code points. *)

(** [str.lower()].  Python lowers a string by the case mapping of the
    Unicode character database, which is not reproduced here: the method is
    a parameter of the embedding, and what is proved of the code holds of
    every lowering. *)
Class StrLower : Type := lower : string -> string.

(** [str.lower()] on a string of ASCII characters.  The examples, whose
    names are ASCII, are run with it. *)
Definition lower_ascii (c : ascii) : ascii :=
  let n := N_of_ascii c in
  if ((65 <=? n) && (n <=? 90))%N then ascii_of_N (n + 32) else c.

Fixpoint ascii_lower (s : string) : string :=
  match s with
  | EmptyString => EmptyString
  | String c s' => String (lower_ascii c) (ascii_lower s')
  end.

#[global] Instance ascii_str_lower : StrLower := ascii_lower.

(** [s.split(sep)] for a one-character separator. *)
Fixpoint split (sep : ascii) (s : string) : list string :=
  match s with
  | EmptyString => [EmptyString]
  | String c s' =>
      if Ascii.eqb c sep then EmptyString :: split sep s'
      else
        match split sep s' with
        | [] => [String c EmptyString]
        | w :: ws => String c w :: ws
        end
  end.

(** [(username or "unknown").split("\\")[-1]]. *)
Definition normalize_username (username : option string) : string :=
  let u := match username with
           | None | Some EmptyString => "unknown"
           | Some u => u
           end in
  List.last (split "\"%char u) EmptyString.

(** ** Insertion-ordered dicts keyed by pid *)

Fixpoint dict_get {V : Type} (k : Z) (d : list (Z * V)) : option V :=
  match d with
  | [] => None
  | (k', v) :: d' => if k' =? k then Some v else dict_get k d'
  end.

(** [k in d]. *)
Definition dict_mem {V : Type} (k : Z) (d : list (Z * V)) : bool :=
  match dict_get k d with
  | Some _ => true
  | None => false
  end.

(** [d[k] = v]: an existing key keeps its position, a new key goes last. *)
Fixpoint dict_set {V : Type} (k : Z) (v : V) (d : list (Z * V)) : list (Z * V) :=
  match d with
  | [] => [(k, v)]
  | (k', v') :: d' =>
      if k' =? k then (k', v) :: d' else (k', v') :: dict_set k v d'
  end.

Definition dict_keys {V : Type} (d : list (Z * V)) : list Z := map fst d.

(** [d[k]], raising [KeyError] on a missing key. *)
Definition dict_item {V : Type} (k : Z) (d : list (Z * V)) : outcome V :=
  match dict_get k d with
  | Some v => Ok v
  | None => Raise KeyError
  end.

(** ** Process records *)

(** The dict stored under each pid of [processes]; ["memory_total"] is
    absent until the aggregation loop of [list_process] has set it. *)
Record proc_record : Type := {
  p_pid : Z;
  p_ppid : Z;
  p_name : string;
  p_username : string;
  p_memory : Q;
  p_ppids : parent_tree;
  p_memory_total : option Q
}.

Definition set_memory_total (total : Q) (proc : proc_record) : proc_record :=
  {| p_pid := p_pid proc;
     p_ppid := p_ppid proc;
     p_name := p_name proc;
     p_username := p_username proc;
     p_memory := p_memory proc;
     p_ppids := p_ppids proc;
     p_memory_total := Some total |}.

(** ** [compute_memory_with_children]

    The function mutates [memo] and [visited]; both are threaded through and
    returned next to the result. *)

Definition agg_state : Type := gmap Z Q * gset Z.

(** The [for child_pid in children_map.get(pid, [])] loop, with the
    recursive call abstracted as [rec]. *)
Fixpoint sum_children
    (rec : Z -> gmap Z Q -> gset Z -> outcome (Q * agg_state))
    (processes : list (Z * proc_record)) (child_pids : list Z)
    (total : Q) (memo : gmap Z Q) (visited : gset Z)
    : outcome (Q * agg_state) :=
  match child_pids with
  | [] => Ok (total, (memo, visited))
  | child_pid :: rest =>
      if dict_mem child_pid processes then
        '(sub, (memo, visited)) ← rec child_pid memo visited;
        sum_children rec processes rest (total + sub)%Q memo visited
      else sum_children rec processes rest total memo visited
  end.

Fixpoint compute_memory_with_children (depth : nat) (pid : Z)
    (processes : list (Z * proc_record)) (children_map : gmap Z (list Z))
    (memo : gmap Z Q) (visited : gset Z) : outcome (Q * agg_state) :=
  match depth with
  | O => Raise RecursionError
  | S depth' =>
      match memo !! pid with
      | Some total => Ok (total, (memo, visited))
      | None =>
          if decide (pid ∈ visited) then Ok (0%Q, (memo, visited))
          else
            let visited := {[pid]} ∪ visited in
            proc ← dict_item pid processes;
            '(total, (memo, visited)) ←
              sum_children
                (fun child_pid memo visited =>
                   compute_memory_with_children depth' child_pid processes
                     children_map memo visited)
                processes (default [] (children_map !! pid))
                (p_memory proc) memo visited;
            let visited := visited ∖ {[pid]} in
            let memo := <[pid := round2 total]> memo in
            Ok (round2 total, (memo, visited))
      end
  end.

(** ** [list_process] *)

(** One element of [psutil.process_iter(["pid", "ppid", "name",
    "username"])]: the prefetched [info] dict.  psutil stores [None] for a
    name or an owner it was denied. *)
Record raw_proc : Type := {
  info_pid : Z;
  info_ppid : Z;
  info_name : option string;
  info_username : option string
}.

(** The [filter] argument after the [int(filter)] attempt. *)
Inductive filter_arg : Type :=
  | FilterPid (pid : Z)
  | FilterName (name : string).

Definition snapshot : Type := list (Z * proc_record) * gmap Z (list Z).

(** The body of the [try] of the scan loop for one process. *)
Definition scan_body {lc : StrLower} (depth : nat) (os : snapshot_source)
    (filter : option filter_arg) (st : snapshot) (proc : raw_proc)
    : outcome snapshot :=
  let '(processes, children_map) := st in
  let proc_name := default EmptyString (info_name proc) in
  let skip :=
    match filter with
    | Some (FilterPid pid) => negb (info_pid proc =? pid)
    | Some (FilterName name) => negb (String.eqb (lower proc_name) (lower name))
    | None => false
    end in
  if skip then Ok st
  else
    memory ← query (os_memory_percent os (info_pid proc));
    ppids ← get_parent_tree depth os (info_pid proc);
    let record :=
      {| p_pid := info_pid proc;
         p_ppid := info_ppid proc;
         p_name := proc_name;
         p_username := normalize_username (info_username proc);
         p_memory := round2 memory;
         p_ppids := ppids;
         p_memory_total := None |} in
    let processes := dict_set (info_pid proc) record processes in
    let children_map :=
      <[info_ppid proc :=
          (default [] (children_map !! info_ppid proc) ++ [info_pid proc])%list]>
        children_map in
    Ok (processes, children_map).

(** One iteration of the scan loop: the body, and [continue] when it raises
    [NoSuchProcess] or [AccessDenied]. *)
Definition scan_one {lc : StrLower} (depth : nat) (os : snapshot_source)
    (filter : option filter_arg) (st : snapshot) (proc : raw_proc)
    : outcome snapshot :=
  try_except (scan_body depth os filter st proc) psutil_error (Ok st).

Fixpoint scan {lc : StrLower}
    (depth : nat) (os : snapshot_source) (filter : option filter_arg)
    (procs : list raw_proc) (st : snapshot) : outcome snapshot :=
  match procs with
  | [] => Ok st
  | proc :: rest =>
      st' ← scan_one depth os filter st proc;
      scan depth os filter rest st'
  end.

(** The [for pid in processes] loop that stores ["memory_total"]. *)
Fixpoint aggregate (depth : nat) (pids : list Z)
    (processes : list (Z * proc_record)) (children_map : gmap Z (list Z))
    (memo : gmap Z Q) : outcome (list (Z * proc_record) * gmap Z Q) :=
  match pids with
  | [] => Ok (processes, memo)
  | pid :: rest =>
      '(total, (memo, _)) ←
        compute_memory_with_children depth pid processes children_map memo ∅;
      proc ← dict_item pid processes;
      aggregate depth rest
        (dict_set pid (set_memory_total total proc) processes)
        children_map memo
  end.

Definition list_process {lc : StrLower} (depth : nat) (os : snapshot_source)
    (filter : option filter_arg) (procs : list raw_proc) : outcome snapshot :=
  '(processes, children_map) ← scan depth os filter procs ([], ∅);
  '(processes, _) ←
    aggregate depth (dict_keys processes) processes children_map ∅;
  Ok (processes, children_map).

(** ** The view builder of [main.py] *)

(** A value returned by [sorter]: a lower-cased string or a number. *)
Inductive sort_value : Type :=
  | StrKey (s : string)
  | NumKey (q : Q).

(** Python's [<] on two keys.  Every key of one sort has the same
    constructor (see [sorter]), so the mixed cases are never compared. *)
Definition key_ltb (a b : sort_value) : bool :=
  match a, b with
  | StrKey s, StrKey t => String.ltb s t
  | NumKey p, NumKey q => negb (Qle_bool q p)
  | _, _ => false
  end.

Definition sorter {lc : StrLower}
    (sort_by : string) (processes : list (Z * proc_record))
    (pid : Z) : outcome sort_value :=
  proc ← dict_item pid processes;
  if String.eqb sort_by "alphabet" then Ok (StrKey (lower (p_name proc)))
  else if String.eqb sort_by "owner" then Ok (StrKey (lower (p_username proc)))
  else if String.eqb sort_by "memory" then
    Ok (NumKey (default 0%Q (p_memory_total proc)))
  else Ok (NumKey (inject_Z (p_pid proc))).

Fixpoint for_each {A B : Type} (f : A -> outcome B) (l : list A)
    : outcome (list B) :=
  match l with
  | [] => Ok []
  | x :: rest =>
      y ← f x;
      ys ← for_each f rest;
      Ok (y :: ys)
  end.

(** Python's [sorted(l, key=..., reverse=...)].  The keys are computed first;
    the sort is stable, and with [reverse=True] CPython reverses the list,
    sorts it, and reverses it again.  A stable insertion sort stands for
    Timsort: on keys that [<] orders totally up to ties, every stable sort
    returns the same list. *)
Fixpoint insert_sorted {A : Type} (x : sort_value * A)
    (l : list (sort_value * A)) : list (sort_value * A) :=
  match l with
  | [] => [x]
  | y :: l' =>
      if key_ltb (fst y) (fst x) then y :: insert_sorted x l' else x :: y :: l'
  end.

Definition stable_sort {A : Type} (l : list (sort_value * A))
    : list (sort_value * A) :=
  fold_right insert_sorted [] l.

Definition sorted {A : Type} (key : A -> outcome sort_value) (reverse : bool)
    (l : list A) : outcome (list A) :=
  keys ← for_each key l;
  let decorated := combine keys l in
  let ordered :=
    if reverse then rev (stable_sort (rev decorated))
    else stable_sort decorated in
  Ok (map snd ordered).

(** What [format_proc] puts on a line: the padded name, pid and owner, the
    sparkline glyph and the total.  The padding and the decimal printing
    belong to the display and are not modelled. *)
Record label : Type := {
  l_name : string;
  l_pid : Z;
  l_username : string;
  l_bar : Z;
  l_memory_total : Q
}.

(** [proc['memory_total']] is the float that [round(total, 2)] returned,
    the one nearest to the hundredths of the total. *)
Definition format_proc (proc : proc_record) : outcome label :=
  memory_total ←
    match p_memory_total proc with
    | Some t => Ok t
    | None => Raise KeyError
    end;
  bar ← text_sparkline (to_float memory_total);
  Ok {| l_name := p_name proc;
        l_pid := p_pid proc;
        l_username := p_username proc;
        l_bar := bar;
        l_memory_total := memory_total |}.

(** A node of the [Tree] widget with the nodes added below it. *)
Inductive tree_node : Type :=
  | Node (lbl : label) (children : list tree_node).

(** [add_children_recursive]; the result is the list of nodes added under
    [tree_node], in the order of the calls to [tree_node.add]. *)
Fixpoint add_children_recursive {lc : StrLower}
    (depth : nat) (sort_by : string) (pid : Z)
    (processes : list (Z * proc_record)) (children_map : gmap Z (list Z))
    : outcome (list tree_node) :=
  match depth with
  | O => Raise RecursionError
  | S depth' =>
      match children_map !! pid with
      | None => Ok []
      | Some child_pids =>
          ordered ← sorted (sorter sort_by processes)
                      (String.eqb sort_by "memory") child_pids;
          for_each
            (fun child_pid =>
               child_proc ← dict_item child_pid processes;
               lbl ← format_proc child_proc;
               below ← add_children_recursive depth' sort_by child_pid
                         processes children_map;
               Ok (Node lbl below))
            ordered
      end
  end.

(** [root_pids] of [load_tree]. *)
Definition root_pids (processes : list (Z * proc_record)) : list Z :=
  List.filter
    (fun pid =>
       match dict_get pid processes with
       | Some proc => negb (dict_mem (p_ppid proc) processes)
       | None => false
       end)
    (dict_keys processes).

(** [load_tree] after the call to [list_process]: the nodes added under
    [tree.root]. *)
Definition build_forest {lc : StrLower} (depth : nat) (sort_by : string)
    (processes : list (Z * proc_record)) (children_map : gmap Z (list Z))
    : outcome (list tree_node) :=
  ordered ← sorted (sorter sort_by processes)
              (String.eqb sort_by "memory") (root_pids processes);
  for_each
    (fun pid =>
       proc ← dict_item pid processes;
       lbl ← format_proc proc;
       below ← add_children_recursive depth sort_by pid processes children_map;
       Ok (Node lbl below))
    ordered.

(** ** The application

    [observe k] is what the [k]-th scan of the process table sees: the
    answers of psutil and the processes yielded by [process_iter].  The
    number of scans made so far is carried next to the application state. *)

Record app : Type := {
  sort_by : string;
  tree : list tree_node
}.

Definition observation : Type := snapshot_source * list raw_proc.

Definition load_tree {lc : StrLower}
    (depth : nat) (observe : nat -> observation)
    (st : app * nat) : outcome (app * nat) :=
  let '(self, scans) := st in
  let '(os, procs) := observe scans in
  '(processes, children_map) ← list_process depth os None procs;
  forest ← build_forest depth (sort_by self) processes children_map;
  Ok ({| sort_by := sort_by self; tree := forest |}, S scans).

(** [__init__] followed by [on_mount]. *)
Definition on_mount {lc : StrLower} (depth : nat) (observe : nat -> observation)
    : outcome (app * nat) :=
  load_tree depth observe ({| sort_by := "pid"; tree := [] |}, O).

Definition on_option_list_option_selected {lc : StrLower} (depth : nat)
    (observe : nat -> observation) (selected : string) (st : app * nat)
    : outcome (app * nat) :=
  let '(self, scans) := st in
  let sort_by' :=
    if String.eqb selected "По Алфавиту" then "alphabet"
    else if String.eqb selected "По PID" then "pid"
    else if String.eqb selected "По Владельцу" then "owner"
    else if String.eqb selected "По Памяти" then "memory"
    else sort_by self in
  load_tree depth observe ({| sort_by := sort_by'; tree := tree self |}, scans).

(** * Vocabulary of the properties *)

(** ** The sparkline *)

Definition clamp (lo hi i : Z) : Z := Z.max lo (Z.min hi i).

(** The bucket as the specification words it: [floor(value * 7 / 100)]
    clamped to [0, 7]. *)
Definition sparkline_bucket_spec (value : Q) : Z :=
  clamp 0 7 (Qfloor (value * 7 / 100)).

Definition text_sparkline_spec (value : Q) : outcome Z :=
  match nth_error bars (Z.to_nat (sparkline_bucket_spec value)) with
  | Some glyph => Ok glyph
  | None => Raise IndexError
  end.

(** The scaled value [memory_percent * 7 / 100] of a float whose product
    and quotient stay finite. *)
Definition scaled (value : Q) : Q :=
  round_binary64 (round_binary64 (value * 7) / 100).

(** A finite binary64 value. *)
Definition is_binary64 (q : Q) : Prop := to_float q = Finite (Qred q).

(** The largest float for which the scaled value is below 8,
    114.28571428571426, and the float after it, 114.28571428571428. *)
Definition glyph_max : Q := 8042142191733027 # 70368744177664.

Definition glyph_max_next : Q := 8042142191733028 # 70368744177664.

(** The smallest float for which the scaled value is above -9,
    -128.57142857142856, and the float before it, -128.57142857142858. *)
Definition glyph_min : Q := -4523704982849828 # 35184372088832.

Definition glyph_min_prev : Q := -4523704982849829 # 35184372088832.

(** The smallest float for which the scaled value is above -1,
    -14.285714285714283: from there on [int] truncates the scaled value to
    an index that is not negative. *)
Definition bucket_min : Q := -8042142191733027 # 562949953421312.

(** The float 14.285714285714285, an eighth of [glyph_max_next]. *)
Definition carried_up : Q := 2010535547933257 # 140737488355328.

(** The largest float whose product with 7 is finite, about 2.568e307, and
    the float after it. *)
Definition product_max : Q := inject_Z (5146971002709137 * 2 ^ 969).

Definition product_max_next : Q := inject_Z (5146971002709138 * 2 ^ 969).

(** ** Root detection *)

Definition example_proc (pid ppid : Z) : Z * proc_record :=
  (pid, {| p_pid := pid; p_ppid := ppid; p_name := "p"; p_username := "u";
           p_memory := 0; p_ppids := NoParent; p_memory_total := None |}).

(** The mapping [{1: {ppid: 0}, 2: {ppid: 1}, 3: {ppid: 99}}]. *)
Definition example_roots : list (Z * proc_record) :=
  [example_proc 1 0; example_proc 2 1; example_proc 3 99].

(** ** The ancestor walk *)

(** [walk_ends os proc n]: following the answers of [os] from [proc], the
    [n]-th ancestor is the first one at which the walk stops: it has no
    parent, or the query for its parent or for that parent's name fails. *)
Inductive walk_ends (os : snapshot_source) : Z -> nat -> Prop :=
  | walk_ends_no_parent proc :
      os_parent os proc = Answer None -> walk_ends os proc 0
  | walk_ends_parent_fails proc :
      query (os_parent os proc) = Raise NoSuchProcess \/
      query (os_parent os proc) = Raise AccessDenied ->
      walk_ends os proc 0
  | walk_ends_name_fails proc parent :
      os_parent os proc = Answer (Some parent) ->
      query (os_name os parent) = Raise NoSuchProcess \/
      query (os_name os parent) = Raise AccessDenied ->
      walk_ends os proc 0
  | walk_ends_step proc parent name n :
      os_parent os proc = Answer (Some parent) ->
      os_name os parent = Answer name ->
      walk_ends os parent n ->
      walk_ends os proc (S n).

(** A process table in which 3 is a child of 2, 2 a child of 1, and 1 has
    no parent. *)
Definition chain_os : snapshot_source :=
  {| os_parent := fun p =>
       if p =? 3 then Answer (Some 2)
       else if p =? 2 then Answer (Some 1)
       else Answer None;
     os_name := fun _ => Answer "proc";
     os_memory_percent := fun p => Answer (inject_Z p) |}.

(** A process table in which 5 and 7 report each other as parent. *)
Definition cyclic_os : snapshot_source :=
  {| os_parent := fun p =>
       if p =? 5 then Answer (Some 7)
       else if p =? 7 then Answer (Some 5)
       else Answer None;
     os_name := fun _ => Answer "proc";
     os_memory_percent := fun _ => Answer 1%Q |}.

(** ** The aggregator *)

(** What [compute_memory_with_children] reads of [processes]: which pids are
    keys, and the ["memory"] stored under each. *)
Definition memory_of (processes : list (Z * proc_record)) (pid : Z) : option Q :=
  p_memory <$> dict_get pid processes.

Definition keys_set (processes : list (Z * proc_record)) : gset Z :=
  list_to_set (dict_keys processes).

(** The children the loop of [compute_memory_with_children] does not skip:
    those listed in the index for [pid] that are keys of [processes]. *)
Definition present_children (processes : list (Z * proc_record))
    (children_map : gmap Z (list Z)) (pid : Z) : list Z :=
  List.filter (fun c => dict_mem c processes) (default [] (children_map !! pid)).

Definition edge (processes : list (Z * proc_record))
    (children_map : gmap Z (list Z)) (parent child : Z) : Prop :=
  In child (present_children processes children_map parent).

(** How a total is made: one term per present child, which is the memoised
    total of the child, or zero for a child that is an ancestor of [pid]
    (or [pid] itself) in the index. *)
Definition terms_of (processes : list (Z * proc_record))
    (children_map : gmap Z (list Z)) (memo : gmap Z Q) (pid : Z)
    (terms : list Q) : Prop :=
  Forall2 (fun c term => memo !! c = Some term \/
                         (term = 0%Q /\ rtc (edge processes children_map) c pid))
    (present_children processes children_map pid) terms.

(** [memo_inv P memo]: every entry of [memo] satisfies [P]. *)
Definition memo_inv (P : gmap Z Q -> Z -> Q -> Prop) (memo : gmap Z Q) : Prop :=
  forall pid total, memo !! pid = Some total -> P memo pid total.

(** What a call [compute_memory_with_children(pid, ..., memo, visited)]
    does: it returns, leaves [visited] as it found it, only adds to
    [memo], never for a pid that is on the stack, and either returns the
    memoised total of [pid] or zero for a [pid] on the stack. *)
Definition call_spec (P : gmap Z Q -> Z -> Q -> Prop) (pid : Z)
    (memo : gmap Z Q) (visited : gset Z) (r : outcome (Q * agg_state)) : Prop :=
  exists total memo',
    r = Ok (total, (memo', visited)) /\
    memo ⊆ memo' /\
    memo_inv P memo' /\
    (forall k, k ∈ visited -> memo !! k = None -> memo' !! k = None) /\
    (memo' !! pid = Some total \/
     (total = 0%Q /\ pid ∈ visited /\ memo' = memo /\ memo !! pid = None)).

(** ** The aggregation loop of [list_process] *)

(** Two records that differ at most in ["memory_total"]. *)
Definition same_fields (proc proc' : proc_record) : Prop :=
  p_pid proc = p_pid proc' /\
  p_ppid proc = p_ppid proc' /\
  p_name proc = p_name proc' /\
  p_username proc = p_username proc' /\
  p_memory proc = p_memory proc' /\
  p_ppids proc = p_ppids proc'.

(** Two dicts with the same keys in the same order, whose records differ at
    most in ["memory_total"]. *)
Definition dict_similar (ps ps' : list (Z * proc_record)) : Prop :=
  Forall2 (fun a b => fst a = fst b /\ same_fields (snd a) (snd b)) ps ps'.

Definition total_of (ps : list (Z * proc_record)) (pid : Z) : option Q :=
  match dict_get pid ps with
  | Some proc => p_memory_total proc
  | None => None
  end.

(** ** Sums of terms *)

Definition Qsum (terms : list Q) : Q := fold_right Qplus 0%Q terms.

(** ** Totals are no less than the own memory *)

(** Every ["memory"] is a non-negative number with two decimals, as
    [round(proc.memory_percent(), 2)] is. *)
Definition sane_memory (processes : list (Z * proc_record)) : bool :=
  forallb
    (fun entry =>
       Qle_bool 0 (p_memory (snd entry)) &&
       Qeq_bool (round2 (p_memory (snd entry))) (p_memory (snd entry)))
    processes.

(** [total_ge_self processes memo pid total]: [pid] is in the snapshot and
    [total] is no less than its own memory. *)
Definition total_ge_self (processes : list (Z * proc_record))
    (_ : gmap Z Q) (pid : Z) (total : Q) : Prop :=
  exists self, memory_of processes pid = Some self /\ (self <= total)%Q.

(** [at_least_self processes memo]: every memoised total belongs to a pid of
    the snapshot and is no less than the own memory of that pid. *)
Definition at_least_self (processes : list (Z * proc_record))
    (memo : gmap Z Q) : Prop :=
  memo_inv (total_ge_self processes) memo.

Definition memory_proc (pid ppid : Z) (memory : Q) : Z * proc_record :=
  (pid, {| p_pid := pid; p_ppid := ppid; p_name := "p"; p_username := "u";
           p_memory := memory; p_ppids := NoParent; p_memory_total := None |}).

(** The cycle of the specification: 5 records 7 as its parent, the index
    lists 5 under 7 and 7 under 5; 99 is a child that is not in the
    snapshot. *)
Definition example_cycle : list (Z * proc_record) :=
  [memory_proc 5 7 (3 # 2); memory_proc 7 5 (5 # 2)].

Definition example_cycle_index : gmap Z (list Z) :=
  <[7 := [5; 99]]> (<[5 := [7]]> ∅).

(** The invariant that asks nothing of the memo. *)
Definition no_invariant (_ : gmap Z Q) (_ : Z) (_ : Q) : Prop := True.

(** ** The sum over children on an acyclic index *)

(** [summed processes children_map memo pid total]: [total] is the rounded
    sum of the own memory of [pid] and of the terms of its present
    children. *)
Definition summed (processes : list (Z * proc_record))
    (children_map : gmap Z (list Z)) (memo : gmap Z Q) (pid : Z) (total : Q)
    : Prop :=
  exists self terms,
    memory_of processes pid = Some self /\
    total = round2 (fold_left Qplus terms self) /\
    terms_of processes children_map memo pid terms.

(** No pid is its own descendant in the index restricted to the snapshot. *)
Definition acyclic (processes : list (Z * proc_record))
    (children_map : gmap Z (list Z)) : Prop :=
  forall pid, ~ tc (edge processes children_map) pid pid.

(** A tree: 1 has the children 2 and 3, 2 has the child 4, and the index
    also lists 99 under 2, which is not in the snapshot. *)
Definition example_tree : list (Z * proc_record) :=
  [memory_proc 1 0 (125 # 100); memory_proc 2 1 (5 # 2);
   memory_proc 3 1 (3 # 4); memory_proc 4 2 1].

Definition example_tree_index : gmap Z (list Z) :=
  <[0 := [1]]> (<[1 := [2; 3]]> (<[2 := [4; 99]]> ∅)).

(** ** The scan *)

Definition read_fails {A : Type} (r : psutil_result A) : Prop :=
  r = Gone \/ r = Denied.

(** Every pid the scan has stored, as a key or as a child, is one whose
    memory percentage psutil answered. *)
Definition memory_answered (os : snapshot_source) (st : snapshot) : Prop :=
  (forall k, In k (dict_keys (fst st)) ->
     exists m, os_memory_percent os k = Answer m) /\
  (forall parent children c,
     snd st !! parent = Some children -> In c children ->
     exists m, os_memory_percent os c = Answer m).

(** A process table in which every process is a root without parent and
    uses as many percent of the memory as its pid says, except 3, which is
    gone by the time its memory is read. *)
Definition flaky_os : snapshot_source :=
  {| os_parent := fun _ => Answer None;
     os_name := fun _ => Answer "proc";
     os_memory_percent := fun p => if p =? 3 then Gone else Answer (inject_Z p) |}.

(** A process table in which the parent of no process may be asked for. *)
Definition guarded_os : snapshot_source :=
  {| os_parent := fun _ => Denied;
     os_name := fun _ => Answer "proc";
     os_memory_percent := fun p => Answer (inject_Z p) |}.

Definition raw (pid ppid : Z) (name : string) : raw_proc :=
  {| info_pid := pid; info_ppid := ppid;
     info_name := Some name; info_username := Some "HOST\user" |}.

(** ** Sorting *)

(** Python's [==] on two keys. *)
Definition key_eqb (a b : sort_value) : bool :=
  match a, b with
  | StrKey s, StrKey t => String.eqb s t
  | NumKey p, NumKey q => Qeq_bool p q
  | _, _ => false
  end.

(** Two keys of the same Python type. *)
Definition same_kind (a b : sort_value) : bool :=
  match a, b with
  | StrKey _, StrKey _ | NumKey _, NumKey _ => true
  | _, _ => false
  end.

(** A decorated list whose keys are all strings or all numbers. *)
Definition one_kind {A : Type} (l : list (sort_value * A)) : Prop :=
  forall x y, In x l -> In y l -> same_kind (fst x) (fst y) = true.

(** [a <= b] on keys: not [b < a]. *)
Definition key_le (a b : sort_value) : Prop := key_ltb b a = false.

(** The order [sorted] is to produce on the decorated list. *)
Definition in_order {A : Type} (reverse : bool) (a b : sort_value * A) : Prop :=
  if reverse then key_le (fst b) (fst a) else key_le (fst a) (fst b).

(** The decorated elements whose key equals [k]. *)
Definition with_key {A : Type} (k : sort_value) (x : sort_value * A) : bool :=
  key_eqb (fst x) k.

(** The two directions of [sorted] on the decorated list. *)
Definition order_decorated {A : Type} (reverse : bool)
    (l : list (sort_value * A)) : list (sort_value * A) :=
  if reverse then rev (stable_sort (rev l)) else stable_sort l.

(** The elements whose key equals [k]. *)
Definition has_key {A : Type} (key : A -> outcome sort_value)
    (k : sort_value) (a : A) : bool :=
  match key a with
  | Ok v => key_eqb v k
  | Raise _ => false
  end.

Definition decorated_by {A : Type} (key : A -> outcome sort_value)
    (x : sort_value * A) : Prop :=
  key (snd x) = Ok (fst x).

(** ** The forest *)

Definition node_pid (n : tree_node) : Z :=
  match n with
  | Node lbl _ => l_pid lbl
  end.

(** Every record is stored under its own pid, as [list_process] stores it. *)
Definition keys_match (processes : list (Z * proc_record)) : bool :=
  forallb (fun entry => fst entry =? p_pid (snd entry)) processes.

(** [ties_kept sort_by processes group shown]: the pids of [shown] that
    have one and the same sort key stand in the order they have in
    [group]. *)
Definition ties_kept {lc : StrLower}
    (sort_by : string) (processes : list (Z * proc_record))
    (group shown : list Z) : Prop :=
  forall k,
    List.filter (has_key (sorter sort_by processes) k) shown =
    List.filter (has_key (sorter sort_by processes) k) group.

(** The same for the children of a node, against the child list the index
    has for it, and so on below. *)
Inductive ties_kept_in {lc : StrLower}
    (sort_by : string) (processes : list (Z * proc_record))
    (children_map : gmap Z (list Z)) : tree_node -> Prop :=
  | ties_kept_node lbl nodes :
      ties_kept sort_by processes
        (default [] (children_map !! l_pid lbl)) (map node_pid nodes) ->
      Forall (ties_kept_in sort_by processes children_map) nodes ->
      ties_kept_in sort_by processes children_map (Node lbl nodes).

(** [shown pid n]: [pid] labels [n] or a node below [n]. *)
Inductive shown (pid : Z) : tree_node -> Prop :=
  | shown_here lbl nodes : l_pid lbl = pid -> shown pid (Node lbl nodes)
  | shown_below lbl nodes : Exists (shown pid) nodes -> shown pid (Node lbl nodes).

(** [index_edge children_map parent child]: the index lists [child] under
    [parent]. *)
Definition index_edge (children_map : gmap Z (list Z)) (parent child : Z) : Prop :=
  exists children, children_map !! parent = Some children /\ In child children.

(** One iteration of the loops of [load_tree] and [add_children_recursive]:
    the node added for [pid], with the nodes added below it. *)
Definition add_node {lc : StrLower}
    (sort_by : string) (processes : list (Z * proc_record))
    (children_map : gmap Z (list Z)) (depth : nat) (pid : Z) : outcome tree_node :=
  proc ← dict_item pid processes;
  lbl ← format_proc proc;
  below ← add_children_recursive depth sort_by pid processes children_map;
  Ok (Node lbl below).

(** A process table in which every process uses 5 percent of the memory. *)
Definition even_os : snapshot_source :=
  {| os_parent := fun _ => Answer None;
     os_name := fun _ => Answer "proc";
     os_memory_percent := fun _ => Answer 5%Q |}.

(** Two roots named alike up to case, and under the first a child [zsh]
    followed by two children named [Bash] and [bash]. *)
Definition tie_procs : list raw_proc :=
  [raw 1 0 "init"; raw 2 1 "zsh"; raw 3 1 "Bash"; raw 4 1 "bash"; raw 5 0 "INIT"].

(** A lowering that also folds the capital letters of the Latin-1
    supplement (U+00C0 to U+00DE without the multiplication sign), as
    [str.lower()] does: in UTF-8 these are the bytes 0x80 to 0x9E after the
    lead byte 0xC3, and the small letter is 0x20 further. *)
Fixpoint latin_lower_after (lead : bool) (s : string) : string :=
  match s with
  | EmptyString => EmptyString
  | String c s' =>
      let n := N_of_ascii c in
      let c' :=
        if (lead && (128 <=? n) && (n <=? 158) && negb (n =? 151))%N
        then ascii_of_N (n + 32)
        else lower_ascii c in
      String c' (latin_lower_after (n =? 195)%N s')
  end.

Definition latin_lower : StrLower := latin_lower_after false.

(** Two roots whose names differ by case only, in ASCII and outside it. *)
Definition accent_procs : list raw_proc := [raw 1 0 "éA"; raw 2 0 "Éa"].

Fixpoint forest_pids (n : tree_node) : list Z :=
  match n with
  | Node lbl nodes => l_pid lbl :: flat_map forest_pids nodes
  end.

(** ** The index built by the scan *)

(** Every record is stored under its own pid, and every pid the index lists
    under a parent has a record whose ["ppid"] is that parent. *)
Definition well_indexed (st : snapshot) : Prop :=
  keys_match (fst st) = true /\
  forall parent children c,
    snd st !! parent = Some children -> In c children ->
    exists proc, dict_get c (fst st) = Some proc /\ p_ppid proc = parent.

(** A snapshot as Windows gives it: the idle process 0 is its own parent and
    [System] hangs below it; 5 and 7 record each other as parent; 10 is a
    root with the child 11. *)
Definition cycle_procs : list raw_proc :=
  [raw 0 0 "Idle"; raw 4 0 "System"; raw 10 1 "shell"; raw 11 10 "editor";
   raw 5 7 "five"; raw 7 5 "seven"].

Definition cycle_snapshot : snapshot :=
  match list_process 10 even_os None cycle_procs with
  | Ok s => s
  | Raise _ => ([], ∅)
  end.

Definition cycle_forest : list tree_node :=
  match build_forest 10 "pid" (fst cycle_snapshot) (snd cycle_snapshot) with
  | Ok forest => forest
  | Raise _ => []
  end.

(** ** Changing the sort key *)

(** The key [on_option_list_option_selected] stores for a prompt. *)
Definition selected_sort_by (selected current : string) : string :=
  if String.eqb selected "По Алфавиту" then "alphabet"
  else if String.eqb selected "По PID" then "pid"
  else if String.eqb selected "По Владельцу" then "owner"
  else if String.eqb selected "По Памяти" then "memory"
  else current.

(** A process table that shows the processes 1 and 2 to the first scan and
    the process 3 to every later one. *)
Definition changing_table (k : nat) : observation :=
  match k with
  | O => (even_os, [raw 1 0 "a"; raw 2 0 "b"])
  | S _ => (even_os, [raw 3 0 "c"])
  end.

Definition mounted : app * nat :=
  match on_mount 10 changing_table with
  | Ok st => st
  | Raise _ => ({| sort_by := "pid"; tree := [] |}, O)
  end.

Definition resorted : app * nat :=
  match on_option_list_option_selected 10 changing_table "По Памяти" mounted with
  | Ok st => st
  | Raise _ => mounted
  end.

(** Every record can be put on a line: it has a total, and the total is in
    the range of the sparkline. *)
Definition labels_ok (processes : list (Z * proc_record)) : bool :=
  forallb (fun entry => is_ok (format_proc (snd entry))) processes.

(** [ancestry processes path]: [path] leads from a pid of the snapshot up to
    a root, each pid followed by its recorded parent. *)
Inductive ancestry (processes : list (Z * proc_record)) : list Z -> Prop :=
  | ancestry_root root :
      In root (root_pids processes) -> ancestry processes [root]
  | ancestry_child c p rest proc :
      dict_get c processes = Some proc -> p_ppid proc = p ->
      ancestry processes (p :: rest) -> ancestry processes (c :: p :: rest).

(** * Vocabulary of the further properties *)

(** ** The ancestor chain *)

(** [chain_of os proc chain]: every level of [chain] is the parent psutil
    reports for the level below it, starting at [proc], with the name
    psutil gives for it and its memory percentage rounded to two decimals;
    the chain may stop at any level. *)
Inductive chain_of (os : snapshot_source) : Z -> parent_tree -> Prop :=
  | chain_of_stop proc : chain_of os proc NoParent
  | chain_of_parent proc parent name memory ppids :
      os_parent os proc = Answer (Some parent) ->
      os_name os parent = Answer name ->
      os_memory_percent os parent = Answer memory ->
      chain_of os parent ppids ->
      chain_of os proc (Parent parent name ppids (round2 memory)).

(** The pids of a chain, nearest ancestor first. *)
Fixpoint chain_pids (chain : parent_tree) : list Z :=
  match chain with
  | NoParent => []
  | Parent ppid _ ppids _ => ppid :: chain_pids ppids
  end.

(** ** Strings *)

(** [c in s]. *)
Fixpoint has_char (c : ascii) (s : string) : bool :=
  match s with
  | EmptyString => false
  | String c' s' => Ascii.eqb c' c || has_char c s'
  end.

(** ** What the scan keeps *)

(** The process passes the [filter] of [list_process]. *)
Definition passes_filter {lc : StrLower}
    (filter : option filter_arg) (proc : raw_proc) : bool :=
  match filter with
  | Some (FilterPid pid) => info_pid proc =? pid
  | Some (FilterName name) =>
      String.eqb (lower (default EmptyString (info_name proc))) (lower name)
  | None => true
  end.

(** psutil answers the memory read of the process. *)
Definition memory_read (os : snapshot_source) (proc : raw_proc) : bool :=
  match os_memory_percent os (info_pid proc) with
  | Answer _ => true
  | _ => false
  end.

(** The scan keeps the process: it passes the filter and its memory is
    read. *)
Definition kept {lc : StrLower}
    (os : snapshot_source) (filter : option filter_arg)
    (proc : raw_proc) : bool :=
  passes_filter filter proc && memory_read os proc.

(** The record the scan stores for a process it keeps. *)
Definition record_of (depth : nat) (os : snapshot_source) (proc : raw_proc)
    : proc_record :=
  {| p_pid := info_pid proc;
     p_ppid := info_ppid proc;
     p_name := default EmptyString (info_name proc);
     p_username := normalize_username (info_username proc);
     p_memory :=
       match os_memory_percent os (info_pid proc) with
       | Answer memory => round2 memory
       | _ => 0%Q
       end;
     p_ppids :=
       match get_parent_tree depth os (info_pid proc) with
       | Ok chain => chain
       | Raise _ => NoParent
       end;
     p_memory_total := None |}.

(** The kept processes that report [parent] as their parent. *)
Definition kept_children {lc : StrLower}
    (os : snapshot_source) (filter : option filter_arg)
    (parent : Z) (procs : list raw_proc) : list Z :=
  map info_pid
    (List.filter (fun proc => kept os filter proc && (info_ppid proc =? parent))
       procs).

(** [scanned_from depth os proc entry]: [entry] is what [list_process]
    stores for the process [proc]. *)
Definition scanned_from (depth : nat) (os : snapshot_source) (proc : raw_proc)
    (entry : Z * proc_record) : Prop :=
  fst entry = info_pid proc /\
  p_pid (snd entry) = info_pid proc /\
  p_ppid (snd entry) = info_ppid proc /\
  p_name (snd entry) = default EmptyString (info_name proc) /\
  p_username (snd entry) = normalize_username (info_username proc) /\
  (exists memory, os_memory_percent os (info_pid proc) = Answer memory /\
                  p_memory (snd entry) = round2 memory) /\
  get_parent_tree depth os (info_pid proc) = Ok (p_ppids (snd entry)) /\
  is_Some (p_memory_total (snd entry)).

(** Four processes of [flaky_os]; the memory of 3 cannot be read. *)
Definition flaky_procs : list raw_proc :=
  [raw 1 0 "a"; raw 2 1 "b"; raw 3 1 "c"; raw 4 2 "d"].

Definition flaky_snapshot : snapshot :=
  match list_process 10 flaky_os None flaky_procs with
  | Ok s => s
  | Raise _ => ([], ∅)
  end.

(** ** The levels of the forest *)

(** The label [format_proc] makes of a record. *)
Definition label_of (proc : proc_record) (lbl : label) : Prop :=
  l_name lbl = p_name proc /\
  l_pid lbl = p_pid proc /\
  l_username lbl = p_username proc /\
  p_memory_total proc = Some (l_memory_total lbl) /\
  text_sparkline (to_float (l_memory_total lbl)) = Ok (l_bar lbl).

(** Every node at and below the node carries the label of the record that
    [processes] holds for its pid. *)
Inductive labelled (processes : list (Z * proc_record)) : tree_node -> Prop :=
  | labelled_node lbl nodes :
      (exists proc, dict_get (l_pid lbl) processes = Some proc /\
                    label_of proc lbl) ->
      Forall (labelled processes) nodes ->
      labelled processes (Node lbl nodes).

(** [levels_in L children_map n]: at and below [n], the child list the
    index has for a node and the pids of the nodes added under it are
    related by [L]. *)
Inductive levels_in (L : list Z -> list Z -> Prop)
    (children_map : gmap Z (list Z)) : tree_node -> Prop :=
  | levels_node lbl nodes :
      L (default [] (children_map !! l_pid lbl)) (map node_pid nodes) ->
      Forall (levels_in L children_map) nodes ->
      levels_in L children_map (Node lbl nodes).

(** The order of two pids under the sort key [sort_by]: ascending keys, and
    descending totals under ["memory"]. *)
Definition pid_order {lc : StrLower}
    (sort_by : string) (processes : list (Z * proc_record))
    (p q : Z) : Prop :=
  exists kp kq,
    sorter sort_by processes p = Ok kp /\
    sorter sort_by processes q = Ok kq /\
    if String.eqb sort_by "memory" then key_le kq kp else key_le kp kq.

(** A process table in which every process uses 60 percent of the
    memory. *)
Definition heavy_os : snapshot_source :=
  {| os_parent := fun _ => Answer None;
     os_name := fun _ => Answer "proc";
     os_memory_percent := fun _ => Answer 60%Q |}.

(** A shell with an editor below it: the total of the shell is 120. *)
Definition heavy_snapshot : snapshot :=
  match list_process 10 heavy_os None [raw 10 1 "shell"; raw 11 10 "editor"] with
  | Ok s => s
  | Raise _ => ([], ∅)
  end.

(** * Properties *)

(** ** The embedding on examples *)

Example text_sparkline_0 : text_sparkline (Finite 0) = Ok 0x2581.
Proof. vm_compute. reflexivity. Qed.

Example text_sparkline_50 : text_sparkline (Finite 50) = Ok 0x2584.
Proof. vm_compute. reflexivity. Qed.

Example text_sparkline_100 : text_sparkline (Finite 100) = Ok 0x2588.
Proof. vm_compute. reflexivity. Qed.

Example text_sparkline_120 : text_sparkline (Finite 120) = Raise IndexError.
Proof. vm_compute. reflexivity. Qed.

(** The floats of some decimal literals. *)
Example to_float_literals :
  to_float (1 # 10) = Finite (3602879701896397 # 36028797018963968) /\
  to_float (11428 # 100) = Finite (4020870042311721 # 35184372088832) /\
  to_float (800 # 7) = Finite (8042142191733029 # 70368744177664).
Proof. vm_compute. repeat split. Qed.

Example round2_half_even :
  (round2 (1005 # 1000) == 1 /\ round2 (1015 # 1000) == 102 # 100)%Q.
Proof. split; reflexivity. Qed.

Example normalize_username_domain :
  normalize_username (Some "HOST\alice") = "alice".
Proof. reflexivity. Qed.

Example normalize_username_missing : normalize_username None = "unknown".
Proof. reflexivity. Qed.

(** ** Rounding *)

Section Rounding.

Local Open Scope Q_scope.

Lemma round_half_even_cases (q : Q) :
  (round_half_even q = Qfloor q /\ q - inject_Z (Qfloor q) <= 1 # 2) \/
  (round_half_even q = (Qfloor q + 1)%Z /\ 1 # 2 <= q - inject_Z (Qfloor q)).
Proof.
  unfold round_half_even.
  destruct (Qcompare_spec (q - inject_Z (Qfloor q)) (1 # 2)) as [E | L | G].
  - destruct (Z.even (Qfloor q)); [left | right]; split; trivial; lra.
  - left; split; trivial; lra.
  - right; split; trivial; lra.
Qed.

Lemma round_half_even_comp (p q : Q) :
  p == q -> round_half_even p = round_half_even q.
Proof.
  intros E. unfold round_half_even.
  rewrite (Qfloor_comp _ _ E).
  assert (C : (p - inject_Z (Qfloor q) ?= 1 # 2) =
              (q - inject_Z (Qfloor q) ?= 1 # 2)).
  { apply Qcompare_comp; [rewrite E|]; reflexivity. }
  rewrite C. reflexivity.
Qed.

Lemma round_half_even_near (q : Q) :
  - (1 # 2) <= inject_Z (round_half_even q) - q <= 1 # 2.
Proof.
  pose proof (Qfloor_le q) as Hlo. pose proof (Qlt_floor q) as Hhi.
  rewrite inject_Z_plus in Hhi. change (inject_Z 1) with 1 in Hhi.
  destruct (round_half_even_cases q) as [[-> H] | [-> H]].
  - lra.
  - rewrite inject_Z_plus. change (inject_Z 1) with 1. lra.
Qed.

Lemma round_half_even_Z (z : Z) : round_half_even (inject_Z z) = z.
Proof.
  unfold round_half_even. rewrite Qfloor_Z.
  destruct (Qcompare_spec (inject_Z z - inject_Z z) (1 # 2)) as [E | L | G];
    trivial; exfalso; lra.
Qed.

Lemma round_half_even_mono (p q : Q) :
  p <= q -> (round_half_even p <= round_half_even q)%Z.
Proof.
  intros Hpq.
  pose proof (Qfloor_resp_le _ _ Hpq) as Hfl.
  destruct (Z.eq_dec (Qfloor p) (Qfloor q)) as [E | NE].
  - unfold round_half_even. rewrite E.
    destruct (Qcompare_spec (p - inject_Z (Qfloor q)) (1 # 2)) as [Ep | Lp | Gp];
      destruct (Qcompare_spec (q - inject_Z (Qfloor q)) (1 # 2)) as [Eq | Lq | Gq];
      try lia; try (exfalso; lra);
      destruct (Z.even (Qfloor q)); lia.
  - destruct (round_half_even_cases p) as [[-> _] | [-> _]];
      destruct (round_half_even_cases q) as [[-> _] | [-> _]]; lia.
Qed.

Lemma round2_comp (p q : Q) : p == q -> round2 p == round2 q.
Proof.
  intros E. unfold round2.
  rewrite (round_half_even_comp (p * 100) (q * 100)); [reflexivity|].
  rewrite E. reflexivity.
Qed.

(** Rounding to two decimals moves a value by at most half a hundredth. *)
Lemma round2_near (q : Q) : Qabs (round2 q - q) <= 1 # 200.
Proof.
  apply Qabs_Qle_condition. unfold round2.
  pose proof (round_half_even_near (q * 100)) as H.
  split; apply Qmult_le_r with (z := 100); try reflexivity; field_simplify; lra.
Qed.

Lemma round2_mono (p q : Q) : p <= q -> round2 p <= round2 q.
Proof.
  intros H. unfold round2.
  assert (Hm : p * 100 <= q * 100) by lra.
  apply round_half_even_mono in Hm. rewrite Zle_Qle in Hm.
  apply Qmult_le_r with (z := 100); [reflexivity|]. field_simplify. lra.
Qed.

Lemma round2_idempotent (q : Q) : round2 (round2 q) == round2 q.
Proof.
  unfold round2 at 1.
  rewrite (round_half_even_comp _ (inject_Z (round_half_even (q * 100)))).
  - rewrite round_half_even_Z. reflexivity.
  - unfold round2. field.
Qed.

Lemma round2_nonneg (q : Q) : 0 <= q -> 0 <= round2 q.
Proof.
  intros H. apply round2_mono in H.
  assert (Z0 : round2 0 == 0) by reflexivity.
  lra.
Qed.

End Rounding.

(** ** Floats *)

Lemma pow2_pos (e : Z) : (0 < pow2 e)%Q.
Proof. apply Qpower_0_lt. reflexivity. Qed.

Lemma pow2_plus (a b : Z) : (pow2 (a + b) == pow2 a * pow2 b)%Q.
Proof. apply Qpower_plus. discriminate. Qed.

Lemma pow2_minus (a b : Z) : (pow2 (a - b) == pow2 a / pow2 b)%Q.
Proof. apply Qpower_minus. discriminate. Qed.

Lemma pow2_le (a b : Z) : a <= b -> (pow2 a <= pow2 b)%Q.
Proof. intros H. apply Qpower_le_compat_l; [exact H | discriminate]. Qed.

Lemma pow2_lt (a b : Z) : a < b -> (pow2 a < pow2 b)%Q.
Proof. intros H. apply Qpower_lt_compat_l; [exact H | reflexivity]. Qed.

Lemma pow2_Z (n : Z) : 0 <= n -> (pow2 n == inject_Z (2 ^ n))%Q.
Proof. intros H. unfold pow2. now rewrite Zpower_Qpower. Qed.

Lemma pow2_succ (e : Z) : (pow2 (e + 1) == 2 * pow2 e)%Q.
Proof. rewrite pow2_plus. change (pow2 1) with 2%Q. ring. Qed.

Lemma inject_Z_pos (z : Z) : 0 < z -> (0 < inject_Z z)%Q.
Proof. intros H. unfold Qlt. simpl. lia. Qed.

Lemma binade_of_spec (q : Q) :
  (0 < q)%Q -> (pow2 (binade_of q) <= q /\ q < pow2 (binade_of q + 1))%Q.
Proof.
  intros Hq. destruct q as [n d]. unfold binade_of.
  change (Qnum (n # d)) with n. change (Qden (n # d)) with d.
  assert (Hn : 0 < n) by (unfold Qlt in Hq; simpl in Hq; lia).
  destruct (Z.log2_spec n Hn) as [Ha1 Ha2].
  destruct (Z.log2_spec (Z.pos d) eq_refl) as [Hb1 Hb2].
  set (a := Z.log2 n) in *. set (b := Z.log2 (Z.pos d)) in *.
  assert (Ha0 : 0 <= a) by apply Z.log2_nonneg.
  assert (Hb0 : 0 <= b) by apply Z.log2_nonneg.
  assert (Hpa : 0 < 2 ^ a) by (apply Z.pow_pos_nonneg; lia).
  assert (Hpb : 0 < 2 ^ b) by (apply Z.pow_pos_nonneg; lia).
  rewrite Z.pow_succ_r in Ha2, Hb2 by assumption.
  assert (E : forall k, (pow2 (a - b + k) == inject_Z (2 ^ a) / inject_Z (2 ^ b) * pow2 k)%Q).
  { intros k. rewrite pow2_plus, pow2_minus, !pow2_Z by assumption. reflexivity. }
  assert (Hq' : (n # d == inject_Z n / inject_Z (Z.pos d))%Q) by apply Qmake_Qdiv.
  assert (Hd : (0 < inject_Z (Z.pos d))%Q) by (apply inject_Z_pos; lia).
  assert (HB : (0 < inject_Z (2 ^ b))%Q) by (apply inject_Z_pos; lia).
  assert (Hup : (n # d < pow2 (a - b + 1))%Q).
  { rewrite E, Hq'. change (pow2 1) with 2%Q.
    apply Qlt_shift_div_r; [exact Hd|].
    unfold Qdiv. rewrite <- !Qmult_assoc, (Qmult_comm (/ inject_Z (2 ^ b))), !Qmult_assoc.
    apply Qlt_shift_div_l; [exact HB|].
    rewrite <- !inject_Z_mult. change 2%Q with (inject_Z 2).
    rewrite <- !inject_Z_mult. rewrite <- Zlt_Qlt. nia. }
  assert (Hlow : (pow2 (a - b - 1) < n # d)%Q).
  { replace (a - b - 1) with (a - b + -1) by lia.
    rewrite E, Hq'. change (pow2 (-1)) with (1 # 2)%Q.
    apply Qlt_shift_div_l; [exact Hd|].
    unfold Qdiv. rewrite <- !Qmult_assoc, (Qmult_comm (/ inject_Z (2 ^ b))), !Qmult_assoc.
    apply Qlt_shift_div_r; [exact HB|].
    setoid_replace (inject_Z (2 ^ a) * (1 # 2) * inject_Z (Z.pos d))%Q
      with (inject_Z (2 ^ a * Z.pos d) * (1 # 2))%Q using relation Qeq
      by (rewrite inject_Z_mult; ring).
    rewrite <- inject_Z_mult.
    apply Qmult_lt_r with (z := 2%Q); [reflexivity|].
    setoid_replace (inject_Z (2 ^ a * Z.pos d) * (1 # 2) * 2)%Q
      with (inject_Z (2 ^ a * Z.pos d)) using relation Qeq by ring.
    change 2%Q with (inject_Z 2). rewrite <- inject_Z_mult, <- Zlt_Qlt. nia. }
  destruct (Qle_bool (pow2 (a - b)) (n # d)) eqn:Hc.
  - apply Qle_bool_iff in Hc. split; [exact Hc | exact Hup].
  - split; [now apply Qlt_le_weak|].
    replace (a - b - 1 + 1) with (a - b) by lia.
    apply Qnot_le_lt. intros H. apply Qle_bool_iff in H. congruence.
Qed.

Lemma binade_spec (q : Q) :
  (0 < q)%Q -> (pow2 (binade q) <= q /\ q < pow2 (binade q + 1))%Q.
Proof.
  intros Hq. assert (Er : (Qred q == q)%Q) by apply Qred_correct.
  rewrite <- Er in Hq. destruct (binade_of_spec _ Hq) as [H1 H2].
  unfold binade. set (b := binade_of (Qred q)) in *.
  rewrite Er in H1, H2. split; assumption.
Qed.

Lemma binade_unique (q : Q) (e : Z) :
  (pow2 e <= q)%Q -> (q < pow2 (e + 1))%Q -> binade q = e.
Proof.
  intros H1 H2.
  assert (Hq : (0 < q)%Q) by (pose proof (pow2_pos e); lra).
  destruct (binade_spec q Hq) as [B1 B2].
  destruct (Z_lt_le_dec (binade q) e) as [Hlt | Hge].
  - assert (Hp : (pow2 (binade q + 1) <= pow2 e)%Q) by (apply pow2_le; lia). lra.
  - destruct (Z_lt_le_dec e (binade q)) as [Hlt' | Hle]; [| lia].
    assert (Hp : (pow2 (e + 1) <= pow2 (binade q))%Q) by (apply pow2_le; lia). lra.
Qed.

Lemma binade_mono (p q : Q) : (0 < p)%Q -> (p <= q)%Q -> binade p <= binade q.
Proof.
  intros Hp Hpq.
  destruct (binade_spec p Hp) as [P1 P2].
  destruct (binade_spec q) as [Q1 Q2]; [lra|].
  destruct (Z_lt_le_dec (binade q) (binade p)) as [Hlt | Hle]; [| exact Hle].
  assert (H : (pow2 (binade q + 1) <= pow2 (binade p))%Q) by (apply pow2_le; lia).
  lra.
Qed.

Lemma binade_comp (p q : Q) : (p == q)%Q -> binade p = binade q.
Proof. intros E. unfold binade. now rewrite (Qred_complete _ _ E). Qed.

(** ** Rounding to binary64 *)

Lemma round_binary64_eq (q : Q) :
  (round_binary64 q ==
   inject_Z (round_half_even (q / pow2 (ulp_exponent q))) *
   pow2 (ulp_exponent q))%Q.
Proof. unfold round_binary64. apply Qred_correct. Qed.

Lemma ulp_exponent_comp (p q : Q) : (p == q)%Q -> ulp_exponent p = ulp_exponent q.
Proof.
  intros E. unfold ulp_exponent. rewrite (binade_comp (Qabs p) (Qabs q)); trivial.
  now rewrite E.
Qed.

Lemma round_binary64_comp (p q : Q) :
  (p == q)%Q -> round_binary64 p = round_binary64 q.
Proof.
  intros E. unfold round_binary64. rewrite (ulp_exponent_comp p q E).
  rewrite (round_half_even_comp (p / pow2 (ulp_exponent q))
             (q / pow2 (ulp_exponent q))); [reflexivity|].
  now rewrite E.
Qed.

(** A value on the grid of [q] bounds the rounded [q] as it bounds [q]. *)
Lemma round_binary64_le_grid (q : Q) (k : Z) :
  (q <= inject_Z k * pow2 (ulp_exponent q))%Q ->
  (round_binary64 q <= inject_Z k * pow2 (ulp_exponent q))%Q.
Proof.
  intros H. rewrite round_binary64_eq.
  pose proof (pow2_pos (ulp_exponent q)) as Hu.
  apply Qmult_le_compat_r; [| now apply Qlt_le_weak].
  rewrite <- Zle_Qle. rewrite <- (round_half_even_Z k).
  apply round_half_even_mono. now apply Qle_shift_div_r.
Qed.

Lemma round_binary64_ge_grid (q : Q) (k : Z) :
  (inject_Z k * pow2 (ulp_exponent q) <= q)%Q ->
  (inject_Z k * pow2 (ulp_exponent q) <= round_binary64 q)%Q.
Proof.
  intros H. rewrite round_binary64_eq.
  pose proof (pow2_pos (ulp_exponent q)) as Hu.
  apply Qmult_le_compat_r; [| now apply Qlt_le_weak].
  rewrite <- Zle_Qle. rewrite <- (round_half_even_Z k) at 1.
  apply round_half_even_mono. now apply Qle_shift_div_l.
Qed.

Lemma round_binary64_nonneg (q : Q) : (0 <= q)%Q -> (0 <= round_binary64 q)%Q.
Proof.
  intros H. pose proof (round_binary64_ge_grid q 0) as G.
  rewrite Qmult_0_l in G. now apply G.
Qed.

Lemma round_binary64_nonpos (q : Q) : (q <= 0)%Q -> (round_binary64 q <= 0)%Q.
Proof.
  intros H. pose proof (round_binary64_le_grid q 0) as G.
  rewrite Qmult_0_l in G. now apply G.
Qed.

Lemma ulp_exponent_mono (p q : Q) :
  (0 < Qabs p)%Q -> (Qabs p <= Qabs q)%Q -> ulp_exponent p <= ulp_exponent q.
Proof.
  intros Hp Hpq. unfold ulp_exponent.
  pose proof (binade_mono _ _ Hp Hpq). lia.
Qed.

(** Between two values of different exponents lies the power of two at
    which the larger exponent starts. *)
Lemma round_binary64_binades (p q : Q) :
  (0 < p)%Q -> (p <= q)%Q -> ulp_exponent p < ulp_exponent q ->
  (round_binary64 p <= pow2 (ulp_exponent p + 53) /\
   pow2 (ulp_exponent p + 53) <= pow2 (binade q) /\
   pow2 (binade q) <= round_binary64 q)%Q.
Proof.
  intros Hp Hpq He.
  assert (Hq : (0 < q)%Q) by lra.
  assert (Ap : (Qabs p == p)%Q) by (apply Qabs_pos; lra).
  assert (Aq : (Qabs q == q)%Q) by (apply Qabs_pos; lra).
  unfold ulp_exponent in He |- *.
  rewrite (binade_comp _ _ Ap) in *. rewrite (binade_comp _ _ Aq) in *.
  destruct (binade_spec p Hp) as [P1 P2]. destruct (binade_spec q Hq) as [Q1 Q2].
  set (bp := binade p) in *. set (bq := binade q) in *.
  assert (Ebq : Z.max bq (-1022) = bq) by lia.
  split; [| split].
  - assert (G : (pow2 (Z.max bp (-1022) - 52 + 53) ==
                 inject_Z (2 ^ 53) * pow2 (ulp_exponent p))%Q).
    { unfold ulp_exponent. rewrite (binade_comp _ _ Ap). fold bp.
      rewrite pow2_plus, (pow2_Z 53) by lia. ring. }
    rewrite G. apply round_binary64_le_grid. rewrite <- G.
    apply Qlt_le_weak. eapply Qlt_le_trans; [exact P2|]. apply pow2_le. lia.
  - apply pow2_le. lia.
  - assert (G : (pow2 bq == inject_Z (2 ^ 52) * pow2 (ulp_exponent q))%Q).
    { unfold ulp_exponent. rewrite (binade_comp _ _ Aq). fold bq. rewrite Ebq.
      rewrite <- (pow2_Z 52), <- pow2_plus by lia. apply Qpower_comp; [reflexivity | lia]. }
    rewrite G. apply round_binary64_ge_grid. now rewrite <- G.
Qed.

Lemma ulp_exponent_opp (q : Q) : ulp_exponent (- q) = ulp_exponent q.
Proof.
  unfold ulp_exponent. rewrite (binade_comp (Qabs (- q)) (Qabs q)); trivial.
  apply Qabs_opp.
Qed.

Lemma round_binary64_binades_neg (p q : Q) :
  (q < 0)%Q -> (p <= q)%Q -> ulp_exponent q < ulp_exponent p ->
  (round_binary64 p <= - pow2 (binade (- p)) /\
   - pow2 (binade (- p)) <= - pow2 (ulp_exponent q + 53) /\
   - pow2 (ulp_exponent q + 53) <= round_binary64 q)%Q.
Proof.
  intros Hq Hpq He.
  assert (Hp : (p < 0)%Q) by lra.
  assert (Ap : (Qabs p == - p)%Q) by (apply Qabs_neg; lra).
  assert (Aq : (Qabs q == - q)%Q) by (apply Qabs_neg; lra).
  unfold ulp_exponent in He |- *.
  rewrite (binade_comp _ _ Ap) in *. rewrite (binade_comp _ _ Aq) in *.
  destruct (binade_spec (- p)) as [P1 P2]; [lra|].
  destruct (binade_spec (- q)) as [Q1 Q2]; [lra|].
  set (bp := binade (- p)) in *. set (bq := binade (- q)) in *.
  assert (Ebp : Z.max bp (-1022) = bp) by lia.
  split; [| split].
  - assert (G : (- pow2 bp == inject_Z (- 2 ^ 52) * pow2 (ulp_exponent p))%Q).
    { unfold ulp_exponent. rewrite (binade_comp _ _ Ap). fold bp. rewrite Ebp.
      rewrite inject_Z_opp, <- (pow2_Z 52) by lia.
      setoid_replace (- pow2 52 * pow2 (bp - 52))%Q
        with (- (pow2 52 * pow2 (bp - 52)))%Q using relation Qeq by ring.
      rewrite <- pow2_plus. apply Qopp_comp, Qpower_comp; [reflexivity | lia]. }
    rewrite G. apply round_binary64_le_grid. rewrite <- G. lra.
  - apply Qopp_le_compat. apply pow2_le. lia.
  - assert (G : (- pow2 (Z.max bq (-1022) - 52 + 53) ==
                 inject_Z (- 2 ^ 53) * pow2 (ulp_exponent q))%Q).
    { unfold ulp_exponent. rewrite (binade_comp _ _ Aq). fold bq.
      rewrite inject_Z_opp, pow2_plus, (pow2_Z 53) by lia. ring. }
    rewrite G. apply round_binary64_ge_grid. rewrite <- G.
    assert (Hb : (pow2 (bq + 1) <= pow2 (Z.max bq (-1022) - 52 + 53))%Q)
      by (apply pow2_le; lia).
    lra.
Qed.

(** Rounding to nearest keeps the order. *)
Lemma round_binary64_mono (p q : Q) :
  (p <= q)%Q -> (round_binary64 p <= round_binary64 q)%Q.
Proof.
  intros Hpq.
  destruct (Qlt_le_dec 0 p) as [Hp | Hp].
  - (* 0 < p <= q *)
    assert (He : ulp_exponent p <= ulp_exponent q).
    { apply ulp_exponent_mono.
      - rewrite Qabs_pos; lra.
      - rewrite !Qabs_pos; lra. }
    destruct (Z.eq_dec (ulp_exponent p) (ulp_exponent q)) as [E | NE].
    + rewrite !round_binary64_eq, E.
      pose proof (pow2_pos (ulp_exponent q)) as Hu.
      apply Qmult_le_compat_r; [| now apply Qlt_le_weak].
      rewrite <- Zle_Qle. apply round_half_even_mono.
      apply Qmult_le_compat_r; [exact Hpq|].
      apply Qlt_le_weak, Qinv_lt_0_compat, Hu.
    + destruct (round_binary64_binades p q Hp Hpq) as (H1 & H2 & H3); [lia|].
      lra.
  - destruct (Qlt_le_dec q 0) as [Hq | Hq].
    + (* p <= q < 0 *)
      assert (He : ulp_exponent q <= ulp_exponent p).
      { apply ulp_exponent_mono.
        - rewrite Qabs_neg; lra.
        - rewrite !Qabs_neg; lra. }
      destruct (Z.eq_dec (ulp_exponent p) (ulp_exponent q)) as [E | NE].
      * rewrite !round_binary64_eq, E.
        pose proof (pow2_pos (ulp_exponent q)) as Hu.
        apply Qmult_le_compat_r; [| now apply Qlt_le_weak].
        rewrite <- Zle_Qle. apply round_half_even_mono.
        apply Qmult_le_compat_r; [exact Hpq|].
        apply Qlt_le_weak, Qinv_lt_0_compat, Hu.
      * destruct (round_binary64_binades_neg p q Hq Hpq) as (H1 & H2 & H3); [lia|].
        lra.
    + (* p <= 0 <= q *)
      pose proof (round_binary64_nonpos p Hp).
      pose proof (round_binary64_nonneg q Hq). lra.
Qed.

(** ** The sparkline *)

Lemma bind_Ok {A B : Type} (a : A) (k : A -> outcome B) : (x ← Ok a; k x) = k a.
Proof. reflexivity. Qed.

Lemma bind_Raise {A B : Type} (e : exn) (k : A -> outcome B) :
  (x ← Raise e; k x) = Raise e.
Proof. reflexivity. Qed.

Lemma py_int_nonneg (q : Q) : (0 <= q)%Q -> py_int q = Qfloor q.
Proof.
  destruct q as [n d]. unfold Qle, py_int, Qfloor. simpl. intros H.
  apply Z.quot_div_nonneg; lia.
Qed.

Lemma py_int_nonpos (q : Q) : (q <= 0)%Q -> py_int q = Qceiling q.
Proof.
  destruct q as [n d]. unfold Qle, py_int, Qceiling, Qfloor. simpl. intros H.
  replace n with (- (- n)) at 1 by lia.
  rewrite Z.quot_opp_l by lia. rewrite Z.quot_div_nonneg by lia. reflexivity.
Qed.

Lemma py_int_mono (p q : Q) : (p <= q)%Q -> py_int p <= py_int q.
Proof.
  intros Hpq. destruct (Qlt_le_dec p 0) as [Hp | Hp].
  - destruct (Qlt_le_dec q 0) as [Hq | Hq].
    + rewrite !py_int_nonpos by lra. now apply Qceiling_resp_le.
    + rewrite (py_int_nonpos p), (py_int_nonneg q) by lra.
      assert (H1 : (p <= 0)%Q) by lra.
      apply Qceiling_resp_le in H1. apply Qfloor_resp_le in Hq.
      change (Qceiling 0) with 0 in H1. change (Qfloor 0) with 0 in Hq. lia.
  - rewrite !py_int_nonneg by lra. now apply Qfloor_resp_le.
Qed.

Lemma py_index_bars (i : Z) :
  0 <= i <= 7 -> py_index bars i = Ok (0x2581 + i).
Proof.
  intros H.
  assert (C : i = 0 \/ i = 1 \/ i = 2 \/ i = 3 \/ i = 4 \/ i = 5 \/ i = 6 \/ i = 7)
    by lia.
  repeat (destruct C as [-> | C]; [reflexivity|]). subst i. reflexivity.
Qed.

Lemma py_index_bars_ok (i : Z) :
  is_ok (py_index bars i) = true <-> -8 <= i <= 7.
Proof.
  destruct (Z_le_dec 0 i) as [H0 | H0].
  - destruct (Z_le_dec i 7) as [H7 | H7].
    + rewrite py_index_bars by lia. simpl. split; [lia | reflexivity].
    + unfold py_index. change (Z.of_nat (length bars)) with 8.
      replace (i <? 0) with false by (symmetry; apply Z.ltb_ge; lia).
      replace (i <? 8) with false by (symmetry; apply Z.ltb_ge; lia).
      rewrite andb_false_r. simpl. split; [discriminate | lia].
  - destruct (Z_le_dec (-8) i) as [H8 | H8].
    + assert (C : i = -8 \/ i = -7 \/ i = -6 \/ i = -5 \/ i = -4 \/ i = -3 \/
                  i = -2 \/ i = -1) by lia.
      repeat (destruct C as [-> | C]; [simpl; split; [lia | reflexivity]|]).
      subst i. simpl. split; [lia | reflexivity].
    + unfold py_index. change (Z.of_nat (length bars)) with 8.
      replace (i <? 0) with true by (symmetry; apply Z.ltb_lt; lia).
      replace (0 <=? i + 8) with false by (symmetry; apply Z.leb_gt; lia).
      simpl. split; [discriminate | lia].
Qed.

Lemma py_index_raises {A : Type} (s : list A) (i : Z) (e : exn) :
  py_index s i = Raise e -> e = IndexError.
Proof.
  unfold py_index.
  repeat match goal with
         | |- context [if ?b then _ else _] => destruct b
         | |- context [match ?o with Some _ => _ | None => _ end] => destruct o
         end; congruence.
Qed.

Lemma py_index_bars_off (i : Z) :
  i <= -9 \/ 8 <= i -> py_index bars i = Raise IndexError.
Proof.
  intros Hoff. destruct (py_index bars i) as [g | e] eqn:Hi.
  - assert (Hok : is_ok (py_index bars i) = true) by now rewrite Hi.
    apply py_index_bars_ok in Hok. lia.
  - now rewrite (py_index_raises _ _ _ Hi).
Qed.

(** *** Results that stay finite *)

Lemma to_float_cases (q : Q) :
  to_float q = Finite (round_binary64 q) \/ exists s, to_float q = Infinity s.
Proof.
  unfold to_float.
  destruct (Qle_bool (pow2 1024) (Qabs (round_binary64 q))); eauto.
Qed.

Lemma to_float_finite (q : Q) :
  (Qabs (round_binary64 q) < pow2 1024)%Q ->
  to_float q = Finite (round_binary64 q).
Proof.
  intros H. unfold to_float.
  destruct (Qle_bool (pow2 1024) (Qabs (round_binary64 q))) eqn:Hc;
    [| reflexivity].
  apply Qle_bool_iff in Hc. lra.
Qed.

Lemma to_float_infinite (q : Q) :
  (pow2 1024 <= Qabs (round_binary64 q))%Q ->
  exists s, to_float q = Infinity s.
Proof.
  intros H. unfold to_float. apply Qle_bool_iff in H. rewrite H. eauto.
Qed.

Lemma pow2_1024_large (b : Z) : b < 2 ^ 53 -> (inject_Z b < pow2 1024)%Q.
Proof.
  intros Hb. apply Qlt_le_trans with (y := pow2 53).
  - rewrite (pow2_Z 53) by lia. rewrite <- Zlt_Qlt. exact Hb.
  - apply pow2_le. lia.
Qed.

(** *** Integers *)

Lemma round_binary64_grid (q : Q) (m : Z) :
  (q == inject_Z m * pow2 (ulp_exponent q))%Q -> (round_binary64 q == q)%Q.
Proof.
  intros E. rewrite round_binary64_eq.
  assert (Hm : (q / pow2 (ulp_exponent q) == inject_Z m)%Q).
  { rewrite E at 1. field. pose proof (pow2_pos (ulp_exponent q)). lra. }
  rewrite (round_half_even_comp _ _ Hm), round_half_even_Z. now symmetry.
Qed.

Lemma round_binary64_pos_Z (k : Z) :
  0 < k < 2 ^ 53 -> (round_binary64 (inject_Z k) == inject_Z k)%Q.
Proof.
  intros Hk.
  assert (Hq : (0 < inject_Z k)%Q) by (apply inject_Z_pos; lia).
  destruct (binade_spec _ Hq) as [B1 B2].
  set (b := binade (inject_Z k)) in *.
  assert (Hb0 : 0 <= b).
  { destruct (Z_lt_le_dec b 0) as [Hneg | Hok]; [| exact Hok].
    assert (Hp : (pow2 (b + 1) <= pow2 0)%Q) by (apply pow2_le; lia).
    change (pow2 0) with 1%Q in Hp.
    assert (H1 : (1 <= inject_Z k)%Q)
      by (change 1%Q with (inject_Z 1); rewrite <- Zle_Qle; lia).
    lra. }
  assert (Hb52 : b <= 52).
  { destruct (Z_lt_le_dec 52 b) as [Hbig | Hok]; [| exact Hok].
    assert (Hp : (pow2 53 <= pow2 b)%Q) by (apply pow2_le; lia).
    rewrite (pow2_Z 53) in Hp by lia.
    assert (H1 : (inject_Z k < inject_Z (2 ^ 53))%Q) by (rewrite <- Zlt_Qlt; lia).
    lra. }
  assert (Ee : ulp_exponent (inject_Z k) = b - 52).
  { unfold ulp_exponent.
    rewrite (binade_comp (Qabs (inject_Z k)) (inject_Z k))
      by (apply Qabs_pos; lra).
    fold b. lia. }
  apply (round_binary64_grid _ (k * 2 ^ (52 - b))). rewrite Ee.
  rewrite inject_Z_mult, <- (pow2_Z (52 - b)) by lia.
  rewrite <- Qmult_assoc, <- pow2_plus.
  replace (52 - b + (b - 52)) with 0 by lia. change (pow2 0) with 1%Q. ring.
Qed.

Lemma round_binary64_Z (k : Z) :
  - 2 ^ 53 < k < 2 ^ 53 -> (round_binary64 (inject_Z k) == inject_Z k)%Q.
Proof.
  intros Hk. destruct (Z.lt_trichotomy k 0) as [Hneg | [-> | Hpos]].
  - assert (Hq : (0 < inject_Z (- k))%Q) by (apply inject_Z_pos; lia).
    { pose proof (round_binary64_pos_Z (- k) ltac:(lia)) as Hg.
      rewrite round_binary64_eq in Hg |- *.
      assert (Ee : ulp_exponent (inject_Z k) = ulp_exponent (inject_Z (- k))).
      { rewrite inject_Z_opp. symmetry. apply ulp_exponent_opp. }
      rewrite Ee. set (u := pow2 (ulp_exponent (inject_Z (- k)))) in *.
      assert (Hu : (0 < u)%Q) by apply pow2_pos.
      assert (Hm : (inject_Z (- k) / u ==
                    inject_Z (round_half_even (inject_Z (- k) / u)))%Q).
      { rewrite <- Hg at 1. field. lra. }
      assert (Hk' : (inject_Z k / u ==
                     inject_Z (- round_half_even (inject_Z (- k) / u)))%Q).
      { rewrite inject_Z_opp, <- Hm, inject_Z_opp. field. lra. }
      rewrite (round_half_even_comp _ _ Hk'), round_half_even_Z.
      rewrite <- Hk'. field. lra. }
  - reflexivity.
  - apply round_binary64_pos_Z. lia.
Qed.

Lemma to_float_between (b : Z) (q : Q) :
  0 <= b < 2 ^ 53 ->
  (- inject_Z b <= q <= inject_Z b)%Q ->
  to_float q = Finite (round_binary64 q) /\
  (- inject_Z b <= round_binary64 q <= inject_Z b)%Q.
Proof.
  intros Hb [H1 H2].
  apply round_binary64_mono in H1, H2.
  rewrite <- inject_Z_opp in H1.
  rewrite round_binary64_Z in H1, H2 by lia.
  rewrite inject_Z_opp in H1.
  split; [| split; assumption].
  apply to_float_finite. pose proof (pow2_1024_large b ltac:(lia)).
  apply Qabs_case; intros _; lra.
Qed.

Lemma to_float_7 : to_float (inject_Z (Z.of_nat (length bars) - 1)) = Finite 7.
Proof. vm_compute. reflexivity. Qed.

Lemma to_float_100 : to_float 100 = Finite 100.
Proof. vm_compute. reflexivity. Qed.

Lemma sparkline_index_finite (value : Q) :
  (- 256 <= value <= 256)%Q ->
  sparkline_index (Finite value) = Ok (py_int (scaled value)).
Proof.
  intros Hv. unfold sparkline_index, scaled.
  rewrite to_float_7, to_float_100. unfold float_mul.
  destruct (to_float_between 1792 (value * 7)) as [Em Hm]; [lia | |].
  { change (inject_Z 1792) with 1792%Q. lra. }
  rewrite Em. unfold float_div. change (Qeq_bool 100 0) with false. cbv iota.
  change (inject_Z 1792) with 1792%Q in Hm.
  destruct (to_float_between 18 (round_binary64 (value * 7) / 100))
    as [Ed Hd]; [lia | |].
  { change (inject_Z 18) with 18%Q.
    split; apply Qmult_le_r with (z := 100%Q); try reflexivity;
      field_simplify; lra. }
  rewrite Ed. reflexivity.
Qed.

Lemma scaled_mono (low high : Q) :
  (low <= high)%Q -> (scaled low <= scaled high)%Q.
Proof.
  intros H. unfold scaled. apply round_binary64_mono.
  apply Qmult_le_compat_r; [| discriminate].
  apply round_binary64_mono. lra.
Qed.

Lemma py_int_le_iff (q : Q) (k : Z) :
  0 <= k -> (py_int q <= k <-> (q < inject_Z (k + 1))%Q).
Proof.
  intros Hk. destruct q as [n d]. unfold py_int, Qlt. simpl.
  destruct (Z_lt_le_dec n 0) as [Hneg | Hpos].
  - assert (Hq : n ÷ Z.pos d <= 0).
    { replace n with (- (- n)) by lia. rewrite Z.quot_opp_l by lia.
      assert (0 <= - n ÷ Z.pos d) by (apply Z.quot_pos; lia). lia. }
    split; intros _; [nia | lia].
  - rewrite Z.quot_div_nonneg by lia. split; intros H.
    + pose proof (Z.mul_succ_div_gt n (Z.pos d)). nia.
    + assert (Hlt : n / Z.pos d < k + 1); [| lia].
      apply Z.div_lt_upper_bound; lia.
Qed.

Lemma py_int_ge_iff (q : Q) (k : Z) :
  k <= 0 -> (k <= py_int q <-> (inject_Z (k - 1) < q)%Q).
Proof.
  intros Hk. destruct q as [n d]. unfold py_int, Qlt. simpl.
  destruct (Z_lt_le_dec n 0) as [Hneg | Hpos].
  - replace n with (- (- n)) at 1 by lia.
    rewrite Z.quot_opp_l by lia. rewrite Z.quot_div_nonneg by lia.
    split; intros H.
    + pose proof (Z.mul_succ_div_gt (- n) (Z.pos d)). nia.
    + assert (Hlt : - n / Z.pos d < - k + 1); [| lia].
      apply Z.div_lt_upper_bound; lia.
  - assert (Hq : 0 <= n ÷ Z.pos d) by (apply Z.quot_pos; lia).
    split; intros _; [nia | lia].
Qed.

(** *** The ends of the scale *)

Lemma scaled_glyph_max : (scaled glyph_max < 8)%Q.
Proof. vm_compute. reflexivity. Qed.

Lemma scaled_glyph_max_next : (8 <= scaled glyph_max_next)%Q.
Proof. vm_compute. discriminate. Qed.

Lemma scaled_glyph_min : (- 9 < scaled glyph_min)%Q.
Proof. vm_compute. reflexivity. Qed.

Lemma scaled_glyph_min_prev : (scaled glyph_min_prev <= - 9)%Q.
Proof. vm_compute. discriminate. Qed.

Lemma scaled_0 : (scaled 0 == 0)%Q.
Proof. vm_compute. reflexivity. Qed.

Lemma glyph_bounds :
  (- 256 <= glyph_min_prev /\ glyph_min_prev < glyph_min /\ glyph_min < 0 /\
   100 < glyph_max /\ glyph_max < glyph_max_next /\ glyph_max_next <= 256)%Q.
Proof. vm_compute. repeat split; discriminate. Qed.

Lemma sparkline_index_on_scale (value : Q) :
  (glyph_min <= value <= glyph_max)%Q ->
  sparkline_index (Finite value) = Ok (py_int (scaled value)) /\
  - 8 <= py_int (scaled value) <= 7.
Proof.
  intros [Hlo Hhi]. pose proof glyph_bounds as B.
  split; [apply sparkline_index_finite; lra|].
  pose proof (scaled_mono _ _ Hlo). pose proof (scaled_mono _ _ Hhi).
  pose proof scaled_glyph_min. pose proof scaled_glyph_max.
  split.
  - apply py_int_ge_iff; [lia|]. change (inject_Z (-8 - 1)) with (- 9)%Q. lra.
  - apply py_int_le_iff; [lia|]. change (inject_Z (7 + 1)) with 8%Q. lra.
Qed.

Lemma text_sparkline_on_scale (value : Q) :
  (glyph_min <= value <= glyph_max)%Q ->
  is_ok (text_sparkline (Finite value)) = true.
Proof.
  intros H. destruct (sparkline_index_on_scale value H) as [E Hi].
  unfold text_sparkline. rewrite E, bind_Ok. now apply py_index_bars_ok.
Qed.

(** *** Beyond the scale *)

Lemma text_sparkline_infinity (s : bool) :
  text_sparkline (Infinity s) = Raise OverflowError.
Proof.
  unfold text_sparkline, sparkline_index. rewrite to_float_7, to_float_100.
  reflexivity.
Qed.

(** Off the scale the call ends in one of two ways: the index is off
    [bars], or the scaled value is infinite. *)
Lemma text_sparkline_off_scale (value : Q) :
  (value <= glyph_min_prev \/ glyph_max_next <= value)%Q ->
  (exists d, sparkline_index (Finite value) = Ok (py_int d) /\
             (d <= - 9 \/ 8 <= d)%Q /\
             text_sparkline (Finite value) = Raise IndexError) \/
  (sparkline_index (Finite value) = Raise OverflowError /\
   text_sparkline (Finite value) = Raise OverflowError).
Proof.
  intros Hoff.
  assert (Hd : (scaled value <= - 9 \/ 8 <= scaled value)%Q).
  { destruct Hoff as [Hlow | Hhigh].
    - left. apply scaled_mono in Hlow. pose proof scaled_glyph_min_prev. lra.
    - right. apply scaled_mono in Hhigh. pose proof scaled_glyph_max_next. lra. }
  assert (Hindex : sparkline_index (Finite value) = Ok (py_int (scaled value)) \/
                   sparkline_index (Finite value) = Raise OverflowError).
  { unfold sparkline_index, scaled.
    rewrite to_float_7, to_float_100. unfold float_mul.
    destruct (to_float_cases (value * 7)) as [Em | [s Em]]; rewrite Em;
      [| right; reflexivity].
    unfold float_div. change (Qeq_bool 100 0) with false. cbv iota.
    destruct (to_float_cases (round_binary64 (value * 7) / 100))
      as [Ed | [s Ed]]; rewrite Ed; [left | right]; reflexivity. }
  unfold text_sparkline.
  destruct Hindex as [-> | ->]; [left | right; split; reflexivity].
  exists (scaled value). split; [reflexivity|]. split; [exact Hd|].
  rewrite bind_Ok. apply py_index_bars_off.
  destruct Hd as [Hd | Hd]; [left | right]; apply py_int_mono in Hd; exact Hd.
Qed.

Lemma text_sparkline_off_scale_fails (value : Q) :
  (value <= glyph_min_prev \/ glyph_max_next <= value)%Q ->
  is_ok (text_sparkline (Finite value)) = false.
Proof.
  intros H. destruct (text_sparkline_off_scale value H)
    as [(d & _ & _ & ->) | [_ ->]]; reflexivity.
Qed.

(** *** The floats next to the ends of the scale *)

Lemma is_binary64_grid (value : Q) :
  is_binary64 value ->
  exists m, (value == inject_Z m * pow2 (ulp_exponent value))%Q.
Proof.
  unfold is_binary64, to_float. intros H.
  destruct (Qle_bool (pow2 1024) (Qabs (round_binary64 value)));
    [discriminate|].
  injection H as H.
  exists (round_half_even (value / pow2 (ulp_exponent value))).
  rewrite <- round_binary64_eq, H. symmetry. apply Qred_correct.
Qed.

Lemma no_float_between (value : Q) (e k : Z) :
  is_binary64 value -> ulp_exponent value = e ->
  (inject_Z k * pow2 e < value)%Q -> (value < inject_Z (k + 1) * pow2 e)%Q ->
  False.
Proof.
  intros Hb He Hlo Hhi. destruct (is_binary64_grid _ Hb) as [m Hm].
  rewrite He in Hm. pose proof (pow2_pos e) as Hu.
  rewrite Hm in Hlo, Hhi.
  apply Qmult_lt_r in Hlo, Hhi; try exact Hu.
  rewrite <- Zlt_Qlt in Hlo, Hhi. lia.
Qed.

Lemma ulp_exponent_binade (value : Q) (b : Z) :
  - 1022 <= b ->
  (pow2 b <= Qabs value)%Q -> (Qabs value < pow2 (b + 1))%Q ->
  ulp_exponent value = b - 52.
Proof.
  intros Hb H1 H2. unfold ulp_exponent.
  rewrite (binade_unique _ b H1 H2). lia.
Qed.

Lemma glyph_max_adjacent (value : Q) :
  is_binary64 value -> (value <= glyph_max \/ glyph_max_next <= value)%Q.
Proof.
  intros Hb. destruct (Qlt_le_dec glyph_max value) as [Hlo | Hlo]; [| now left].
  destruct (Qlt_le_dec value glyph_max_next) as [Hhi | Hhi]; [| now right].
  exfalso.
  assert (Hv : (64 <= value < 128)%Q).
  { assert (B1 : (64 < glyph_max)%Q) by (vm_compute; reflexivity).
    assert (B2 : (glyph_max_next < 128)%Q) by (vm_compute; reflexivity).
    split; lra. }
  apply (no_float_between value (-46) 8042142191733027 Hb).
  - apply (ulp_exponent_binade value 6); [lia | |].
    + rewrite Qabs_pos by lra. change (pow2 6) with 64%Q. lra.
    + rewrite Qabs_pos by lra. change (pow2 (6 + 1)) with 128%Q. lra.
  - assert (E : (inject_Z 8042142191733027 * pow2 (-46) == glyph_max)%Q)
      by (vm_compute; reflexivity).
    now rewrite E.
  - assert (E : (inject_Z (8042142191733027 + 1) * pow2 (-46) ==
                 glyph_max_next)%Q) by (vm_compute; reflexivity).
    now rewrite E.
Qed.

Lemma glyph_min_adjacent (value : Q) :
  is_binary64 value -> (value <= glyph_min_prev \/ glyph_min <= value)%Q.
Proof.
  intros Hb.
  destruct (Qlt_le_dec glyph_min_prev value) as [Hlo | Hlo]; [| now left].
  destruct (Qlt_le_dec value glyph_min) as [Hhi | Hhi]; [| now right].
  exfalso.
  assert (Hv : (- 256 < value < - 128)%Q).
  { assert (B' : (glyph_min < - 128)%Q) by (vm_compute; reflexivity).
    assert (B'' : (- 256 < glyph_min_prev)%Q) by (vm_compute; reflexivity).
    split; lra. }
  apply (no_float_between value (-45) (-4523704982849829) Hb).
  - apply (ulp_exponent_binade value 7); [lia | |].
    + rewrite Qabs_neg by lra. change (pow2 7) with 128%Q. lra.
    + rewrite Qabs_neg by lra. change (pow2 (7 + 1)) with 256%Q. lra.
  - assert (E : (inject_Z (-4523704982849829) * pow2 (-45) ==
                 glyph_min_prev)%Q) by (vm_compute; reflexivity).
    now rewrite E.
  - assert (E : (inject_Z (-4523704982849829 + 1) * pow2 (-45) ==
                 glyph_min)%Q) by (vm_compute; reflexivity).
    now rewrite E.
Qed.

(** *** The scaled value and the exact one *)

(** Rounding carries the scaled value to no other side of an integer. *)
Lemma scaled_bracket (value : Q) (n : Z) :
  - 1000 <= n <= 1000 ->
  ((inject_Z n <= value * 7 / 100 -> inject_Z n <= scaled value) /\
   (value * 7 / 100 <= inject_Z n -> scaled value <= inject_Z n))%Q.
Proof.
  intros Hn.
  assert (E100 : (round_binary64 (inject_Z (100 * n)) == inject_Z (100 * n))%Q)
    by (apply round_binary64_Z; lia).
  assert (En : (round_binary64 (inject_Z n) == inject_Z n)%Q)
    by (apply round_binary64_Z; lia).
  assert (Hm : (inject_Z (100 * n) == inject_Z n * 100)%Q).
  { rewrite inject_Z_mult. change (inject_Z 100) with 100%Q. ring. }
  unfold scaled. split; intros H.
  - rewrite <- En. apply round_binary64_mono.
    apply Qle_shift_div_l; [reflexivity|].
    rewrite <- Hm, <- E100. apply round_binary64_mono. rewrite Hm.
    apply Qmult_le_r with (z := (/ 100)%Q); [reflexivity|].
    setoid_replace (inject_Z n * 100 * / 100)%Q with (inject_Z n)
      using relation Qeq by field.
    exact H.
  - rewrite <- En. apply round_binary64_mono.
    apply Qle_shift_div_r; [reflexivity|].
    rewrite <- Hm, <- E100. apply round_binary64_mono. rewrite Hm.
    apply Qmult_le_r with (z := (/ 100)%Q); [reflexivity|].
    setoid_replace (inject_Z n * 100 * / 100)%Q with (inject_Z n)
      using relation Qeq by field.
    exact H.
Qed.

Lemma scaled_bucket_min : (- 1 < scaled bucket_min)%Q.
Proof. vm_compute. reflexivity. Qed.

Lemma bucket_min_bounds :
  (glyph_min <= bucket_min /\ bucket_min < 0 /\ - (100 # 7) < bucket_min)%Q.
Proof. vm_compute. repeat split; discriminate. Qed.

Lemma Qceiling_zero (q : Q) : (- 1 < q)%Q -> (q <= 0)%Q -> Qceiling q = 0.
Proof.
  intros Hlow Hhigh.
  apply Qceiling_resp_le in Hhigh. change (Qceiling 0) with 0 in Hhigh.
  pose proof (Qle_ceiling q) as Hle.
  assert (Hlt : (inject_Z (- 1) < inject_Z (Qceiling q))%Q).
  { change (inject_Z (- 1)) with (- 1)%Q. lra. }
  rewrite <- Zlt_Qlt in Hlt. lia.
Qed.

(** C7, as the code has it: on every float from -14.285714285714283 up to
    114.28571428571426, and so on the whole scale [[0, 100]],
    [text_sparkline] returns the glyph of [bars] at the index
    [int(value * 7 / 100)] it computes in binary64.  That index lies in
    [[0, 7]], so clamping it changes nothing; it is 0 below 0 and 7 from 100
    on.  It is the clamped [floor(value * 7 / 100)] of the specification, or
    the integer next above it where rounding the product or the quotient
    carries the scaled value up to that integer.  The code applies no clamp
    of its own. *)
Theorem text_sparkline_in_range (value : Q)
    (Hrange : (bucket_min <= value <= glyph_max)%Q) :
  exists i,
    sparkline_index (Finite value) = Ok i /\
    i = py_int (scaled value) /\
    0 <= i <= 7 /\
    clamp 0 7 i = i /\
    sparkline_bucket_spec value <= i <= Qceiling (value * 7 / 100) /\
    ((value < 0)%Q -> i = 0) /\
    ((100 <= value)%Q -> i = 7) /\
    nth_error bars (Z.to_nat i) = Some (0x2581 + i) /\
    text_sparkline (Finite value) = Ok (0x2581 + i) /\
    (i = sparkline_bucket_spec value ->
     text_sparkline (Finite value) = text_sparkline_spec value).
Proof.
  destruct Hrange as [Hlow Hmax].
  pose proof bucket_min_bounds as (Bmin & Bneg & Bexact).
  assert (Hmin : (glyph_min <= value)%Q) by lra.
  destruct (sparkline_index_on_scale value (conj Hmin Hmax)) as [Hidx [_ H7]].
  set (x := (value * 7 / 100)%Q).
  assert (Ex : (x == value * (7 # 100))%Q) by (unfold x; field).
  assert (B : (glyph_max < 128)%Q) by (vm_compute; reflexivity).
  assert (Hx : (- 1 < x < 9)%Q) by (split; lra).
  unfold sparkline_bucket_spec. fold x.
  assert (Hfx : - 1 <= Qfloor x <= 9).
  { destruct Hx as [Hx1 Hx9].
    apply Qlt_le_weak, Qfloor_resp_le in Hx1, Hx9.
    change (Qfloor (- 1)) with (- 1) in Hx1. change (Qfloor 9) with 9 in Hx9.
    lia. }
  assert (Hcx : - 1 <= Qceiling x <= 9).
  { destruct Hx as [Hx1 Hx9].
    apply Qlt_le_weak, Qceiling_resp_le in Hx1, Hx9.
    change (Qceiling (- 1)) with (- 1) in Hx1.
    change (Qceiling 9) with 9 in Hx9. lia. }
  assert (Hindex : exists i,
            py_int (scaled value) = i /\ 0 <= i <= 7 /\
            clamp 0 7 (Qfloor x) <= i <= Qceiling x /\
            ((value < 0)%Q -> i = 0) /\ ((100 <= value)%Q -> i = 7)).
  { destruct (Qlt_le_dec value 0) as [Hneg | H0].
    - assert (Hs : (- 1 < scaled value <= 0)%Q).
      { split.
        + eapply Qlt_le_trans; [exact scaled_bucket_min | now apply scaled_mono].
        + rewrite <- scaled_0. apply scaled_mono. lra. }
      exists 0. rewrite py_int_nonpos by lra.
      split; [apply Qceiling_zero; lra|]. split; [lia|].
      assert (Hc0 : Qceiling x = 0) by (apply Qceiling_zero; lra).
      assert (Hf0 : Qfloor x <= 0).
      { assert (Hx0 : (x <= 0)%Q) by lra.
        apply Qfloor_resp_le in Hx0. exact Hx0. }
      split; [unfold clamp; lia|]. split; [reflexivity | intros H100; lra].
    - assert (Hs0 : (0 <= scaled value)%Q).
      { rewrite <- scaled_0. now apply scaled_mono. }
      rewrite (py_int_nonneg _ Hs0) in H7 |- *.
      exists (Qfloor (scaled value)). split; [reflexivity|].
      assert (Hi0 : 0 <= Qfloor (scaled value)).
      { apply Qfloor_resp_le in Hs0. exact Hs0. }
      split; [lia|].
      assert (Hfloor : Qfloor x <= Qfloor (scaled value)).
      { pose proof (Qfloor_le x) as Hle.
        apply (scaled_bracket value) in Hle; [| lia].
        apply Qfloor_resp_le in Hle. now rewrite Qfloor_Z in Hle. }
      assert (Hceiling : Qfloor (scaled value) <= Qceiling x).
      { pose proof (Qle_ceiling x) as Hle.
        apply (scaled_bracket value) in Hle; [| lia].
        apply Qfloor_resp_le in Hle. now rewrite Qfloor_Z in Hle. }
      split; [unfold clamp; lia|]. split; [intros Hneg; lra|].
      intros H100.
      assert (H7' : (7 <= x)%Q) by lra.
      apply Qfloor_resp_le in H7'. change (Qfloor 7) with 7 in H7'. lia. }
  destruct Hindex as (i & Ei & Hi & Hbracket & Hzero & Hlast).
  rewrite Ei in Hidx.
  assert (Hn : nth_error bars (Z.to_nat i) = Some (0x2581 + i)).
  { assert (C : i = 0 \/ i = 1 \/ i = 2 \/ i = 3 \/ i = 4 \/ i = 5 \/ i = 6 \/ i = 7)
      by lia.
    repeat (destruct C as [-> | C]; [reflexivity|]). rewrite C. reflexivity. }
  assert (Ht : text_sparkline (Finite value) = Ok (0x2581 + i)).
  { unfold text_sparkline. rewrite Hidx, bind_Ok. apply py_index_bars. lia. }
  exists i. split; [exact Hidx|]. split; [now symmetry|]. split; [exact Hi|].
  split; [unfold clamp; lia|]. split; [exact Hbracket|].
  split; [exact Hzero|]. split; [exact Hlast|]. split; [exact Hn|].
  split; [exact Ht|]. intros Hspec. rewrite Ht.
  unfold text_sparkline_spec, sparkline_bucket_spec. fold x.
  rewrite <- Hspec. now rewrite Hn.
Qed.

(** The boundary cases of the specification: 0, 50 and 100 fall in the
    buckets 0, 3 and 7.  The two ends of the range are floats. *)
Lemma text_sparkline_in_range_witness :
  (bucket_min <= 50 <= glyph_max)%Q /\
  (exists i,
     sparkline_index (Finite 50) = Ok i /\
     i = py_int (scaled 50) /\
     0 <= i <= 7 /\
     clamp 0 7 i = i /\
     sparkline_bucket_spec 50 <= i <= Qceiling (50 * 7 / 100) /\
     ((50 < 0)%Q -> i = 0) /\
     ((100 <= 50)%Q -> i = 7) /\
     nth_error bars (Z.to_nat i) = Some (0x2581 + i) /\
     text_sparkline (Finite 50) = Ok (0x2581 + i) /\
     (i = sparkline_bucket_spec 50 ->
      text_sparkline (Finite 50) = text_sparkline_spec 50)) /\
  text_sparkline (Finite 0) = Ok (0x2581 + 0) /\
  text_sparkline (Finite 50) = Ok (0x2581 + 3) /\
  text_sparkline (Finite 100) = Ok (0x2581 + 7) /\
  is_binary64 bucket_min /\ is_binary64 glyph_max.
Proof.
  assert (H50 : (bucket_min <= 50 <= glyph_max)%Q)
    by (split; vm_compute; discriminate).
  split; [exact H50|]. split; [exact (text_sparkline_in_range 50 H50)|].
  repeat split; vm_compute; reflexivity.
Defined.

(** C7 as the specification words it does not hold of the code.  Above the
    scale: 120 is the total of a parent and a child that use 60 each;
    [int(120 * 7 / 100)] is 8 and [bars[8]] raises [IndexError], where the
    specification's clamped bucket is 7.  On the scale: at the float
    14.285714285714285 the product with 7 is rounded to 100.0, so the index
    is 1, where [floor] of the exact value is 0.  Below the scale: the
    index of -20 is -1, which Python counts from the end of [bars], where
    the clamped bucket is 0; so it is at -14.285714285714285, the float
    before [bucket_min]. *)
Lemma text_sparkline_not_clamped :
  text_sparkline (Finite 120) = Raise IndexError /\
  text_sparkline_spec 120 = Ok 0x2588 /\
  is_binary64 carried_up /\
  (0 <= carried_up <= 100)%Q /\
  text_sparkline (Finite carried_up) = Ok 0x2582 /\
  text_sparkline_spec carried_up = Ok 0x2581 /\
  text_sparkline (Finite (- 20)) = Ok 0x2588 /\
  text_sparkline_spec (- 20) = Ok 0x2581 /\
  is_binary64 (- carried_up) /\
  text_sparkline (Finite (- carried_up)) = Ok 0x2588 /\
  text_sparkline_spec (- carried_up) = Ok 0x2581.
Proof.
  split; [vm_compute; reflexivity|]. split; [reflexivity|].
  split; [vm_compute; reflexivity|].
  split; [split; vm_compute; discriminate|].
  repeat split; vm_compute; reflexivity.
Qed.

(** *** The domain *)

Lemma product_max_finite :
  (- pow2 1024 < round_binary64 (- product_max * 7) /\
   round_binary64 (product_max * 7) < pow2 1024)%Q.
Proof. vm_compute. split; reflexivity. Qed.

Lemma product_max_next_infinite :
  (round_binary64 (- product_max_next * 7) <= - pow2 1024 /\
   pow2 1024 <= round_binary64 (product_max_next * 7))%Q.
Proof. vm_compute. split; discriminate. Qed.

Lemma product_max_bounds :
  (pow2 1021 < product_max /\ product_max < product_max_next /\
   product_max_next < pow2 1022 /\ glyph_max_next <= product_max /\
   - product_max <= glyph_min_prev)%Q.
Proof. vm_compute. repeat split; discriminate. Qed.

Lemma round_binary64_1021 : (round_binary64 (pow2 1021 * 7) == pow2 1021 * 7)%Q.
Proof. vm_compute. reflexivity. Qed.

Lemma round_binary64_1021_neg :
  (round_binary64 (- (pow2 1021 * 7)) == - (pow2 1021 * 7))%Q.
Proof. vm_compute. reflexivity. Qed.

Lemma pow2_1021_7 :
  (pow2 1021 * 7 < pow2 1024 /\ pow2 1024 <= pow2 1021 * 7 * 100)%Q.
Proof. vm_compute. split; [reflexivity | discriminate]. Qed.

Lemma text_sparkline_overflow (value : Q) :
  (value <= - product_max_next \/ product_max_next <= value)%Q ->
  text_sparkline (Finite value) = Raise OverflowError.
Proof.
  intros Hbig. unfold text_sparkline, sparkline_index.
  rewrite to_float_7, to_float_100. unfold float_mul.
  destruct (to_float_infinite (value * 7)) as [s ->]; [| reflexivity].
  pose proof product_max_next_infinite as [Hn Hp].
  pose proof (pow2_pos 1024) as Hpos.
  destruct Hbig as [Hlow | Hhigh].
  - assert (H : (round_binary64 (value * 7) <=
                 round_binary64 (- product_max_next * 7))%Q).
    { apply round_binary64_mono. lra. }
    apply Qabs_case; intros Hsign; lra.
  - assert (H : (round_binary64 (product_max_next * 7) <=
                 round_binary64 (value * 7))%Q).
    { apply round_binary64_mono. lra. }
    apply Qabs_case; intros Hsign; lra.
Qed.

Lemma sparkline_index_no_overflow (value : Q) :
  (- product_max <= value <= product_max)%Q ->
  sparkline_index (Finite value) = Ok (py_int (scaled value)).
Proof.
  intros [Hlo Hhi]. unfold sparkline_index, scaled.
  rewrite to_float_7, to_float_100. unfold float_mul.
  pose proof product_max_finite as [Hr0 Hr]. pose proof pow2_1021_7 as [Hp Hp'].
  pose proof (pow2_pos 1021) as Hpos.
  assert (Hm : (round_binary64 (- product_max * 7) <= round_binary64 (value * 7)
                <= round_binary64 (product_max * 7))%Q).
  { split; apply round_binary64_mono; lra. }
  rewrite to_float_finite by (apply Qabs_case; intros _; lra).
  unfold float_div. change (Qeq_bool 100 0) with false. cbv iota.
  assert (Hd : (- (pow2 1021 * 7) <= round_binary64 (value * 7) / 100 <=
                pow2 1021 * 7)%Q).
  { split.
    - apply Qle_shift_div_l; [reflexivity | lra].
    - apply Qle_shift_div_r; [reflexivity | lra]. }
  destruct Hd as [Hd1 Hd2]. apply round_binary64_mono in Hd1, Hd2.
  rewrite round_binary64_1021_neg in Hd1. rewrite round_binary64_1021 in Hd2.
  rewrite to_float_finite by (apply Qabs_case; intros _; lra).
  reflexivity.
Qed.

Lemma product_max_adjacent (value : Q) :
  is_binary64 value -> (value <= product_max \/ product_max_next <= value)%Q.
Proof.
  intros Hb. destruct (Qlt_le_dec product_max value) as [Hlo | Hlo]; [| now left].
  destruct (Qlt_le_dec value product_max_next) as [Hhi | Hhi]; [| now right].
  exfalso. pose proof product_max_bounds as (B1 & _ & B2 & _).
  pose proof (pow2_pos 1021) as Hpos.
  apply (no_float_between value 969 5146971002709137 Hb).
  - apply (ulp_exponent_binade value 1021); [lia | |].
    + rewrite Qabs_pos by lra. lra.
    + rewrite Qabs_pos by lra. change (1021 + 1) with 1022. lra.
  - assert (E : (inject_Z 5146971002709137 * pow2 969 == product_max)%Q)
      by (vm_compute; reflexivity).
    now rewrite E.
  - assert (E : (inject_Z (5146971002709137 + 1) * pow2 969 ==
                 product_max_next)%Q) by (vm_compute; reflexivity).
    now rewrite E.
Qed.

Lemma product_min_adjacent (value : Q) :
  is_binary64 value ->
  (value <= - product_max_next \/ - product_max <= value)%Q.
Proof.
  intros Hb.
  destruct (Qlt_le_dec (- product_max_next) value) as [Hlo | Hlo]; [| now left].
  destruct (Qlt_le_dec value (- product_max)) as [Hhi | Hhi]; [| now right].
  exfalso. pose proof product_max_bounds as (B1 & _ & B2 & _).
  pose proof (pow2_pos 1021) as Hpos.
  apply (no_float_between value 969 (- 5146971002709138) Hb).
  - apply (ulp_exponent_binade value 1021); [lia | |].
    + rewrite Qabs_neg by lra. lra.
    + rewrite Qabs_neg by lra. change (1021 + 1) with 1022. lra.
  - assert (E : (inject_Z (- 5146971002709138) * pow2 969 ==
                 - product_max_next)%Q) by (vm_compute; reflexivity).
    now rewrite E.
  - assert (E : (inject_Z (- 5146971002709138 + 1) * pow2 969 ==
                 - product_max)%Q) by (vm_compute; reflexivity).
    now rewrite E.
Qed.

Lemma sparkline_ends_are_floats :
  is_binary64 glyph_min_prev /\ is_binary64 glyph_min /\
  is_binary64 glyph_max /\ is_binary64 glyph_max_next /\
  is_binary64 product_max /\ is_binary64 product_max_next /\
  is_binary64 (- product_max) /\ is_binary64 (- product_max_next).
Proof. repeat split; vm_compute; reflexivity. Qed.

(** X3: [text_sparkline] returns a glyph for every float from
    -128.57142857142856 up to 114.28571428571426, and for no other.  These
    two have the floats -128.57142857142858 and 114.28571428571428 next to
    them, and from there on the call raises [IndexError] as long as the
    product with 7 is finite, which it is up to the float [product_max],
    about 2.568e307; from the float after that one on the product is
    infinite and the call raises [OverflowError], as it does on the
    infinities.  On a NaN it raises [ValueError]. *)
Theorem text_sparkline_domain :
  (is_binary64 glyph_min_prev /\ is_binary64 glyph_min /\
   is_binary64 glyph_max /\ is_binary64 glyph_max_next /\
   is_binary64 product_max /\ is_binary64 product_max_next /\
   is_binary64 (- product_max) /\ is_binary64 (- product_max_next)) /\
  (forall value,
     (glyph_min <= value <= glyph_max)%Q ->
     exists i,
       - 8 <= i <= 7 /\ sparkline_index (Finite value) = Ok i /\
       is_ok (text_sparkline (Finite value)) = true) /\
  (forall value,
     is_binary64 value ->
     (value <= - product_max_next \/ - product_max <= value)%Q /\
     (value <= glyph_min_prev \/ glyph_min <= value)%Q /\
     (value <= glyph_max \/ glyph_max_next <= value)%Q /\
     (value <= product_max \/ product_max_next <= value)%Q) /\
  (forall value,
     (- product_max <= value <= glyph_min_prev \/
      glyph_max_next <= value <= product_max)%Q ->
     text_sparkline (Finite value) = Raise IndexError) /\
  (forall value,
     (value <= - product_max_next \/ product_max_next <= value)%Q ->
     text_sparkline (Finite value) = Raise OverflowError) /\
  (forall negative, text_sparkline (Infinity negative) = Raise OverflowError) /\
  text_sparkline NaN = Raise ValueError.
Proof.
  split; [| split; [| split; [| split; [| split; [| split]]]]].
  - exact sparkline_ends_are_floats.
  - intros value Hv. destruct (sparkline_index_on_scale value Hv) as [E Hi].
    exists (py_int (scaled value)). split; [exact Hi|]. split; [exact E|].
    now apply text_sparkline_on_scale.
  - intros value Hb.
    split; [now apply product_min_adjacent|].
    split; [now apply glyph_min_adjacent|].
    split; [now apply glyph_max_adjacent | now apply product_max_adjacent].
  - intros value Hoff. pose proof product_max_bounds as (_ & _ & _ & B1 & B2).
    pose proof glyph_bounds as (_ & B3 & B4 & B5 & B6 & _).
    assert (Hfinite : (- product_max <= value <= product_max)%Q)
      by (destruct Hoff; split; lra).
    assert (Hoff' : (value <= glyph_min_prev \/ glyph_max_next <= value)%Q)
      by (destruct Hoff; [left | right]; lra).
    destruct (text_sparkline_off_scale value Hoff')
      as [(d & _ & _ & E) | [E _]]; [exact E|].
    rewrite (sparkline_index_no_overflow value Hfinite) in E. discriminate.
  - apply text_sparkline_overflow.
  - apply text_sparkline_infinity.
  - unfold text_sparkline, sparkline_index. rewrite to_float_7, to_float_100.
    reflexivity.
Qed.

(** The ends of the domain, and three values outside it. *)
Example text_sparkline_ends :
  text_sparkline (Finite glyph_min) = Ok 0x2581 /\
  text_sparkline (Finite glyph_min_prev) = Raise IndexError /\
  text_sparkline (Finite glyph_max) = Ok 0x2588 /\
  text_sparkline (Finite glyph_max_next) = Raise IndexError /\
  text_sparkline (Finite product_max) = Raise IndexError /\
  text_sparkline (Finite product_max_next) = Raise OverflowError /\
  text_sparkline (to_float (inject_Z (10 ^ 308))) = Raise OverflowError /\
  text_sparkline (to_float (inject_Z (10 ^ 309))) = Raise OverflowError.
Proof. repeat split; vm_compute; reflexivity. Qed.

(** X4: on the floats from -14.285714285714283 up to 114.28571428571426
    the sparkline is monotone: a larger value never gets a lower glyph. *)
Theorem text_sparkline_monotone (low high : Q)
    (Hlow : (bucket_min <= low)%Q) (Horder : (low <= high)%Q)
    (Hhigh : (high <= glyph_max)%Q) :
  exists glyph_low glyph_high,
    text_sparkline (Finite low) = Ok glyph_low /\
    text_sparkline (Finite high) = Ok glyph_high /\
    glyph_low <= glyph_high.
Proof.
  pose proof bucket_min_bounds as (Bmin & _ & _).
  destruct (sparkline_index_on_scale low) as [El [_ Hl]]; [split; lra|].
  destruct (sparkline_index_on_scale high) as [Eh [_ Hh]]; [split; lra|].
  assert (Hi0 : 0 <= py_int (scaled low)).
  { apply py_int_ge_iff; [lia|]. change (inject_Z (0 - 1)) with (- 1)%Q.
    eapply Qlt_le_trans; [exact scaled_bucket_min | now apply scaled_mono]. }
  pose proof (scaled_mono _ _ Horder) as Hs.
  pose proof (py_int_mono _ _ Hs) as Hi.
  exists (0x2581 + py_int (scaled low)), (0x2581 + py_int (scaled high)).
  unfold text_sparkline. rewrite El, Eh, !bind_Ok.
  split; [apply py_index_bars; lia|]. split; [apply py_index_bars; lia | lia].
Qed.

Lemma text_sparkline_monotone_witness :
  exists glyph_low glyph_high,
    text_sparkline (Finite (25 # 2)) = Ok glyph_low /\
    text_sparkline (Finite 99) = Ok glyph_high /\
    glyph_low <= glyph_high.
Proof.
  apply (text_sparkline_monotone (25 # 2) 99); vm_compute; discriminate.
Defined.

(** *** The glyph of a total *)

(** A total with two decimals has a glyph exactly when it lies between
    -900/7 and 800/7. *)
Lemma text_sparkline_decimal (total : Q) (k : Z) :
  (total == inject_Z k / 100)%Q ->
  (- (900 # 7) < total)%Q -> (total < 800 # 7)%Q ->
  is_ok (text_sparkline (to_float total)) = true.
Proof.
  intros E Hlo Hhi.
  assert (E' : (inject_Z k / 100 == inject_Z k * (1 # 100))%Q) by field.
  rewrite E' in E. clear E'.
  assert (Hk : - 12857 <= k <= 11428).
  { rewrite E in Hlo, Hhi.
    assert (H : (inject_Z (- 90000) < inject_Z (k * 7) /\
                 inject_Z (k * 7) < inject_Z 80000)%Q).
    { rewrite inject_Z_mult. change (inject_Z (- 90000)) with (- 90000)%Q.
      change (inject_Z 80000) with 80000%Q. change (inject_Z 7) with 7%Q.
      clear E. revert Hlo Hhi. generalize (inject_Z k). intros q Hlo Hhi.
      split; lra. }
    destruct H as [H1 H2]. rewrite <- Zlt_Qlt in H1, H2. lia. }
  assert (Hq : (- (12857 # 100) <= total <= 11428 # 100)%Q).
  { rewrite E. destruct Hk as [Hk1 Hk2].
    rewrite Zle_Qle in Hk1, Hk2.
    change (inject_Z (- 12857)) with (- 12857)%Q in Hk1.
    change (inject_Z 11428) with 11428%Q in Hk2.
    clear E Hlo Hhi. revert Hk1 Hk2. generalize (inject_Z k). intros q Hk1 Hk2.
    split; lra. }
  destruct (to_float_between 256 total) as [Ef _]; [lia | |].
  { change (inject_Z 256) with 256%Q. lra. }
  rewrite Ef. apply text_sparkline_on_scale.
  destruct Hq as [Hq1 Hq2]. apply round_binary64_mono in Hq1, Hq2.
  assert (B1 : (glyph_min <= round_binary64 (- (12857 # 100)))%Q)
    by (vm_compute; discriminate).
  assert (B2 : (round_binary64 (11428 # 100) <= glyph_max)%Q)
    by (vm_compute; discriminate).
  split; lra.
Qed.

Lemma text_sparkline_total_off_scale (total : Q) :
  (total <= - (900 # 7) \/ 800 # 7 <= total)%Q ->
  is_ok (text_sparkline (to_float total)) = false.
Proof.
  intros Hoff.
  destruct (to_float_cases total) as [-> | [s ->]];
    [| now rewrite text_sparkline_infinity].
  apply text_sparkline_off_scale_fails.
  destruct Hoff as [Hlow | Hhigh]; [left | right].
  - apply round_binary64_mono in Hlow.
    assert (B : (round_binary64 (- (900 # 7)) <= glyph_min_prev)%Q)
      by (vm_compute; discriminate).
    lra.
  - apply round_binary64_mono in Hhigh.
    assert (B : (glyph_max_next <= round_binary64 (800 # 7))%Q)
      by (vm_compute; discriminate).
    lra.
Qed.

(** ** Dicts *)

Section DictFacts.

Context {V : Type}.

Implicit Types (d : list (Z * V)) (k : Z) (v : V).

Lemma dict_get_Some_In d k v : dict_get k d = Some v -> In (k, v) d.
Proof.
  induction d as [| [k' v'] d IH]; simpl; [discriminate|].
  destruct (Z.eqb_spec k' k) as [-> | NE].
  - intros [= ->]. now left.
  - intros H. right. now apply IH.
Qed.

Lemma dict_get_None d k : dict_get k d = None <-> ~ In k (dict_keys d).
Proof.
  induction d as [| [k' v'] d IH]; simpl.
  - tauto.
  - destruct (Z.eqb_spec k' k) as [-> | NE].
    + split; [discriminate | tauto].
    + rewrite IH. tauto.
Qed.

Lemma dict_get_is_Some d k : In k (dict_keys d) <-> exists v, dict_get k d = Some v.
Proof.
  destruct (dict_get k d) as [v|] eqn:E.
  - split; [eauto|]. intros _.
    apply dict_get_Some_In in E. apply (in_map fst) in E. exact E.
  - split.
    + intros H. now apply dict_get_None in E.
    + intros [v [=]].
Qed.

Lemma dict_mem_true d k : dict_mem k d = true <-> In k (dict_keys d).
Proof.
  unfold dict_mem. rewrite dict_get_is_Some.
  destruct (dict_get k d); split; eauto; try discriminate.
  intros [v [=]].
Qed.

Lemma dict_mem_false d k : dict_mem k d = false <-> ~ In k (dict_keys d).
Proof.
  rewrite <- dict_mem_true. destruct (dict_mem k d); split; congruence.
Qed.

Lemma dict_keys_set d k v :
  dict_keys (dict_set k v d) =
  if dict_mem k d then dict_keys d else (dict_keys d ++ [k])%list.
Proof.
  unfold dict_mem, dict_keys.
  induction d as [| [k' v'] d IH]; simpl; [reflexivity|].
  destruct (Z.eqb_spec k' k) as [-> | NE]; simpl; [reflexivity|].
  rewrite IH. now destruct (dict_get k d).
Qed.

Lemma dict_get_set d k k' v :
  dict_get k' (dict_set k v d) = if k =? k' then Some v else dict_get k' d.
Proof.
  induction d as [| [k0 v0] d IH]; simpl.
  - reflexivity.
  - destruct (Z.eqb_spec k0 k) as [-> | NE]; simpl.
    + now destruct (Z.eqb_spec k k').
    + destruct (Z.eqb_spec k0 k') as [-> | NE'].
      * destruct (Z.eqb_spec k k'); [congruence | reflexivity].
      * exact IH.
Qed.

End DictFacts.

(** ** Root detection *)

(** C6: a pid is in [root_pids] exactly when it is a key of the mapping and
    the parent pid recorded for it is not a key; in the example the roots are
    1 and 3. *)
Theorem root_pids_exact :
  (forall (processes : list (Z * proc_record)) (pid : Z),
     In pid (root_pids processes) <->
     In pid (dict_keys processes) /\
     exists proc, dict_get pid processes = Some proc /\
                  ~ In (p_ppid proc) (dict_keys processes)) /\
  root_pids example_roots = [1; 3].
Proof.
  split; [| reflexivity].
  intros processes pid. unfold root_pids. rewrite filter_In. split.
  - intros [Hk Hf]. split; [exact Hk|].
    destruct (dict_get pid processes) as [proc|]; [| discriminate].
    exists proc. split; [reflexivity|].
    apply dict_mem_false. now destruct (dict_mem (p_ppid proc) processes).
  - intros [Hk (proc & Hg & Hp)]. split; [exact Hk|]. rewrite Hg.
    apply dict_mem_false in Hp. now rewrite Hp.
Qed.

(** ** The ancestor walk *)

Lemma query_cases {A : Type} (r : psutil_result A) :
  (exists a, r = Answer a) \/
  query r = Raise NoSuchProcess \/ query r = Raise AccessDenied.
Proof. destruct r; simpl; eauto. Qed.

Lemma query_psutil_error {A : Type} (r : psutil_result A) (e : exn) :
  query r = Raise e -> psutil_error e = true.
Proof. destruct r; simpl; intros [=]; subst; reflexivity. Qed.

Lemma get_parent_tree_returns (os : snapshot_source) (n : nat) :
  forall proc, walk_ends os proc n ->
  exists t, forall depth, (n < depth)%nat -> get_parent_tree depth os proc = Ok t.
Proof.
  intros proc H. induction H as
    [proc Hp | proc Hp | proc parent Hp Hn | proc parent name n Hp Hn Hw IH].
  - exists NoParent. intros [| d] Hd; [lia|]. simpl. now rewrite Hp.
  - exists NoParent. intros [| d] Hd; [lia|]. simpl.
    destruct Hp as [-> | ->]; reflexivity.
  - exists NoParent. intros [| d] Hd; [lia|]. simpl. rewrite Hp. simpl.
    destruct Hn as [-> | ->]; reflexivity.
  - destruct IH as [t IH].
    destruct (os_memory_percent os parent) as [m | |] eqn:Hm.
    + exists (Parent parent name t (round2 m)).
      intros [| d] Hd; [lia|]. simpl. rewrite Hp. simpl. rewrite Hn. simpl.
      rewrite IH by lia. simpl. rewrite Hm. reflexivity.
    + exists NoParent.
      intros [| d] Hd; [lia|]. simpl. rewrite Hp. simpl. rewrite Hn. simpl.
      rewrite IH by lia. simpl. rewrite Hm. reflexivity.
    + exists NoParent.
      intros [| d] Hd; [lia|]. simpl. rewrite Hp. simpl. rewrite Hn. simpl.
      rewrite IH by lia. simpl. rewrite Hm. reflexivity.
Qed.

(** The handler of [get_parent_tree] absorbs psutil's exceptions, so the only
    exception that leaves it is the exhausted call stack. *)
Lemma get_parent_tree_raises (os : snapshot_source) (depth : nat) :
  forall proc e, get_parent_tree depth os proc = Raise e -> e = RecursionError.
Proof.
  induction depth as [| d IH]; intros proc e H; simpl in H; [congruence|].
  destruct (query (os_parent os proc)) as [[parent|] | e0] eqn:Hp; simpl in H.
  - destruct (query (os_name os parent)) as [name | e1] eqn:Hn; simpl in H.
    + destruct (get_parent_tree d os parent) as [t | e2] eqn:Hrec; simpl in H.
      * destruct (query (os_memory_percent os parent)) as [m | e3] eqn:Hm;
          simpl in H; [discriminate|].
        rewrite (query_psutil_error _ _ Hm) in H. discriminate.
      * apply IH in Hrec. subst e2. simpl in H. congruence.
    + rewrite (query_psutil_error _ _ Hn) in H. discriminate.
  - discriminate.
  - rewrite (query_psutil_error _ _ Hp) in H. discriminate.
Qed.

Lemma get_parent_tree_returned (os : snapshot_source) (depth : nat) :
  forall proc t, get_parent_tree depth os proc = Ok t ->
  exists n, (n < depth)%nat /\ walk_ends os proc n.
Proof.
  induction depth as [| d IH]; intros proc t H; simpl in H; [discriminate|].
  destruct (os_parent os proc) as [[parent|] | |] eqn:Hp.
  - simpl in H. destruct (os_name os parent) as [name | |] eqn:Hn.
    + simpl in H.
      destruct (get_parent_tree d os parent) as [t' | e] eqn:Hrec.
      * destruct (IH _ _ Hrec) as (n & Hlt & Hw).
        exists (S n). split; [lia|]. eapply walk_ends_step; eauto.
      * apply get_parent_tree_raises in Hrec. subst e. discriminate.
    + exists 0%nat. split; [lia|]. eapply walk_ends_name_fails; eauto.
      rewrite Hn. now left.
    + exists 0%nat. split; [lia|]. eapply walk_ends_name_fails; eauto.
      rewrite Hn. now right.
  - exists 0%nat. split; [lia|]. now apply walk_ends_no_parent.
  - exists 0%nat. split; [lia|]. apply walk_ends_parent_fails. rewrite Hp. now left.
  - exists 0%nat. split; [lia|]. apply walk_ends_parent_fails. rewrite Hp. now right.
Qed.

Lemma get_parent_tree_too_shallow (os : snapshot_source) (n : nat) :
  forall proc, walk_ends os proc n ->
  forall depth, (depth <= n)%nat ->
  get_parent_tree depth os proc = Raise RecursionError.
Proof.
  intros proc H. induction H as
    [proc Hp | proc Hp | proc parent Hp Hn | proc parent name n Hp Hn Hw IH];
    intros [| d] Hd; try reflexivity; try lia.
  simpl. rewrite Hp. simpl. rewrite Hn. simpl.
  rewrite IH by lia. reflexivity.
Qed.

(** C2, as the code has it: [get_parent_tree] keeps no visited set and no
    depth bound of its own.  When the walk from [proc] ends after [n]
    ancestors (no parent, or a failing query), the function returns, and the
    same chain, at every call depth above [n]; with a call stack of [n]
    frames or fewer it ends in [RecursionError]. *)
Theorem get_parent_tree_terminates (os : snapshot_source) (proc : Z) (n : nat)
    (Hends : walk_ends os proc n) :
  exists chain,
    (forall depth, (n < depth)%nat -> get_parent_tree depth os proc = Ok chain) /\
    (forall depth, (depth <= n)%nat ->
       get_parent_tree depth os proc = Raise RecursionError).
Proof.
  destruct (get_parent_tree_returns os n proc Hends) as [chain Hchain].
  exists chain. split; [exact Hchain|].
  now apply get_parent_tree_too_shallow.
Qed.

Lemma chain_os_walk_ends : walk_ends chain_os 3 2.
Proof.
  eapply walk_ends_step; [reflexivity | reflexivity |].
  eapply walk_ends_step; [reflexivity | reflexivity |].
  now apply walk_ends_no_parent.
Defined.

Lemma get_parent_tree_terminates_witness :
  walk_ends chain_os 3 2 /\
  exists chain,
    (forall depth, (2 < depth)%nat -> get_parent_tree depth chain_os 3 = Ok chain) /\
    (forall depth, (depth <= 2)%nat ->
       get_parent_tree depth chain_os 3 = Raise RecursionError).
Proof.
  split; [exact chain_os_walk_ends|].
  exact (get_parent_tree_terminates chain_os 3 2 chain_os_walk_ends).
Defined.

Lemma get_parent_tree_cyclic_os (depth : nat) :
  get_parent_tree depth cyclic_os 5 = Raise RecursionError /\
  get_parent_tree depth cyclic_os 7 = Raise RecursionError.
Proof.
  induction depth as [| d [IH5 IH7]]; [split; reflexivity|].
  split; simpl; [rewrite IH7 | rewrite IH5]; reflexivity.
Qed.

(** C2 as the specification words it does not hold: on a parent cycle the
    walk returns at no call depth; whatever the size of the call stack, it
    is used up. *)
Lemma get_parent_tree_cycle_unbounded :
  os_parent cyclic_os 5 = Answer (Some 7) /\
  os_parent cyclic_os 7 = Answer (Some 5) /\
  (forall depth, get_parent_tree depth cyclic_os 5 = Raise RecursionError) /\
  ~ (exists depth chain, get_parent_tree depth cyclic_os 5 = Ok chain).
Proof.
  split; [reflexivity|]. split; [reflexivity|]. split.
  - intros depth. apply get_parent_tree_cyclic_os.
  - intros (depth & chain & H).
    rewrite (proj1 (get_parent_tree_cyclic_os depth)) in H. discriminate.
Qed.

(** ** The aggregator *)

Lemma size_list_to_set_le (l : list Z) :
  (size (list_to_set l : gset Z) <= length l)%nat.
Proof.
  induction l as [| x l IH].
  - change (list_to_set [] : gset Z) with (∅ : gset Z).
    rewrite size_empty. simpl. lia.
  - change (list_to_set (x :: l) : gset Z) with ({[x]} ∪ list_to_set l : gset Z).
    simpl. rewrite size_union_alt, size_singleton.
    assert (Hle : (size ((list_to_set l : gset Z) ∖ {[x]}) <=
                   size (list_to_set l : gset Z))%nat).
    { apply subseteq_size. apply subseteq_difference_l. reflexivity. }
    lia.
Qed.

Lemma elem_of_list_to_set_In (l : list Z) (x : Z) :
  x ∈ (list_to_set l : gset Z) <-> In x l.
Proof. rewrite elem_of_list_to_set. apply list_elem_of_In. Qed.

Lemma dict_mem_memory_of (ps ps' : list (Z * proc_record)) :
  (forall k, memory_of ps k = memory_of ps' k) ->
  forall k, dict_mem k ps = dict_mem k ps'.
Proof.
  intros H k. specialize (H k). unfold memory_of, dict_mem in *.
  destruct (dict_get k ps), (dict_get k ps'); simpl in H; congruence.
Qed.

Lemma sum_children_ext rec rec' ps ps' cs :
  (forall k, dict_mem k ps = dict_mem k ps') ->
  (forall c memo visited, rec c memo visited = rec' c memo visited) ->
  forall total memo visited,
    sum_children rec ps cs total memo visited =
    sum_children rec' ps' cs total memo visited.
Proof.
  intros Hmem Hrec. induction cs as [| c cs IH]; intros total memo visited;
    simpl; [reflexivity|].
  rewrite <- Hmem. destruct (dict_mem c ps); [| apply IH].
  rewrite <- Hrec. destruct (rec c memo visited) as [[sub [memo1 visited1]] | e];
    simpl; [apply IH | reflexivity].
Qed.

(** Storing ["memory_total"] in a record does not change what the
    aggregator computes. *)
Lemma compute_memory_ext (ps ps' : list (Z * proc_record)) children_map :
  (forall k, memory_of ps k = memory_of ps' k) ->
  forall depth pid memo visited,
    compute_memory_with_children depth pid ps children_map memo visited =
    compute_memory_with_children depth pid ps' children_map memo visited.
Proof.
  intros H. pose proof (dict_mem_memory_of _ _ H) as Hmem.
  induction depth as [| d IH]; intros pid memo visited; simpl; [reflexivity|].
  destruct (memo !! pid); [reflexivity|].
  destruct (decide (pid ∈ visited)); [reflexivity|].
  pose proof (H pid) as Hpid. unfold memory_of, dict_item in *.
  destruct (dict_get pid ps) as [proc|], (dict_get pid ps') as [proc'|];
    simpl in Hpid; try discriminate; [| reflexivity].
  injection Hpid as Hpid. simpl. rewrite Hpid.
  rewrite (sum_children_ext _
             (fun child_pid memo visited =>
                compute_memory_with_children d child_pid ps' children_map
                  memo visited) ps ps'); auto.
Qed.

Section Aggregator.

Variable processes : list (Z * proc_record).

Variable children_map : gmap Z (list Z).

(** An invariant of the entries of [memo], kept by every growth of [memo]
    and established for each new entry from the terms it sums. *)
Variable P : gmap Z Q -> Z -> Q -> Prop.

Hypothesis P_mono : forall memo memo' pid total,
  memo ⊆ memo' -> P memo pid total -> P memo' pid total.

Hypothesis P_step : forall memo pid self terms,
  memory_of processes pid = Some self ->
  memo !! pid = None ->
  (forall c term, memo !! c = Some term -> P memo c term) ->
  terms_of processes children_map memo pid terms ->
  let total := round2 (fold_left Qplus terms self) in
  P (<[pid := total]> memo) pid total.

Lemma terms_of_weaken memo memo' pid terms :
  memo ⊆ memo' ->
  terms_of processes children_map memo pid terms ->
  terms_of processes children_map memo' pid terms.
Proof.
  intros Hsub Hterms.
  eapply Forall2_impl; [exact Hterms|]. simpl.
  intros c term [Hc | Hz]; [left | right; exact Hz].
  eapply lookup_weaken; eauto.
Qed.

Lemma memo_inv_empty : memo_inv P ∅.
Proof. intros pid total H. rewrite lookup_empty in H. discriminate. Qed.

Lemma sum_children_spec rec visited (child_pids : list Z) :
  (forall c memo,
     In c child_pids -> dict_mem c processes = true -> memo_inv P memo ->
     call_spec P c memo visited (rec c memo visited)) ->
  forall total memo, memo_inv P memo ->
  exists terms memo',
    sum_children rec processes child_pids total memo visited =
      Ok (fold_left Qplus terms total, (memo', visited)) /\
    memo ⊆ memo' /\
    memo_inv P memo' /\
    (forall k, k ∈ visited -> memo !! k = None -> memo' !! k = None) /\
    Forall2 (fun c term => memo' !! c = Some term \/
                           (term = 0%Q /\ c ∈ visited))
      (List.filter (fun c => dict_mem c processes) child_pids) terms.
Proof.
  induction child_pids as [| c cs IH]; intros Hrec total memo Hinv; simpl.
  - exists [], memo. split; [reflexivity|]. split; [reflexivity|].
    split; [exact Hinv|]. split; [auto|]. constructor.
  - assert (Hrec' : forall c' memo0, In c' cs -> dict_mem c' processes = true ->
              memo_inv P memo0 -> call_spec P c' memo0 visited (rec c' memo0 visited)).
    { intros c' memo0 Hin. apply Hrec. now right. }
    destruct (dict_mem c processes) eqn:Hc.
    + destruct (Hrec c memo (or_introl eq_refl) Hc Hinv)
        as (sub & memo1 & Hcall & Hsub1 & Hinv1 & Hframe1 & Hres).
      rewrite Hcall. simpl.
      destruct (IH Hrec' (total + sub)%Q memo1 Hinv1)
        as (terms & memo' & Hsum & Hsub & Hinv' & Hframe & Hterms).
      exists (sub :: terms), memo'. rewrite Hsum. simpl.
      split; [reflexivity|]. split; [etransitivity; eauto|].
      split; [exact Hinv'|]. split; [auto|].
      constructor; [| exact Hterms].
      destruct Hres as [Hm | (Hz & Hv & _)]; [left | right; auto].
      eapply lookup_weaken; eauto.
    + apply IH; assumption.
Qed.

Lemma keys_measure (pid : Z) (visited : gset Z) :
  In pid (dict_keys processes) -> pid ∉ visited ->
  size (keys_set processes ∖ visited) =
  S (size (keys_set processes ∖ ({[pid]} ∪ visited))).
Proof.
  intros Hin Hnv.
  assert (E : keys_set processes ∖ visited =
              {[pid]} ∪ keys_set processes ∖ ({[pid]} ∪ visited)).
  { apply set_eq. intros x. unfold keys_set.
    rewrite elem_of_union, !elem_of_difference, elem_of_union,
      elem_of_singleton, elem_of_list_to_set_In.
    destruct (decide (x = pid)) as [-> | NE]; tauto. }
  rewrite E, size_union, size_singleton; [reflexivity|].
  set_solver.
Qed.

Lemma compute_memory_spec (depth : nat) :
  forall pid memo visited,
    In pid (dict_keys processes) ->
    (size (keys_set processes ∖ visited) < depth)%nat ->
    memo_inv P memo ->
    (forall v, v ∈ visited -> rtc (edge processes children_map) v pid) ->
    call_spec P pid memo visited
      (compute_memory_with_children depth pid processes children_map
         memo visited).
Proof.
  induction depth as [| d IH]; intros pid memo visited Hin Hsize Hinv Habove;
    [lia|].
  simpl. destruct (memo !! pid) as [total|] eqn:Hmemo.
  { exists total, memo. split; [reflexivity|]. split; [reflexivity|].
    split; [exact Hinv|]. split; [auto|]. now left. }
  destruct (decide (pid ∈ visited)) as [Hv | Hnv].
  { exists 0%Q, memo. split; [reflexivity|]. split; [reflexivity|].
    split; [exact Hinv|]. split; [auto|]. right. auto. }
  destruct (proj1 (dict_get_is_Some processes pid) Hin) as [proc Hproc].
  unfold dict_item. rewrite Hproc. simpl.
  assert (Hself : memory_of processes pid = Some (p_memory proc)).
  { unfold memory_of. now rewrite Hproc. }
  pose proof (keys_measure pid visited Hin Hnv) as Hmeasure.
  destruct (sum_children_spec
              (fun child_pid memo visited =>
                 compute_memory_with_children d child_pid processes
                   children_map memo visited)
              ({[pid]} ∪ visited) (default [] (children_map !! pid)))
    with (total := p_memory proc) (memo := memo)
    as (terms & memo' & Hsum & Hsub & Hinv' & Hframe & Hterms).
  { intros c memo0 Hc Hpresent Hinv0. apply IH; trivial.
    - now apply dict_mem_true.
    - lia.
    - assert (Hedge : edge processes children_map pid c).
      { unfold edge, present_children. apply filter_In. now split. }
      intros v Hv. apply elem_of_union in Hv as [Hv | Hv].
      + apply elem_of_singleton in Hv. subst v. now apply rtc_once.
      + eapply rtc_r; [apply Habove; exact Hv | exact Hedge]. }
  { exact Hinv. }
  rewrite Hsum. simpl.
  assert (Hfresh : memo' !! pid = None).
  { apply Hframe; [set_solver | exact Hmemo]. }
  assert (Hvis : ({[pid]} ∪ visited) ∖ {[pid]} = visited) by set_solver.
  rewrite Hvis.
  set (total := round2 (fold_left Qplus terms (p_memory proc))).
  assert (Hins : memo' ⊆ <[pid := total]> memo') by now apply insert_subseteq.
  exists total, (<[pid := total]> memo').
  split; [reflexivity|]. split; [etransitivity; eauto|].
  split; [| split].
  - intros p t Hp.
    destruct (decide (p = pid)) as [-> | NE].
    + rewrite lookup_insert_eq in Hp. injection Hp as <-.
      apply P_step; trivial.
      eapply Forall2_impl; [exact Hterms|]. simpl.
      intros c term [Hc | [Hz Hc]]; [now left | right].
      split; [exact Hz|].
      apply elem_of_union in Hc as [Hc | Hc].
      * apply elem_of_singleton in Hc. subst c. apply rtc_refl.
      * now apply Habove.
    + rewrite lookup_insert_ne in Hp by congruence.
      eapply P_mono; [exact Hins|]. now apply Hinv'.
  - intros k Hk Hnone.
    rewrite lookup_insert_ne by set_solver.
    apply Hframe; [set_solver | exact Hnone].
  - left. apply lookup_insert_eq.
Qed.

End Aggregator.

(** ** The aggregation loop of [list_process] *)

Lemma same_fields_refl proc : same_fields proc proc.
Proof. repeat split. Qed.

Lemma same_fields_trans p1 p2 p3 :
  same_fields p1 p2 -> same_fields p2 p3 -> same_fields p1 p3.
Proof. unfold same_fields. intuition congruence. Qed.

Lemma same_fields_set_total total proc : same_fields proc (set_memory_total total proc).
Proof. repeat split. Qed.

Lemma dict_similar_refl ps : dict_similar ps ps.
Proof.
  induction ps as [| a ps IH]; constructor; auto using same_fields_refl.
Qed.

Lemma dict_similar_trans ps1 ps2 ps3 :
  dict_similar ps1 ps2 -> dict_similar ps2 ps3 -> dict_similar ps1 ps3.
Proof.
  intros H. revert ps3. induction H as [| a b l1 l2 [Hk Hf] _ IH]; intros ps3 H';
    inversion H' as [| b' c l2' l3 [Hk' Hf'] Hrest]; subst; constructor.
  - split; [congruence | eapply same_fields_trans; eauto].
  - now apply IH.
Qed.

Lemma dict_similar_keys ps ps' : dict_similar ps ps' -> dict_keys ps = dict_keys ps'.
Proof.
  intros H. induction H as [| a b l1 l2 [Hk _] _ IH]; simpl; [reflexivity|].
  now rewrite Hk, IH.
Qed.

Lemma dict_similar_length ps ps' : dict_similar ps ps' -> length ps = length ps'.
Proof. apply Forall2_length. Qed.

Lemma dict_similar_get ps ps' k :
  dict_similar ps ps' ->
  match dict_get k ps, dict_get k ps' with
  | Some proc, Some proc' => same_fields proc proc'
  | None, None => True
  | _, _ => False
  end.
Proof.
  intros H. induction H as [| [k1 v1] [k2 v2] l1 l2 [Hk Hf] _ IH]; simpl in *;
    [exact I|].
  subst k2. destruct (k1 =? k); [exact Hf | exact IH].
Qed.

Lemma dict_similar_memory_of ps ps' :
  dict_similar ps ps' -> forall k, memory_of ps k = memory_of ps' k.
Proof.
  intros H k. pose proof (dict_similar_get ps ps' k H) as G. unfold memory_of.
  destruct (dict_get k ps), (dict_get k ps'); simpl; try tauto.
  destruct G as (_ & _ & _ & _ & Hm & _). now rewrite Hm.
Qed.

Lemma dict_similar_set ps k proc total :
  dict_get k ps = Some proc ->
  dict_similar ps (dict_set k (set_memory_total total proc) ps).
Proof.
  induction ps as [| [k' v'] ps IH]; simpl; [discriminate|].
  destruct (Z.eqb_spec k' k) as [-> | NE].
  - intros [= ->]. constructor; [| apply dict_similar_refl].
    split; [reflexivity | apply same_fields_set_total].
  - intros H. constructor; [| now apply IH].
    split; [reflexivity | apply same_fields_refl].
Qed.

Section AggregateLoop.

Variable processes : list (Z * proc_record).

Variable children_map : gmap Z (list Z).

Variable P : gmap Z Q -> Z -> Q -> Prop.

Hypothesis P_mono : forall memo memo' pid total,
  memo ⊆ memo' -> P memo pid total -> P memo' pid total.

Hypothesis P_step : forall memo pid self terms,
  memory_of processes pid = Some self ->
  memo !! pid = None ->
  (forall c term, memo !! c = Some term -> P memo c term) ->
  terms_of processes children_map memo pid terms ->
  let total := round2 (fold_left Qplus terms self) in
  P (<[pid := total]> memo) pid total.

Variable depth : nat.

Hypothesis depth_enough : (length processes < depth)%nat.

Lemma keys_set_size visited :
  (size (keys_set processes ∖ visited) < depth)%nat.
Proof.
  assert (H1 : (size (keys_set processes ∖ visited) <=
                size (keys_set processes))%nat).
  { apply subseteq_size. apply subseteq_difference_l. reflexivity. }
  pose proof (size_list_to_set_le (dict_keys processes)) as H2.
  unfold keys_set in *. unfold dict_keys in H2 at 2.
  rewrite length_map in H2. lia.
Qed.

(** A call from the loop: [visited] starts empty. *)
Lemma compute_memory_top pid memo :
  In pid (dict_keys processes) ->
  memo_inv P memo ->
  exists total memo',
    compute_memory_with_children depth pid processes children_map memo ∅ =
      Ok (total, (memo', ∅)) /\
    memo ⊆ memo' /\
    memo_inv P memo' /\
    memo' !! pid = Some total.
Proof.
  intros Hin Hinv.
  destruct (compute_memory_spec processes children_map P P_mono P_step depth
              pid memo ∅ Hin (keys_set_size ∅) Hinv)
    as (total & memo' & Hcall & Hsub & Hinv' & _ & Hres).
  { intros v Hv. exfalso. set_solver. }
  exists total, memo'. repeat (split; trivial).
  destruct Hres as [H | (_ & Hv & _)]; [exact H | exfalso; set_solver].
Qed.

Lemma aggregate_spec (pids : list Z) :
  forall ps memo,
    dict_similar processes ps ->
    (forall pid, In pid pids -> In pid (dict_keys processes)) ->
    memo_inv P memo ->
    exists ps' memo',
      aggregate depth pids ps children_map memo = Ok (ps', memo') /\
      dict_similar processes ps' /\
      memo ⊆ memo' /\
      memo_inv P memo' /\
      (forall k, ~ In k pids -> dict_get k ps' = dict_get k ps) /\
      (forall pid, In pid pids ->
         exists total, memo' !! pid = Some total /\
                       total_of ps' pid = Some total).
Proof.
  induction pids as [| pid rest IH]; intros ps memo Hsim Hkeys Hinv; simpl.
  - exists ps, memo. split; [reflexivity|]. split; [exact Hsim|].
    split; [reflexivity|]. split; [exact Hinv|]. split; [auto|].
    intros pid [].
  - assert (Hin : In pid (dict_keys processes)) by (apply Hkeys; now left).
    rewrite <- (compute_memory_ext processes ps children_map
                  (dict_similar_memory_of _ _ Hsim)).
    destruct (compute_memory_top pid memo Hin Hinv)
      as (total & memo1 & Hcall & Hsub1 & Hinv1 & Hpid).
    rewrite Hcall. simpl.
    assert (Hin' : In pid (dict_keys ps)).
    { now rewrite <- (dict_similar_keys _ _ Hsim). }
    destruct (proj1 (dict_get_is_Some ps pid) Hin') as [proc Hproc].
    unfold dict_item. rewrite Hproc. simpl.
    set (ps1 := dict_set pid (set_memory_total total proc) ps).
    assert (Hsim1 : dict_similar processes ps1).
    { eapply dict_similar_trans; [exact Hsim|]. now apply dict_similar_set. }
    destruct (IH ps1 memo1 Hsim1) as
      (ps' & memo' & Hagg & Hsim' & Hsub & Hinv' & Hframe & Htotals);
      [intros q Hq; apply Hkeys; now right | exact Hinv1 |].
    exists ps', memo'. split; [exact Hagg|]. split; [exact Hsim'|].
    split; [etransitivity; eauto|]. split; [exact Hinv'|]. split.
    + intros k Hk. rewrite Hframe by tauto.
      unfold ps1. rewrite dict_get_set.
      destruct (Z.eqb_spec pid k); [tauto | reflexivity].
    + intros q [<- | Hq]; [| now apply Htotals].
      destruct (in_dec Z.eq_dec pid rest) as [Hr | Hr]; [now apply Htotals|].
      exists total. split; [eapply lookup_weaken; eauto|].
      unfold total_of. rewrite (Hframe pid Hr). unfold ps1.
      rewrite dict_get_set, Z.eqb_refl. reflexivity.
Qed.

(** The whole loop, as [list_process] runs it. *)
Lemma aggregate_all :
  exists ps' memo,
    aggregate depth (dict_keys processes) processes children_map ∅ =
      Ok (ps', memo) /\
    dict_similar processes ps' /\
    memo_inv P memo /\
    (forall pid, In pid (dict_keys processes) ->
       exists total, memo !! pid = Some total /\ total_of ps' pid = Some total).
Proof.
  destruct (aggregate_spec (dict_keys processes) processes ∅
              (dict_similar_refl _) (fun _ H => H)
              (memo_inv_empty P))
    as (ps' & memo & Hagg & Hsim & _ & Hinv & _ & Htotals).
  exists ps', memo. auto.
Qed.

End AggregateLoop.

(** ** Sums of terms *)

Lemma fold_left_Qplus_sum (terms : list Q) :
  forall acc, (fold_left Qplus terms acc == acc + Qsum terms)%Q.
Proof.
  induction terms as [| t terms IH]; intros acc; simpl.
  - ring.
  - rewrite IH. ring.
Qed.

Lemma Qsum_nonneg (terms : list Q) :
  Forall (fun t => 0 <= t)%Q terms -> (0 <= Qsum terms)%Q.
Proof.
  induction 1 as [| t terms Ht _ IH]; simpl; [apply Qle_refl|]. lra.
Qed.

Lemma Forall2_Forall_right {A B : Type} (R : A -> B -> Prop) (Pr : B -> Prop)
    (l : list A) (l' : list B) :
  Forall2 R l l' -> (forall a b, In a l -> R a b -> Pr b) -> Forall Pr l'.
Proof.
  induction 1 as [| a b l l' Hab _ IH]; intros H; constructor.
  - apply (H a b); [now left | exact Hab].
  - apply IH. intros a' b' Hin. apply H. now right.
Qed.

Lemma Forall2_impl_In {A B : Type} (R R' : A -> B -> Prop)
    (l : list A) (l' : list B) :
  Forall2 R l l' -> (forall a b, In a l -> R a b -> R' a b) -> Forall2 R' l l'.
Proof.
  induction 1 as [| a b l l' Hab _ IH]; intros H; constructor.
  - apply H; [now left | exact Hab].
  - apply IH. intros a' b' Hin. apply H. now right.
Qed.

(** ** Totals are no less than the own memory *)

Lemma sane_memory_of processes pid self :
  sane_memory processes = true ->
  memory_of processes pid = Some self ->
  (0 <= self /\ round2 self == self)%Q.
Proof.
  intros Hsane Hself. unfold memory_of in Hself.
  destruct (dict_get pid processes) as [proc|] eqn:Hproc; [| discriminate].
  injection Hself as <-.
  apply dict_get_Some_In in Hproc.
  unfold sane_memory in Hsane. rewrite forallb_forall in Hsane.
  apply Hsane in Hproc. simpl in Hproc.
  apply andb_true_iff in Hproc as [H0 Hr].
  split; [now apply Qle_bool_iff | now apply Qeq_bool_iff].
Qed.

Section TotalGeSelf.

Variable processes : list (Z * proc_record).

Variable children_map : gmap Z (list Z).

Hypothesis Hsane : sane_memory processes = true.

Lemma total_ge_self_mono memo memo' pid total :
  memo ⊆ memo' ->
  total_ge_self processes memo pid total ->
  total_ge_self processes memo' pid total.
Proof. intros _ H. exact H. Qed.

Lemma total_ge_self_step memo pid self terms :
  memory_of processes pid = Some self ->
  memo !! pid = None ->
  (forall c term, memo !! c = Some term -> total_ge_self processes memo c term) ->
  terms_of processes children_map memo pid terms ->
  let total := round2 (fold_left Qplus terms self) in
  total_ge_self processes (<[pid := total]> memo) pid total.
Proof.
  intros Hself _ Hmemo Hterms total. exists self. split; [exact Hself|].
  destruct (sane_memory_of _ _ _ Hsane Hself) as [H0 Hr].
  assert (Hnn : Forall (fun t => 0 <= t)%Q terms).
  { eapply Forall2_Forall_right; [exact Hterms|]. simpl.
    intros c term _ [Hc | [-> _]]; [| apply Qle_refl].
    destruct (Hmemo c term Hc) as (sc & Hsc & Hle).
    destruct (sane_memory_of _ _ _ Hsane Hsc) as [Hc0 _]. lra. }
  apply Qsum_nonneg in Hnn.
  assert (Hle : (self <= fold_left Qplus terms self)%Q).
  { rewrite fold_left_Qplus_sum. lra. }
  apply round2_mono in Hle. unfold total. lra.
Qed.

End TotalGeSelf.



(** ** Termination and cycles *)

Lemma compute_memory_missing_key depth pid processes children_map memo visited :
  ~ In pid (dict_keys processes) -> memo !! pid = None -> pid ∉ visited ->
  compute_memory_with_children (S depth) pid processes children_map memo visited =
    Raise KeyError.
Proof.
  intros Hk Hm Hv. simpl. rewrite Hm.
  destruct (decide (pid ∈ visited)); [contradiction|].
  apply dict_get_None in Hk. unfold dict_item. now rewrite Hk.
Qed.

Lemma compute_memory_revisit depth pid processes children_map memo visited :
  pid ∈ visited -> memo !! pid = None ->
  compute_memory_with_children (S depth) pid processes children_map memo visited =
    Ok (0%Q, (memo, visited)).
Proof.
  intros Hv Hm. simpl. rewrite Hm.
  destruct (decide (pid ∈ visited)); [reflexivity | contradiction].
Qed.

(** C5: with a call stack deeper than the number of processes,
    [compute_memory_with_children] returns for every pid of the snapshot,
    whatever the index and the memo, and memoises the total it returns; a
    pid outside the snapshot ends the call at once with [KeyError]; a pid
    that is on the stack and not yet memoised yields zero and changes
    nothing; and on sane memory values each call keeps every memoised total
    no less than the own memory of its pid. *)
Theorem compute_memory_cycle_safe (processes : list (Z * proc_record))
    (children_map : gmap Z (list Z)) (depth : nat)
    (Hdepth : (length processes < depth)%nat) :
  (forall pid memo, In pid (dict_keys processes) ->
     exists total memo',
       compute_memory_with_children depth pid processes children_map memo ∅ =
         Ok (total, (memo', ∅)) /\
       memo ⊆ memo' /\ memo' !! pid = Some total) /\
  (forall pid memo, ~ In pid (dict_keys processes) -> memo !! pid = None ->
     compute_memory_with_children depth pid processes children_map memo ∅ =
       Raise KeyError) /\
  (forall pid memo visited, pid ∈ visited -> memo !! pid = None ->
     compute_memory_with_children depth pid processes children_map memo visited =
       Ok (0%Q, (memo, visited))) /\
  (sane_memory processes = true ->
   forall pid memo, In pid (dict_keys processes) -> at_least_self processes memo ->
     exists total memo' self,
       compute_memory_with_children depth pid processes children_map memo ∅ =
         Ok (total, (memo', ∅)) /\
       memo' !! pid = Some total /\
       memory_of processes pid = Some self /\
       (self <= total)%Q /\
       at_least_self processes memo').
Proof.
  destruct depth as [| d]; [lia|].
  split; [| split; [| split]].
  - intros pid memo Hin.
    destruct (compute_memory_top processes children_map no_invariant
                (fun _ _ _ _ _ _ => I) (fun _ _ _ _ _ _ _ _ => I)
                (S d) Hdepth pid memo Hin)
      as (total & memo' & Hcall & Hsub & _ & Hpid).
    { intros p t _. exact I. }
    exists total, memo'. auto.
  - intros pid memo Hk Hm. apply compute_memory_missing_key; trivial.
    set_solver.
  - intros pid memo visited. apply compute_memory_revisit.
  - intros Hsane pid memo Hin Hinv.
    destruct (compute_memory_top processes children_map (total_ge_self processes)
                (total_ge_self_mono processes)
                (total_ge_self_step processes children_map Hsane)
                (S d) Hdepth pid memo Hin Hinv)
      as (total & memo' & Hcall & Hsub & Hinv' & Hpid).
    destruct (Hinv' pid total Hpid) as (self & Hself & Hle).
    exists total, memo', self. auto.
Qed.

(** The cycle of 5 and 7, started at 5: the revisit of 5 below 7 counts for
    zero, 7 is memoised with its own 2.5 and 5 with 1.5 + 2.5. *)
Example compute_memory_example_cycle :
  compute_memory_with_children 3 5 example_cycle example_cycle_index ∅ ∅ =
    Ok ((400 # 100)%Q, (<[5 := (400 # 100)%Q]> (<[7 := (250 # 100)%Q]> ∅), ∅)).
Proof. vm_compute. reflexivity. Qed.

Lemma compute_memory_cycle_safe_witness :
  (length example_cycle < 3)%nat /\
  (exists total memo',
     compute_memory_with_children 3 5 example_cycle example_cycle_index ∅ ∅ =
       Ok (total, (memo', ∅)) /\
     memo' !! 5 = Some total /\
     (3 # 2 <= total)%Q) /\
  (exists total memo',
     compute_memory_with_children 3 7 example_cycle example_cycle_index ∅ ∅ =
       Ok (total, (memo', ∅)) /\
     memo' !! 7 = Some total /\
     (5 # 2 <= total)%Q).
Proof.
  assert (Hdepth : (length example_cycle < 3)%nat) by (simpl; lia).
  pose proof (compute_memory_cycle_safe example_cycle example_cycle_index 3 Hdepth)
    as (_ & _ & _ & Hsafe).
  split; [exact Hdepth|]. split.
  - destruct (Hsafe eq_refl 5 ∅)
      as (total & memo' & self & Hcall & Hm & Hs & Hle & _).
    + simpl. tauto.
    + apply memo_inv_empty.
    + exists total, memo'. split; [exact Hcall|]. split; [exact Hm|].
      injection Hs as <-. exact Hle.
  - destruct (Hsafe eq_refl 7 ∅)
      as (total & memo' & self & Hcall & Hm & Hs & Hle & _).
    + simpl. tauto.
    + apply memo_inv_empty.
    + exists total, memo'. split; [exact Hcall|]. split; [exact Hm|].
      injection Hs as <-. exact Hle.
Defined.

(** ** The sum over children on an acyclic index *)

Lemma summed_mono processes children_map memo memo' pid total :
  memo ⊆ memo' ->
  summed processes children_map memo pid total ->
  summed processes children_map memo' pid total.
Proof.
  intros Hsub (self & terms & Hself & Htotal & Hterms).
  exists self, terms. repeat split; trivial.
  eapply terms_of_weaken; eauto.
Qed.

Lemma summed_step processes children_map memo pid self terms :
  memory_of processes pid = Some self ->
  memo !! pid = None ->
  (forall c term, memo !! c = Some term ->
     summed processes children_map memo c term) ->
  terms_of processes children_map memo pid terms ->
  let total := round2 (fold_left Qplus terms self) in
  summed processes children_map (<[pid := total]> memo) pid total.
Proof.
  intros Hself Hfresh _ Hterms total. exists self, terms.
  repeat split; trivial.
  eapply terms_of_weaken; [| exact Hterms]. now apply insert_subseteq.
Qed.

Lemma ranked_acyclic processes children_map (rank : Z -> nat) :
  (forall p c, edge processes children_map p c -> (rank c < rank p)%nat) ->
  acyclic processes children_map.
Proof.
  intros Hrank.
  assert (H : forall p q, tc (edge processes children_map) p q ->
                          (rank q < rank p)%nat).
  { induction 1 as [p q Hpq | p q r Hpq _ IH].
    - now apply Hrank.
    - apply Hrank in Hpq. lia. }
  intros pid Hcycle. apply H in Hcycle. lia.
Qed.

(** C3: on an acyclic index the aggregation loop returns the snapshot it
    was given, with the same keys in the same order and every field but
    ["memory_total"] as it was; the total it stores for each pid, which is
    the value [compute_memory_with_children] memoised for that pid, is the
    own memory the given snapshot holds for that pid plus the totals stored
    for those of its indexed children that are in the snapshot, rounded to
    two decimals; it differs from the exact sum by at most 0.01 (indeed by
    at most 0.005). *)
Theorem aggregate_sum_acyclic (processes : list (Z * proc_record))
    (children_map : gmap Z (list Z)) (depth : nat)
    (Hdepth : (length processes < depth)%nat)
    (Hacyclic : acyclic processes children_map) :
  exists processes' memo,
    aggregate depth (dict_keys processes) processes children_map ∅ =
      Ok (processes', memo) /\
    dict_similar processes processes' /\
    forall pid, In pid (dict_keys processes) ->
      exists self proc total terms,
        memory_of processes pid = Some self /\
        dict_get pid processes' = Some proc /\
        p_memory proc = self /\
        p_memory_total proc = Some total /\
        memo !! pid = Some total /\
        Forall2 (fun c term => total_of processes' c = Some term)
          (present_children processes children_map pid) terms /\
        (total == round2 (self + Qsum terms))%Q /\
        (Qabs (total - (self + Qsum terms)) <= 1 # 100)%Q.
Proof.
  destruct (aggregate_all processes children_map (summed processes children_map)
              (summed_mono processes children_map)
              (summed_step processes children_map)
              depth Hdepth)
    as (ps' & memo & Hagg & Hsim & Hinv & Htotals).
  exists ps', memo. split; [exact Hagg|]. split; [exact Hsim|].
  intros pid Hin. destruct (Htotals pid Hin) as (total & Hmemo & Htotal).
  unfold total_of in Htotal.
  destruct (dict_get pid ps') as [proc|] eqn:Hproc; [| discriminate].
  destruct (Hinv pid total Hmemo) as (self & terms & Hself & Hsum & Hterms).
  pose proof Hself as Hself'.
  rewrite (dict_similar_memory_of _ _ Hsim) in Hself'.
  unfold memory_of in Hself'. rewrite Hproc in Hself'. simpl in Hself'.
  injection Hself' as Hself'.
  exists self, proc, total, terms. subst self.
  split; [exact Hself|]. split; [reflexivity|]. split; [reflexivity|].
  split; [exact Htotal|]. split; [exact Hmemo|].
  assert (Hexact : (fold_left Qplus terms (p_memory proc) ==
                    p_memory proc + Qsum terms)%Q)
    by apply fold_left_Qplus_sum.
  split; [| split].
  - eapply Forall2_impl_In; [exact Hterms|]. simpl.
    intros c term Hc [Hm | [_ Hback]].
    + assert (Hck : In c (dict_keys processes)).
      { unfold present_children in Hc. apply filter_In in Hc as [_ Hc].
        now apply dict_mem_true. }
      destruct (Htotals c Hck) as (t' & Hm' & Ht').
      rewrite Hm in Hm'. injection Hm' as <-. exact Ht'.
    + exfalso. apply (Hacyclic pid).
      eapply tc_rtc_r; [apply tc_once; exact Hc | exact Hback].
  - rewrite Hsum. now apply round2_comp.
  - rewrite Hsum.
    pose proof (round2_near (fold_left Qplus terms (p_memory proc))) as Hnear.
    apply Qabs_Qle_condition in Hnear. apply Qabs_Qle_condition.
    split; lra.
Qed.

Lemma example_tree_acyclic : acyclic example_tree example_tree_index.
Proof.
  apply (ranked_acyclic _ _
           (fun p => if p =? 0 then 3%nat else if p =? 1 then 2%nat
                     else if p =? 2 then 1%nat else 0%nat)).
  intros p c. unfold edge, present_children, example_tree_index.
  rewrite !lookup_insert. rewrite lookup_empty.
  repeat case_decide; subst; simpl; intros Hin;
    repeat (destruct Hin as [<- | Hin]; [simpl; lia|]); destruct Hin.
Qed.

Lemma aggregate_sum_acyclic_witness :
  exists processes' memo,
    aggregate 5 (dict_keys example_tree) example_tree example_tree_index ∅ =
      Ok (processes', memo) /\
    dict_similar example_tree processes' /\
    forall pid, In pid (dict_keys example_tree) ->
      exists self proc total terms,
        memory_of example_tree pid = Some self /\
        dict_get pid processes' = Some proc /\
        p_memory proc = self /\
        p_memory_total proc = Some total /\
        memo !! pid = Some total /\
        Forall2 (fun c term => total_of processes' c = Some term)
          (present_children example_tree example_tree_index pid) terms /\
        (total == round2 (self + Qsum terms))%Q /\
        (Qabs (total - (self + Qsum terms)) <= 1 # 100)%Q.
Proof.
  apply (aggregate_sum_acyclic example_tree example_tree_index 5).
  - simpl. lia.
  - exact example_tree_acyclic.
Defined.

Example aggregate_example_tree :
  (p ← aggregate 5 (dict_keys example_tree) example_tree example_tree_index ∅;
   Ok (map (fun pid => total_of (fst p) pid) [1; 2; 3; 4])) =
  Ok [Some (550 # 100)%Q; Some (350 # 100)%Q; Some (75 # 100)%Q; Some (100 # 100)%Q].
Proof. vm_compute. reflexivity. Qed.

(** ** The scan *)

Lemma scan_one_dropped {lc : StrLower} depth os filter st proc :
  read_fails (os_memory_percent os (info_pid proc)) ->
  scan_one depth os filter st proc = Ok st.
Proof.
  intros Hfail. unfold scan_one, scan_body. destruct st as [processes children_map].
  destruct filter as [[pid | name] |]; simpl;
    repeat match goal with
           | |- context [if negb ?b then _ else _] => destruct b; simpl
           end;
    try reflexivity;
    destruct Hfail as [-> | ->]; reflexivity.
Qed.

Lemma scan_app {lc : StrLower} depth os filter l1 l2 st :
  scan depth os filter (l1 ++ l2) st =
  (st' ← scan depth os filter l1 st; scan depth os filter l2 st').
Proof.
  revert st. induction l1 as [| p l1 IH]; intros st; simpl; [reflexivity|].
  destruct (scan_one depth os filter st p) as [st1 | e]; simpl;
    [apply IH | reflexivity].
Qed.

Lemma scan_dropped {lc : StrLower} depth os filter before proc after st :
  read_fails (os_memory_percent os (info_pid proc)) ->
  scan depth os filter (before ++ proc :: after) st =
  scan depth os filter (before ++ after) st.
Proof.
  intros Hfail. rewrite !scan_app.
  destruct (scan depth os filter before st) as [st1 | e]; simpl; [| reflexivity].
  now rewrite scan_one_dropped.
Qed.

Lemma scan_one_answered {lc : StrLower} depth os filter st proc st' :
  memory_answered os st ->
  scan_one depth os filter st proc = Ok st' ->
  memory_answered os st'.
Proof.
  intros Hst. unfold scan_one, scan_body. destruct st as [processes children_map].
  match goal with
  | |- context [if ?b then _ else _] => destruct b
  end; simpl.
  { intros [= <-]. exact Hst. }
  destruct (os_memory_percent os (info_pid proc)) as [m | |] eqn:Hm; simpl;
    try (intros [= <-]; exact Hst).
  destruct (get_parent_tree depth os (info_pid proc)) as [t | e] eqn:Ht; simpl.
  - intros [= <-]. destruct Hst as [Hkeys Hchildren]. split; simpl in *.
    + intros k. rewrite dict_keys_set.
      destruct (dict_mem (info_pid proc) processes); [apply Hkeys|].
      rewrite in_app_iff. intros [Hk | [<- | []]]; eauto.
    + intros parent children c.
      destruct (decide (info_ppid proc = parent)) as [<- | NE].
      * rewrite lookup_insert_eq. intros [= <-]. rewrite in_app_iff.
        intros [Hc | [<- | []]]; [| eauto].
        destruct (children_map !! info_ppid proc) as [cs|] eqn:Hcs;
          simpl in Hc; [eapply Hchildren; eauto | destruct Hc].
      * rewrite lookup_insert_ne by exact NE. apply Hchildren.
  - destruct (psutil_error e); intros [= <-]. exact Hst.
Qed.

Lemma scan_answered {lc : StrLower} depth os filter procs :
  forall st st', memory_answered os st ->
  scan depth os filter procs st = Ok st' -> memory_answered os st'.
Proof.
  induction procs as [| p procs IH]; intros st st' Hst; simpl.
  - intros [= <-]. exact Hst.
  - destruct (scan_one depth os filter st p) as [st1 | e] eqn:H1; simpl;
      [| discriminate].
    apply IH. eapply scan_one_answered; eauto.
Qed.

Lemma aggregate_similar depth children_map pids :
  forall ps memo ps' memo',
    aggregate depth pids ps children_map memo = Ok (ps', memo') ->
    dict_similar ps ps'.
Proof.
  induction pids as [| pid rest IH]; intros ps memo ps' memo'; simpl.
  - intros [= <- _]. apply dict_similar_refl.
  - destruct (compute_memory_with_children depth pid ps children_map memo ∅)
      as [[total [memo1 visited1]] | e]; simpl; [| discriminate].
    unfold dict_item. destruct (dict_get pid ps) as [proc|] eqn:Hproc; simpl;
      [| discriminate].
    intros H. apply IH in H.
    eapply dict_similar_trans; [| exact H]. now apply dict_similar_set.
Qed.

(** [list_process] returns the scanned index, and the scanned records with
    ["memory_total"] set. *)
Lemma list_process_scan {lc : StrLower}
    depth os filter procs processes children_map :
  list_process depth os filter procs = Ok (processes, children_map) ->
  exists scanned,
    scan depth os filter procs ([], ∅) = Ok (scanned, children_map) /\
    dict_similar scanned processes.
Proof.
  unfold list_process.
  destruct (scan depth os filter procs ([], ∅)) as [[scanned cm] | e]; simpl;
    [| discriminate].
  destruct (aggregate depth (dict_keys scanned) scanned cm ∅)
    as [[ps' memo] | e] eqn:Hagg; simpl; [| discriminate].
  intros [= <- <-]. exists scanned. split; [reflexivity|].
  eapply aggregate_similar; eauto.
Qed.

(** Inside the [try] of the scan only the memory read lets a signal of
    psutil through: [proc.info] is prefetched and [get_parent_tree] handles
    its own. *)
Lemma scan_body_signal {lc : StrLower} depth os filter st proc e :
  scan_body depth os filter st proc = Raise e -> psutil_error e = true ->
  read_fails (os_memory_percent os (info_pid proc)).
Proof.
  unfold scan_body. destruct st as [processes children_map].
  match goal with
  | |- context [if ?b then _ else _] => destruct b
  end; [discriminate|].
  destruct (os_memory_percent os (info_pid proc)) as [m | |]; simpl;
    [| intros _ _; now left | intros _ _; now right].
  destruct (get_parent_tree depth os (info_pid proc)) as [t | e'] eqn:Ht; simpl;
    [discriminate|].
  intros [= <-] He. apply get_parent_tree_raises in Ht. subst e'. discriminate.
Qed.

(** A denied parent query is handled inside [get_parent_tree]: the process
    stays in the snapshot, with an empty ancestor chain. *)
Example scan_parent_denied :
  (s ← list_process 10 guarded_os None [raw 3 1 "c"];
   Ok (map (fun entry => (fst entry, p_ppids (snd entry))) (fst s))) =
  Ok [(3, NoParent)].
Proof. vm_compute. reflexivity. Qed.

(** ** The totals of a snapshot *)

Lemma sane_memory_set processes k proc :
  sane_memory processes = true ->
  (0 <= p_memory proc)%Q -> (round2 (p_memory proc) == p_memory proc)%Q ->
  sane_memory (dict_set k proc processes) = true.
Proof.
  intros Hs H0 Hr. unfold sane_memory in *.
  assert (Hproc : Qle_bool 0 (p_memory proc) &&
                  Qeq_bool (round2 (p_memory proc)) (p_memory proc) = true).
  { apply andb_true_iff. split; [now apply Qle_bool_iff | now apply Qeq_bool_iff]. }
  induction processes as [| [k' v'] ps IH]; simpl in *.
  - now rewrite Hproc.
  - apply andb_true_iff in Hs as [Hhd Htl].
    destruct (k' =? k); simpl.
    + now rewrite Hproc, Htl.
    + rewrite Hhd. simpl. now apply IH.
Qed.

Lemma scan_one_sane {lc : StrLower} depth os filter st proc st' :
  (forall pid m, os_memory_percent os pid = Answer m -> (0 <= m)%Q) ->
  sane_memory (fst st) = true ->
  scan_one depth os filter st proc = Ok st' ->
  sane_memory (fst st') = true /\
  (length (fst st') <= S (length (fst st)))%nat.
Proof.
  intros Hos Hst. unfold scan_one, scan_body. destruct st as [processes children_map].
  match goal with
  | |- context [if ?b then _ else _] => destruct b
  end; simpl.
  { intros [= <-]. simpl. split; [exact Hst | lia]. }
  destruct (os_memory_percent os (info_pid proc)) as [m | |] eqn:Hm; simpl;
    try (intros [= <-]; simpl; split; [exact Hst | lia]).
  destruct (get_parent_tree depth os (info_pid proc)) as [t | e]; simpl.
  - intros [= <-]. simpl in *. split.
    + apply sane_memory_set; simpl; trivial.
      * apply round2_nonneg. eapply Hos; eauto.
      * apply round2_idempotent.
    + assert (Hl : length (dict_keys (dict_set (info_pid proc)
                     {| p_pid := info_pid proc; p_ppid := info_ppid proc;
                        p_name := default EmptyString (info_name proc);
                        p_username := normalize_username (info_username proc);
                        p_memory := round2 m; p_ppids := t;
                        p_memory_total := None |} processes)) =
                   length (if dict_mem (info_pid proc) processes
                           then dict_keys processes
                           else (dict_keys processes ++ [info_pid proc])%list))
        by now rewrite dict_keys_set.
      unfold dict_keys in Hl at 1. rewrite length_map in Hl. rewrite Hl.
      destruct (dict_mem (info_pid proc) processes); unfold dict_keys;
        [| rewrite length_app]; rewrite length_map; simpl; lia.
  - destruct (psutil_error e); intros [= <-]. simpl. split; [exact Hst | lia].
Qed.

Lemma scan_sane {lc : StrLower} depth os filter procs :
  (forall pid m, os_memory_percent os pid = Answer m -> (0 <= m)%Q) ->
  forall st st',
    sane_memory (fst st) = true ->
    scan depth os filter procs st = Ok st' ->
    sane_memory (fst st') = true /\
    (length (fst st') <= length procs + length (fst st))%nat.
Proof.
  intros Hos. induction procs as [| p procs IH]; intros st st' Hst; simpl.
  - intros [= <-]. split; [exact Hst | lia].
  - destruct (scan_one depth os filter st p) as [st1 | e] eqn:H1; simpl;
      [| discriminate].
    destruct (scan_one_sane _ _ _ _ _ _ Hos Hst H1) as [Hs1 Hl1].
    intros H. destruct (IH st1 st' Hs1 H) as [Hs' Hl']. split; [exact Hs' | lia].
Qed.

(** The records [list_process] returns: when psutil reports non-negative
    memory percentages and the call stack is deeper than the number of
    processes, every record holds a total, and the total is no less than
    the record's own memory. *)
Lemma list_process_totals {lc : StrLower}
    depth os filter procs processes children_map :
  (forall pid m, os_memory_percent os pid = Answer m -> (0 <= m)%Q) ->
  (length procs < depth)%nat ->
  list_process depth os filter procs = Ok (processes, children_map) ->
  forall pid proc, dict_get pid processes = Some proc ->
    exists total, p_memory_total proc = Some total /\ (p_memory proc <= total)%Q.
Proof.
  intros Hos Hdepth. unfold list_process.
  destruct (scan depth os filter procs ([], ∅)) as [[scanned cm] | e] eqn:Hscan;
    simpl; [| discriminate].
  destruct (scan_sane _ _ _ _ Hos ([], ∅) _ eq_refl Hscan) as [Hsane Hlen].
  simpl in Hsane, Hlen.
  destruct (aggregate_all scanned cm (total_ge_self scanned)
              (total_ge_self_mono scanned)
              (total_ge_self_step scanned cm Hsane) depth)
    as (ps' & memo & Hagg & Hsim & Hinv & Htotals); [lia|].
  rewrite Hagg. simpl. intros [= <- <-] pid proc Hget.
  assert (Hin : In pid (dict_keys scanned)).
  { rewrite (dict_similar_keys _ _ Hsim). apply dict_get_is_Some. eauto. }
  destruct (Htotals pid Hin) as (total & Hmemo & Htotal).
  unfold total_of in Htotal. rewrite Hget in Htotal.
  exists total. split; [exact Htotal|].
  destruct (Hinv pid total Hmemo) as (self & Hself & Hle).
  rewrite (dict_similar_memory_of _ _ Hsim) in Hself.
  unfold memory_of in Hself. rewrite Hget in Hself. simpl in Hself.
  injection Hself as ->. exact Hle.
Qed.

(** ** Sorting *)

Lemma string_ltb_irrefl (s : string) : String.ltb s s = false.
Proof.
  unfold String.ltb.
  pose proof (String.compare_antisym s s) as H.
  destruct (String.compare s s); simpl in H; congruence.
Qed.

(** Two keys equal to a third are not ordered by [<]. *)
Lemma key_eqb_not_ltb (x y k : sort_value) :
  key_eqb x k = true -> key_eqb y k = true -> key_ltb y x = false.
Proof.
  destruct x as [s | p], y as [t | q], k as [u | r]; simpl; try discriminate.
  - intros Hx Hy. apply String.eqb_eq in Hx, Hy. subst. apply string_ltb_irrefl.
  - intros Hx Hy. apply Qeq_bool_iff in Hx, Hy.
    apply negb_false_iff, Qle_bool_iff. rewrite Hx, Hy. apply Qle_refl.
Qed.

Lemma key_eqb_refl (k : sort_value) : key_eqb k k = true.
Proof.
  destruct k as [s | q]; simpl; [apply String.eqb_refl|].
  apply Qeq_bool_iff. reflexivity.
Qed.

Section StableSort.

Context {A : Type}.

Implicit Types (l : list (sort_value * A)) (x : sort_value * A).

Lemma filter_insert_sorted k x l :
  List.filter (with_key k) (insert_sorted x l) =
  if with_key k x then x :: List.filter (with_key k) l
  else List.filter (with_key k) l.
Proof.
  induction l as [| y l IH]; simpl; [reflexivity|].
  destruct (key_ltb (fst y) (fst x)) eqn:Hlt; simpl.
  - rewrite IH.
    destruct (with_key k y) eqn:Hy, (with_key k x) eqn:Hx; trivial.
    unfold with_key in *.
    rewrite (key_eqb_not_ltb _ _ _ Hx Hy) in Hlt. discriminate.
  - reflexivity.
Qed.

Lemma filter_stable_sort k l :
  List.filter (with_key k) (stable_sort l) = List.filter (with_key k) l.
Proof.
  induction l as [| x l IH]; simpl; [reflexivity|].
  rewrite filter_insert_sorted, IH. reflexivity.
Qed.

Lemma filter_rev (f : sort_value * A -> bool) l :
  List.filter f (rev l) = rev (List.filter f l).
Proof.
  induction l as [| x l IH]; simpl; [reflexivity|].
  rewrite List.filter_app, IH. simpl.
  destruct (f x); simpl; [reflexivity | now rewrite app_nil_r].
Qed.

Lemma insert_sorted_perm x l : Permutation (x :: l) (insert_sorted x l).
Proof.
  induction l as [| y l IH]; simpl; [reflexivity|].
  destruct (key_ltb (fst y) (fst x)); [| reflexivity].
  rewrite <- IH. apply perm_swap.
Qed.

Lemma stable_sort_perm l : Permutation l (stable_sort l).
Proof.
  induction l as [| x l IH]; simpl; [reflexivity|].
  rewrite <- insert_sorted_perm. now constructor.
Qed.

Lemma filter_order_decorated reverse k l :
  List.filter (with_key k) (order_decorated reverse l) =
  List.filter (with_key k) l.
Proof.
  destruct reverse; simpl; [| apply filter_stable_sort].
  rewrite filter_rev, filter_stable_sort, filter_rev. apply rev_involutive.
Qed.

Lemma order_decorated_perm reverse l : Permutation l (order_decorated reverse l).
Proof.
  destruct reverse; simpl; [| apply stable_sort_perm].
  rewrite <- Permutation_rev, <- stable_sort_perm. apply Permutation_rev.
Qed.

Variable key : A -> outcome sort_value.

Lemma for_each_keys (l : list A) (keys : list sort_value) :
  for_each key l = Ok keys ->
  Forall (decorated_by key) (combine keys l) /\ map snd (combine keys l) = l.
Proof.
  revert keys. induction l as [| a l IH]; intros keys; simpl.
  - intros [= <-]. split; [constructor | reflexivity].
  - destruct (key a) as [v | e] eqn:Hv; simpl; [| discriminate].
    destruct (for_each key l) as [vs | e]; simpl; [| discriminate].
    intros [= <-]. destruct (IH vs eq_refl) as [Hd Hs]. simpl. split.
    + constructor; [exact Hv | exact Hd].
    + now rewrite Hs.
Qed.

Lemma filter_map_snd k l :
  Forall (decorated_by key) l ->
  List.filter (has_key key k) (map snd l) = map snd (List.filter (with_key k) l).
Proof.
  induction 1 as [| x l Hx _ IH]; simpl; [reflexivity|].
  unfold has_key at 1. rewrite Hx. fold (with_key k x).
  destruct (with_key k x); simpl; now rewrite IH.
Qed.

(** [sorted] is stable: for every key, the elements with that key come
    out in the order in which they went in. *)
Lemma sorted_stable reverse (l l' : list A) :
  sorted key reverse l = Ok l' ->
  forall k, List.filter (has_key key k) l' = List.filter (has_key key k) l.
Proof.
  unfold sorted. destruct (for_each key l) as [keys | e] eqn:Hkeys; simpl;
    [| discriminate].
  intros [= <-] k. destruct (for_each_keys l keys Hkeys) as [Hd Hs].
  fold (order_decorated reverse (combine keys l)).
  rewrite filter_map_snd.
  - rewrite filter_order_decorated, <- filter_map_snd, Hs; trivial.
  - rewrite List.Forall_forall in *. intros x Hx. apply Hd.
    apply Permutation_in with (l := order_decorated reverse (combine keys l));
      [| exact Hx].
    symmetry. apply order_decorated_perm.
Qed.

Lemma sorted_perm reverse (l l' : list A) :
  sorted key reverse l = Ok l' -> Permutation l l'.
Proof.
  unfold sorted. destruct (for_each key l) as [keys | e] eqn:Hkeys; simpl;
    [| discriminate].
  intros [= <-]. destruct (for_each_keys l keys Hkeys) as [_ Hs].
  rewrite <- Hs at 1. apply Permutation_map.
  fold (order_decorated reverse (combine keys l)). apply order_decorated_perm.
Qed.

End StableSort.

(** ** The sort orders *)

Lemma ascii_compare_lt_trans (a b c : ascii) :
  Ascii.compare a b = Lt -> Ascii.compare b c = Lt -> Ascii.compare a c = Lt.
Proof.
  unfold Ascii.compare. rewrite !N.compare_lt_iff. apply N.lt_trans.
Qed.

Lemma string_compare_lt_trans (s t u : string) :
  String.compare s t = Lt -> String.compare t u = Lt -> String.compare s u = Lt.
Proof.
  revert t u. induction s as [| a s IH]; intros [| b t] [| c u]; simpl;
    try discriminate; trivial.
  destruct (Ascii.compare a b) eqn:Hab; try discriminate;
    destruct (Ascii.compare b c) eqn:Hbc; try discriminate; intros H1 H2.
  - apply Ascii.compare_eq_iff in Hab, Hbc. subst.
    assert (E : Ascii.compare c c = Eq).
    { pose proof (Ascii.compare_antisym c c) as Hc.
      destruct (Ascii.compare c c); simpl in Hc; congruence. }
    rewrite E. eapply IH; eauto.
  - apply Ascii.compare_eq_iff in Hab. subst. now rewrite Hbc.
  - apply Ascii.compare_eq_iff in Hbc. subst. now rewrite Hab.
  - now rewrite (ascii_compare_lt_trans _ _ _ Hab Hbc).
Qed.

Lemma string_ltb_trans (s t u : string) :
  String.ltb s t = true -> String.ltb t u = true -> String.ltb s u = true.
Proof.
  unfold String.ltb. intros H1 H2.
  destruct (String.compare s t) eqn:E1; try discriminate.
  destruct (String.compare t u) eqn:E2; try discriminate.
  now rewrite (string_compare_lt_trans _ _ _ E1 E2).
Qed.

Lemma string_ltb_cases (s t : string) :
  String.ltb s t = true \/ s = t \/ String.ltb t s = true.
Proof.
  unfold String.ltb. pose proof (String.compare_antisym t s) as Hc.
  destruct (String.compare s t) eqn:E; simpl in Hc.
  - right. left. now apply String.compare_eq_iff.
  - now left.
  - right. right. now rewrite Hc.
Qed.

Lemma key_ltb_asym (a b : sort_value) : key_ltb a b = true -> key_le a b.
Proof.
  unfold key_le. destruct a as [s | p], b as [t | q]; simpl; trivial.
  - unfold String.ltb. rewrite (String.compare_antisym t s).
    destruct (String.compare s t); simpl; congruence.
  - rewrite negb_true_iff, negb_false_iff. intros H.
    apply Qle_bool_iff. destruct (Qlt_le_dec q p) as [Hlt | Hle]; [| exact Hle].
    apply Qlt_le_weak, Qle_bool_iff in Hlt. rewrite Hlt in H. discriminate.
Qed.

Lemma key_le_trans (a b c : sort_value) :
  same_kind a b = true -> same_kind b c = true ->
  key_le a b -> key_le b c -> key_le a c.
Proof.
  unfold key_le. destruct a as [s | p], b as [t | q], c as [u | r]; simpl;
    try discriminate; intros _ _ Hab Hbc.
  - destruct (String.ltb u s) eqn:Hus; [exfalso | reflexivity].
    destruct (string_ltb_cases u t) as [Hlt | [-> | Hgt]]; try congruence.
    rewrite (string_ltb_trans _ _ _ Hgt Hus) in Hab. discriminate.
  - rewrite negb_false_iff in *. apply Qle_bool_iff in Hab, Hbc.
    apply Qle_bool_iff. eapply Qle_trans; eauto.
Qed.

Lemma StronglySorted_snoc {A : Type} (R : A -> A -> Prop) (l : list A) (x : A) :
  StronglySorted R l -> Forall (fun y => R y x) l -> StronglySorted R (l ++ [x]).
Proof.
  induction 1 as [| a l Hl IH Ha]; intros Hx; simpl.
  - constructor; constructor.
  - apply List.Forall_cons_iff in Hx as [Hax Hx]. constructor; [now apply IH|].
    apply List.Forall_app. split; [exact Ha | now constructor].
Qed.

Lemma StronglySorted_rev {A : Type} (R : A -> A -> Prop) (l : list A) :
  StronglySorted R l -> StronglySorted (fun a b => R b a) (rev l).
Proof.
  induction 1 as [| a l Hl IH Ha]; simpl; [constructor|].
  apply StronglySorted_snoc; [exact IH|]. now apply List.Forall_rev.
Qed.

Lemma one_kind_perm {A : Type} (l l' : list (sort_value * A)) :
  Permutation l l' -> one_kind l -> one_kind l'.
Proof.
  intros Hp Hk x y Hx Hy.
  apply Hk; apply (Permutation_in _ (Permutation_sym Hp)); assumption.
Qed.

Lemma insert_sorted_ordered {A : Type} (x : sort_value * A) l :
  one_kind (x :: l) ->
  StronglySorted (in_order false) l ->
  StronglySorted (in_order false) (insert_sorted x l).
Proof.
  intros Hk Hs. induction Hs as [| y l Hl IH Hy]; simpl.
  - constructor; constructor.
  - destruct (key_ltb (fst y) (fst x)) eqn:Hlt.
    + constructor.
      * apply IH. intros a b Ha Hb. apply Hk; simpl in *; tauto.
      * refine (Permutation_Forall (insert_sorted_perm x l) _).
        constructor; [| exact Hy]. now apply key_ltb_asym.
    + constructor; [now constructor|].
      constructor; [exact Hlt|].
      rewrite List.Forall_forall in *. intros z Hz. unfold in_order in *.
      apply key_le_trans with (b := fst y); try (apply Hk; simpl; tauto).
      * exact Hlt.
      * now apply Hy.
Qed.

Lemma stable_sort_ordered {A : Type} (l : list (sort_value * A)) :
  one_kind l -> StronglySorted (in_order false) (stable_sort l).
Proof.
  induction l as [| x l IH]; intros Hk; simpl; [constructor|].
  assert (Hl : one_kind l).
  { intros a b Ha Hb. apply Hk; now right. }
  apply insert_sorted_ordered; [| now apply IH].
  apply one_kind_perm with (l := x :: l); [| exact Hk].
  constructor. apply stable_sort_perm.
Qed.

(** The model of [sorted] sorts: on keys of one type the decorated list
    comes out in ascending order, and in descending order with
    [reverse=True]. *)
Lemma order_decorated_ordered {A : Type} reverse (l : list (sort_value * A)) :
  one_kind l -> StronglySorted (in_order reverse) (order_decorated reverse l).
Proof.
  intros Hk. destruct reverse; simpl; [| now apply stable_sort_ordered].
  apply (StronglySorted_rev (in_order false)).
  apply stable_sort_ordered.
  apply one_kind_perm with (l := l); [apply Permutation_rev | exact Hk].
Qed.

(** The keys [sorter] returns for one [sort_by] are of one type. *)
Lemma sorter_one_kind {lc : StrLower} sort_by processes p q kp kq :
  sorter sort_by processes p = Ok kp ->
  sorter sort_by processes q = Ok kq ->
  same_kind kp kq = true.
Proof.
  unfold sorter, dict_item.
  destruct (dict_get p processes); simpl; [| discriminate].
  destruct (dict_get q processes); simpl; [| discriminate].
  repeat match goal with
         | |- context [if ?b then _ else _] => destruct b
         end; intros [= <-] [= <-]; reflexivity.
Qed.

(** ** The forest *)

Lemma keys_match_get processes k proc :
  keys_match processes = true -> dict_get k processes = Some proc -> p_pid proc = k.
Proof.
  intros Hm Hg. apply dict_get_Some_In in Hg.
  unfold keys_match in Hm. rewrite forallb_forall in Hm.
  apply Hm in Hg. simpl in Hg. symmetry. now apply Z.eqb_eq.
Qed.

Lemma for_each_Forall2 {A B : Type} (f : A -> outcome B) (l : list A) :
  forall l', for_each f l = Ok l' -> Forall2 (fun x y => f x = Ok y) l l'.
Proof.
  induction l as [| x l IH]; intros l'; simpl.
  - intros [= <-]. constructor.
  - destruct (f x) as [y | e] eqn:Hy; simpl; [| discriminate].
    destruct (for_each f l) as [ys | e]; simpl; [| discriminate].
    intros [= <-]. constructor; auto.
Qed.

Lemma Forall2_In_right {A B : Type} (R : A -> B -> Prop) (l : list A) (l' : list B) :
  Forall2 R l l' -> forall y, In y l' -> exists x, In x l /\ R x y.
Proof.
  induction 1 as [| x y l l' Hxy _ IH]; intros z; simpl; [tauto|].
  intros [<- | Hz]; [eauto|].
  destruct (IH z Hz) as (x' & Hin & HR). eauto.
Qed.

(** The node added for [pid]: its label is made from the record stored
    under [pid]. *)
Lemma node_added processes (pid : Z) (below : outcome (list tree_node)) n :
  (proc ← dict_item pid processes;
   lbl ← format_proc proc;
   nodes ← below;
   Ok (Node lbl nodes)) = Ok n ->
  exists proc lbl nodes,
    dict_get pid processes = Some proc /\
    format_proc proc = Ok lbl /\
    below = Ok nodes /\
    n = Node lbl nodes /\
    l_pid lbl = p_pid proc.
Proof.
  unfold dict_item. destruct (dict_get pid processes) as [proc|]; simpl;
    [| discriminate].
  destruct (format_proc proc) as [lbl | e] eqn:Hl; simpl; [| discriminate].
  destruct below as [nodes | e]; simpl; [| discriminate].
  intros [= <-]. exists proc, lbl, nodes. repeat split; trivial.
  unfold format_proc in Hl.
  destruct (p_memory_total proc); simpl in Hl; [| discriminate].
  destruct (text_sparkline (to_float q)); simpl in Hl; [| discriminate].
  injection Hl as <-. reflexivity.
Qed.

Section Forest.

Context {lc : StrLower}.

Variable sort_by : string.

Variable processes : list (Z * proc_record).

Variable children_map : gmap Z (list Z).

Hypothesis Hkeys : keys_match processes = true.

Lemma add_node_pid depth pid n :
  add_node sort_by processes children_map depth pid = Ok n ->
  exists lbl nodes,
    n = Node lbl nodes /\ l_pid lbl = pid /\
    add_children_recursive depth sort_by pid processes children_map = Ok nodes.
Proof.
  intros H. apply node_added in H as (proc & lbl & nodes & Hp & _ & Hb & -> & Hl).
  exists lbl, nodes. repeat split; trivial.
  rewrite Hl. now apply keys_match_get with (processes := processes).
Qed.

Lemma add_nodes_pids depth (pids : list Z) (nodes : list tree_node) :
  for_each (add_node sort_by processes children_map depth) pids = Ok nodes ->
  map node_pid nodes = pids.
Proof.
  intros H. apply for_each_Forall2 in H.
  induction H as [| pid n pids nodes Hn _ IH]; simpl; [reflexivity|].
  apply add_node_pid in Hn as (lbl & below & -> & Hl & _). simpl.
  now rewrite Hl, IH.
Qed.

Lemma add_children_unfold depth pid :
  add_children_recursive (S depth) sort_by pid processes children_map =
  match children_map !! pid with
  | None => Ok []
  | Some child_pids =>
      ordered ← sorted (sorter sort_by processes)
                  (String.eqb sort_by "memory") child_pids;
      for_each (add_node sort_by processes children_map depth) ordered
  end.
Proof. reflexivity. Qed.

Lemma add_children_ties depth :
  forall pid nodes,
    add_children_recursive depth sort_by pid processes children_map = Ok nodes ->
    ties_kept sort_by processes
      (default [] (children_map !! pid)) (map node_pid nodes) /\
    Forall (ties_kept_in sort_by processes children_map) nodes.
Proof.
  induction depth as [| d IH]; intros pid nodes; [discriminate|].
  rewrite add_children_unfold.
  destruct (children_map !! pid) as [child_pids|]; simpl.
  - destruct (sorted (sorter sort_by processes) (String.eqb sort_by "memory")
                child_pids) as [ordered | e] eqn:Hsorted; simpl; [| discriminate].
    intros Hnodes. split.
    + rewrite (add_nodes_pids _ _ _ Hnodes). intros k.
      eapply sorted_stable; eauto.
    + apply for_each_Forall2 in Hnodes.
      apply List.Forall_forall. intros n Hn.
      destruct (Forall2_In_right _ _ _ Hnodes n Hn) as (c & _ & Hc).
      apply add_node_pid in Hc as (lbl & below & -> & Hl & Hbelow).
      destruct (IH c below Hbelow) as [Hties Hall].
      constructor; [now rewrite Hl | exact Hall].
  - intros [= <-]. split; [intros k; reflexivity | constructor].
Qed.

Lemma build_forest_unfold depth :
  build_forest depth sort_by processes children_map =
  (ordered ← sorted (sorter sort_by processes)
               (String.eqb sort_by "memory") (root_pids processes);
   for_each (add_node sort_by processes children_map depth) ordered).
Proof. reflexivity. Qed.

Lemma add_children_shown depth :
  forall pid nodes,
    add_children_recursive depth sort_by pid processes children_map = Ok nodes ->
    forall q, Exists (shown q) nodes -> tc (index_edge children_map) pid q.
Proof.
  induction depth as [| d IH]; intros pid nodes; [discriminate|].
  rewrite add_children_unfold.
  destruct (children_map !! pid) as [child_pids|] eqn:Hcs; simpl.
  - destruct (sorted (sorter sort_by processes) (String.eqb sort_by "memory")
                child_pids) as [ordered | e] eqn:Hsorted; simpl; [| discriminate].
    intros Hnodes q Hq. apply for_each_Forall2 in Hnodes.
    apply List.Exists_exists in Hq as (n & Hn & Hshown).
    destruct (Forall2_In_right _ _ _ Hnodes n Hn) as (c & Hc & Hadd).
    assert (Hedge : index_edge children_map pid c).
    { exists child_pids. split; [exact Hcs|].
      apply Permutation_in with (l := ordered); [| exact Hc].
      symmetry. eapply sorted_perm; eauto. }
    apply add_node_pid in Hadd as (lbl & below & -> & Hl & Hbelow).
    inversion Hshown as [lbl' nodes' Hhere | lbl' nodes' Hdeeper]; subst.
    + now apply tc_once.
    + eapply tc_l; [exact Hedge|]. eapply IH; eauto.
  - intros [= <-] q Hq. inversion Hq.
Qed.

(** Every pid shown in the forest is a root or is reached from a root
    along the index. *)
Lemma build_forest_shown depth forest :
  build_forest depth sort_by processes children_map = Ok forest ->
  forall q, Exists (shown q) forest ->
  exists root, In root (root_pids processes) /\ rtc (index_edge children_map) root q.
Proof.
  rewrite build_forest_unfold.
  destruct (sorted (sorter sort_by processes) (String.eqb sort_by "memory")
              (root_pids processes)) as [ordered | e] eqn:Hsorted; simpl;
    [| discriminate].
  intros Hnodes q Hq. apply for_each_Forall2 in Hnodes.
  apply List.Exists_exists in Hq as (n & Hn & Hshown).
  destruct (Forall2_In_right _ _ _ Hnodes n Hn) as (root & Hroot & Hadd).
  exists root. split.
  - apply Permutation_in with (l := ordered); [| exact Hroot].
    symmetry. eapply sorted_perm; eauto.
  - apply add_node_pid in Hadd as (lbl & below & -> & Hl & Hbelow).
    inversion Hshown as [lbl' nodes' Hhere | lbl' nodes' Hdeeper]; subst.
    + apply rtc_refl.
    + apply tc_rtc. eapply add_children_shown; eauto.
Qed.

End Forest.

(** C9: in the forest [load_tree] builds, at the root level and below every
    node, the pids whose sort keys are equal (equal lower-cased names or
    owners, equal pids, equal totals under the descending memory sort) stand
    in the order they have in the snapshot: the order of [root_pids], which
    is the order of the keys of [processes], for the roots, and the order of
    the child list of the index for the children of a node. *)
Theorem forest_ties_keep_order {lc : StrLower} (depth : nat) (sort_by : string)
    (processes : list (Z * proc_record)) (children_map : gmap Z (list Z))
    (forest : list tree_node)
    (Hkeys : keys_match processes = true)
    (Hbuild : build_forest depth sort_by processes children_map = Ok forest) :
  ties_kept sort_by processes (root_pids processes) (map node_pid forest) /\
  Forall (ties_kept_in sort_by processes children_map) forest.
Proof.
  rewrite build_forest_unfold in Hbuild.
  destruct (sorted (sorter sort_by processes) (String.eqb sort_by "memory")
              (root_pids processes)) as [ordered | e] eqn:Hsorted;
    simpl in Hbuild; [| discriminate].
  split.
  - rewrite (add_nodes_pids sort_by processes children_map Hkeys _ _ _ Hbuild).
    intros k. eapply sorted_stable; eauto.
  - apply for_each_Forall2 in Hbuild.
    apply List.Forall_forall. intros n Hn.
    destruct (Forall2_In_right _ _ _ Hbuild n Hn) as (root & _ & Hadd).
    apply add_node_pid in Hadd as (lbl & below & -> & Hl & Hbelow); [| exact Hkeys].
    destruct (add_children_ties sort_by processes children_map Hkeys _ _ _ Hbelow)
      as [Hties Hall].
    constructor; [now rewrite Hl | exact Hall].
Qed.

Lemma forest_ties_keep_order_witness :
  exists processes children_map forest,
    list_process 10 even_os None tie_procs = Ok (processes, children_map) /\
    build_forest 10 "alphabet" processes children_map = Ok forest /\
    flat_map forest_pids forest = [1; 3; 4; 2; 5] /\
    ties_kept "alphabet" processes (root_pids processes) (map node_pid forest) /\
    Forall (ties_kept_in "alphabet" processes children_map) forest.
Proof.
  eexists. eexists. eexists.
  split; [vm_compute; reflexivity|].
  split; [vm_compute; reflexivity|].
  split; [vm_compute; reflexivity|].
  apply (forest_ties_keep_order 10 "alphabet"); vm_compute; reflexivity.
Defined.

(** Under the descending memory sort the three children of 1, which have the
    same total, keep the order of the snapshot, and 1 comes before 5. *)
Example forest_memory_ties :
  (s ← list_process 10 even_os None tie_procs;
   forest ← build_forest 10 "memory" (fst s) (snd s);
   Ok (flat_map forest_pids forest)) = Ok [1; 2; 3; 4; 5].
Proof. vm_compute. reflexivity. Qed.

(** The lowering decides the order outside ASCII.  With a lowering that
    folds the accented capitals the two names of [accent_procs] have one
    key and keep the order of the snapshot, and the filter finds a name
    whatever its case; the ASCII lowering tells the names apart. *)
Example forest_accented_names :
  (s ← list_process (lc := latin_lower) 10 even_os None accent_procs;
   forest ← build_forest (lc := latin_lower) 10 "alphabet" (fst s) (snd s);
   Ok (flat_map forest_pids forest)) = Ok [1; 2] /\
  (s ← list_process (lc := ascii_lower) 10 even_os None accent_procs;
   forest ← build_forest (lc := ascii_lower) 10 "alphabet" (fst s) (snd s);
   Ok (flat_map forest_pids forest)) = Ok [2; 1] /\
  (s ← list_process (lc := latin_lower) 10 even_os (Some (FilterName "ÉCOLE"))
         [raw 1 0 "école"; raw 2 0 "ecole"];
   Ok (dict_keys (fst s))) = Ok [1] /\
  (s ← list_process (lc := ascii_lower) 10 even_os (Some (FilterName "ÉCOLE"))
         [raw 1 0 "école"; raw 2 0 "ecole"];
   Ok (dict_keys (fst s))) = Ok [].
Proof. repeat split; vm_compute; reflexivity. Qed.

(** ** The index built by the scan *)

Lemma keys_match_set processes k proc :
  keys_match processes = true -> p_pid proc = k ->
  keys_match (dict_set k proc processes) = true.
Proof.
  intros Hm Hk. unfold keys_match in *.
  induction processes as [| [k' v'] ps IH]; simpl in *.
  - rewrite Hk, Z.eqb_refl. reflexivity.
  - apply andb_true_iff in Hm as [Hhd Htl].
    destruct (Z.eqb_spec k' k) as [-> | NE]; simpl.
    + rewrite Hk, Z.eqb_refl, Htl. reflexivity.
    + rewrite Hhd. simpl. now apply IH.
Qed.

Lemma keys_match_similar ps ps' :
  dict_similar ps ps' -> keys_match ps = true -> keys_match ps' = true.
Proof.
  unfold keys_match.
  induction 1 as [| a b l l' [Hk (Hp & _)] _ IH]; simpl; [trivial|].
  intros H. apply andb_true_iff in H as [Hhd Htl].
  rewrite <- Hk, <- Hp, Hhd. simpl. now apply IH.
Qed.

Lemma scan_one_indexed {lc : StrLower} depth os filter st proc st' :
  well_indexed st ->
  ~ In (info_pid proc) (dict_keys (fst st)) ->
  scan_one depth os filter st proc = Ok st' ->
  well_indexed st' /\
  (forall k, In k (dict_keys (fst st')) ->
     In k (dict_keys (fst st)) \/ k = info_pid proc).
Proof.
  intros Hst Hfresh. unfold scan_one, scan_body.
  destruct st as [processes children_map].
  match goal with
  | |- context [if ?b then _ else _] => destruct b
  end; simpl.
  { intros [= <-]. split; [exact Hst | auto]. }
  destruct (os_memory_percent os (info_pid proc)) as [m | |]; simpl;
    try (intros [= <-]; split; [exact Hst | auto]).
  destruct (get_parent_tree depth os (info_pid proc)) as [t | e]; simpl.
  - intros [= <-]. destruct Hst as [Hmatch Hindex]. simpl in *.
    assert (Hnew : forall k, k <> info_pid proc ->
              dict_get k (dict_set (info_pid proc)
                {| p_pid := info_pid proc; p_ppid := info_ppid proc;
                   p_name := default EmptyString (info_name proc);
                   p_username := normalize_username (info_username proc);
                   p_memory := round2 m; p_ppids := t;
                   p_memory_total := None |} processes) = dict_get k processes).
    { intros k NE. rewrite dict_get_set.
      destruct (Z.eqb_spec (info_pid proc) k); [congruence | reflexivity]. }
    split; [split|]; simpl.
    + now apply keys_match_set.
    + intros parent children c.
      assert (Hold : forall cs, children_map !! parent = Some cs -> In c cs ->
                exists proc0, dict_get c (dict_set (info_pid proc)
                  {| p_pid := info_pid proc; p_ppid := info_ppid proc;
                     p_name := default EmptyString (info_name proc);
                     p_username := normalize_username (info_username proc);
                     p_memory := round2 m; p_ppids := t;
                     p_memory_total := None |} processes) = Some proc0 /\
                  p_ppid proc0 = parent).
      { intros cs Hcs Hc.
        destruct (Hindex parent cs c Hcs Hc) as (proc0 & Hget & Hpp).
        exists proc0. split; [| exact Hpp]. rewrite Hnew; [exact Hget|].
        intros ->. apply Hfresh. apply dict_get_is_Some. eauto. }
      destruct (decide (info_ppid proc = parent)) as [<- | NE].
      * rewrite lookup_insert_eq. intros [= <-]. rewrite in_app_iff.
        intros [Hc | [<- | []]].
        -- destruct (children_map !! info_ppid proc) as [cs|] eqn:Hcs;
             simpl in Hc; [eapply Hold; eauto | destruct Hc].
        -- rewrite dict_get_set, Z.eqb_refl. eauto.
      * rewrite lookup_insert_ne by exact NE. apply Hold.
    + intros k. rewrite dict_keys_set.
      destruct (dict_mem (info_pid proc) processes); [auto|].
      rewrite in_app_iff. intros [Hk | [<- | []]]; auto.
  - destruct (psutil_error e); intros [= <-]. split; [exact Hst | auto].
Qed.

Lemma scan_indexed {lc : StrLower} depth os filter procs :
  forall st st',
    well_indexed st ->
    List.NoDup (map info_pid procs) ->
    (forall p, In p procs -> ~ In (info_pid p) (dict_keys (fst st))) ->
    scan depth os filter procs st = Ok st' ->
    well_indexed st'.
Proof.
  induction procs as [| p procs IH]; intros st st' Hst Hnd Hfresh; simpl.
  - intros [= <-]. exact Hst.
  - destruct (scan_one depth os filter st p) as [st1 | e] eqn:H1; simpl;
      [| discriminate].
    simpl in Hnd. apply List.NoDup_cons_iff in Hnd as [Hp Hnd].
    destruct (scan_one_indexed _ _ _ _ _ _ Hst (Hfresh p (or_introl eq_refl)) H1)
      as [Hst1 Hkeys1].
    apply IH; trivial.
    intros q Hq Hk. apply Hkeys1 in Hk as [Hk | Hk].
    + apply (Hfresh q); [now right | exact Hk].
    + apply Hp. rewrite <- Hk. now apply in_map.
Qed.

Lemma list_process_indexed {lc : StrLower}
    depth os filter procs processes children_map :
  List.NoDup (map info_pid procs) ->
  list_process depth os filter procs = Ok (processes, children_map) ->
  well_indexed (processes, children_map).
Proof.
  intros Hnd H. apply list_process_scan in H as (scanned & Hscan & Hsim).
  assert (Hwi : well_indexed (scanned, children_map)).
  { eapply scan_indexed; [| exact Hnd | | exact Hscan].
    - split; [reflexivity|]. simpl. intros parent children c Hl.
      rewrite lookup_empty in Hl. discriminate.
    - intros p _ []. }
  destruct Hwi as [Hmatch Hindex]. simpl in *. split; simpl.
  - eapply keys_match_similar; eauto.
  - intros parent children c Hl Hc.
    destruct (Hindex parent children c Hl Hc) as (proc & Hget & Hpp).
    pose proof (dict_similar_get _ _ c Hsim) as G. rewrite Hget in G.
    destruct (dict_get c processes) as [proc'|]; [| destruct G].
    exists proc'. split; [reflexivity|].
    destruct G as (_ & Hppid & _). congruence.
Qed.

(** ** Pids that are never shown *)

Lemma root_pids_parent_absent processes root :
  In root (root_pids processes) ->
  exists proc, dict_get root processes = Some proc /\
               dict_get (p_ppid proc) processes = None.
Proof.
  unfold root_pids. rewrite filter_In. intros [_ H].
  destruct (dict_get root processes) as [proc|]; [| discriminate].
  exists proc. split; [reflexivity|].
  unfold dict_mem in H. now destruct (dict_get (p_ppid proc) processes).
Qed.

(** C10: in the forest built from the result of [list_process], every pid
    shown is a root or is reached from a root along the index; hence the
    members of a set of pids of the snapshot that is closed under the
    recorded parent (a parent cycle, and whatever hangs below one) are no
    roots and are shown nowhere. *)
Theorem forest_from_roots {lc : StrLower} (depth : nat) (os : snapshot_source)
    (filter : option filter_arg) (procs : list raw_proc) (sort_by : string)
    (processes : list (Z * proc_record)) (children_map : gmap Z (list Z))
    (forest : list tree_node)
    (Hpids : List.NoDup (map info_pid procs))
    (Hlist : list_process depth os filter procs = Ok (processes, children_map))
    (Hbuild : build_forest depth sort_by processes children_map = Ok forest) :
  (forall pid, Exists (shown pid) forest ->
     exists root, In root (root_pids processes) /\
                  rtc (index_edge children_map) root pid) /\
  (forall members : Z -> Prop,
     (forall m, members m ->
        exists proc, dict_get m processes = Some proc /\ members (p_ppid proc)) ->
     forall m, members m ->
       ~ In m (root_pids processes) /\ ~ Exists (shown m) forest).
Proof.
  destruct (list_process_indexed _ _ _ _ _ _ Hpids Hlist) as [Hmatch Hindex].
  simpl in *.
  assert (Hshown : forall pid, Exists (shown pid) forest ->
            exists root, In root (root_pids processes) /\
                         rtc (index_edge children_map) root pid).
  { intros pid. eapply build_forest_shown; eauto. }
  split; [exact Hshown|].
  intros members Hclosed.
  assert (Hroot : forall m, members m -> ~ In m (root_pids processes)).
  { intros m Hm Hr.
    destruct (root_pids_parent_absent _ _ Hr) as (proc & Hget & Hnone).
    destruct (Hclosed m Hm) as (proc' & Hget' & Hpp).
    rewrite Hget in Hget'. injection Hget' as <-.
    destruct (Hclosed _ Hpp) as (proc'' & Hget'' & _). congruence. }
  assert (Hup : forall a b, rtc (index_edge children_map) a b ->
            members b -> members a).
  { induction 1 as [a | a b c (children & Hl & Hin) _ IH]; [trivial|].
    intros Hc. apply IH in Hc.
    destruct (Hindex a children b Hl Hin) as (proc & Hget & Hpp).
    destruct (Hclosed b Hc) as (proc' & Hget' & Hm).
    rewrite Hget in Hget'. injection Hget' as <-. now rewrite <- Hpp. }
  intros m Hm. split; [now apply Hroot|].
  intros Hs. destruct (Hshown m Hs) as (root & Hr & Hreach).
  apply (Hroot root); [| exact Hr]. eapply Hup; eauto.
Qed.

Lemma cycle_procs_distinct : List.NoDup (map info_pid cycle_procs).
Proof. repeat constructor; simpl; intuition discriminate. Qed.

Lemma cycle_snapshot_listed :
  list_process 10 even_os None cycle_procs =
    Ok (fst cycle_snapshot, snd cycle_snapshot).
Proof. vm_compute. reflexivity. Qed.

Lemma cycle_forest_built :
  build_forest 10 "pid" (fst cycle_snapshot) (snd cycle_snapshot) = Ok cycle_forest.
Proof. vm_compute. reflexivity. Qed.

Lemma forest_from_roots_witness :
  flat_map forest_pids cycle_forest = [10; 11] /\
  (forall m, m = 5 \/ m = 7 ->
     ~ In m (root_pids (fst cycle_snapshot)) /\ ~ Exists (shown m) cycle_forest) /\
  (forall m, m = 0 \/ m = 4 ->
     ~ In m (root_pids (fst cycle_snapshot)) /\ ~ Exists (shown m) cycle_forest).
Proof.
  pose proof (forest_from_roots 10 even_os None cycle_procs "pid"
                (fst cycle_snapshot) (snd cycle_snapshot) cycle_forest
                cycle_procs_distinct cycle_snapshot_listed cycle_forest_built)
    as [_ Hhidden].
  split; [vm_compute; reflexivity|]. split.
  - apply (Hhidden (fun m => m = 5 \/ m = 7)).
    intros m [-> | ->]; eexists; (split; [vm_compute; reflexivity|]); simpl; tauto.
  - apply (Hhidden (fun m => m = 0 \/ m = 4)).
    intros m [-> | ->]; eexists; (split; [vm_compute; reflexivity|]); simpl; tauto.
Defined.

(** ** Changing the sort key *)

(** C1, as the code has it: selecting a sort option stores the key and calls
    [load_tree], which calls [list_process] again: the process table is
    scanned once more and the totals are aggregated anew, and the forest is
    built from that new snapshot with the new key; the tree shown before
    plays no part. *)
Theorem sort_change_rescans {lc : StrLower}
    (depth : nat) (observe : nat -> observation)
    (selected : string) (self self' : app) (scans scans' : nat)
    (Hrun : on_option_list_option_selected depth observe selected (self, scans) =
            Ok (self', scans')) :
  scans' = S scans /\
  sort_by self' = selected_sort_by selected (sort_by self) /\
  (exists processes children_map,
     list_process depth (fst (observe scans)) None (snd (observe scans)) =
       Ok (processes, children_map) /\
     build_forest depth (sort_by self') processes children_map = Ok (tree self')) /\
  (forall shown_before,
     on_option_list_option_selected depth observe selected
       ({| sort_by := sort_by self; tree := shown_before |}, scans) =
     Ok (self', scans')).
Proof.
  unfold on_option_list_option_selected, load_tree in *. simpl in *.
  fold (selected_sort_by selected (sort_by self)) in *.
  destruct (observe scans) as [os procs]. simpl.
  destruct (list_process depth os None procs) as [[processes children_map] | e];
    simpl in *; [| discriminate].
  destruct (build_forest depth (selected_sort_by selected (sort_by self))
              processes children_map) as [forest | e] eqn:Hbuild;
    simpl in *; [| discriminate].
  injection Hrun as <- <-. simpl.
  split; [reflexivity|]. split; [reflexivity|]. split; [| reflexivity].
  exists processes, children_map. split; [reflexivity | exact Hbuild].
Qed.

Lemma mounted_run : on_mount 10 changing_table = Ok mounted.
Proof. vm_compute. reflexivity. Qed.

Lemma resorted_run :
  on_option_list_option_selected 10 changing_table "По Памяти"
    (fst mounted, snd mounted) = Ok (fst resorted, snd resorted).
Proof. vm_compute. reflexivity. Qed.

Lemma sort_change_rescans_witness :
  snd resorted = S (snd mounted) /\
  sort_by (fst resorted) = "memory" /\
  flat_map forest_pids (tree (fst resorted)) = [3].
Proof.
  destruct (sort_change_rescans 10 changing_table "По Памяти"
              (fst mounted) (fst resorted) (snd mounted) (snd resorted)
              resorted_run) as (Hscans & Hkey & _).
  split; [exact Hscans|]. split; [| vm_compute; reflexivity].
  rewrite Hkey. vm_compute. reflexivity.
Defined.

(** C1 as the specification words it does not hold: after the refresh that
    aggregated the processes 1 and 2, selecting the memory sort scans the
    table a second time and shows the process 3 of the new scan; the forest
    is not the one the data of the completed refresh gives with the new
    key. *)
Lemma sort_change_ignores_aggregated_data :
  exists processes children_map,
    on_mount 10 changing_table = Ok mounted /\
    list_process 10 (fst (changing_table 0)) None (snd (changing_table 0)) =
      Ok (processes, children_map) /\
    flat_map forest_pids (tree (fst mounted)) = [1; 2] /\
    snd mounted = 1%nat /\
    on_option_list_option_selected 10 changing_table "По Памяти" mounted =
      Ok resorted /\
    snd resorted = 2%nat /\
    flat_map forest_pids (tree (fst resorted)) = [3] /\
    build_forest 10 "memory" processes children_map <> Ok (tree (fst resorted)).
Proof.
  eexists. eexists.
  split; [exact mounted_run|].
  split; [vm_compute; reflexivity|].
  split; [vm_compute; reflexivity|].
  split; [vm_compute; reflexivity|].
  split; [vm_compute; reflexivity|].
  split; [vm_compute; reflexivity|].
  split; [vm_compute; reflexivity|].
  vm_compute. discriminate.
Qed.

(** ** The view builder returns *)

Lemma for_each_returns {A B : Type} (f : A -> outcome B) (l : list A) :
  (forall x, In x l -> exists y, f x = Ok y) -> exists l', for_each f l = Ok l'.
Proof.
  induction l as [| x l IH]; intros H; simpl; [eauto|].
  destruct (H x (or_introl eq_refl)) as [y ->]. simpl.
  destruct IH as [ys ->]; [intros x' Hx'; apply H; now right|].
  simpl. eauto.
Qed.

Lemma sorted_returns {A : Type} (key : A -> outcome sort_value) reverse (l : list A) :
  (forall x, In x l -> exists k, key x = Ok k) ->
  exists l', sorted key reverse l = Ok l'.
Proof.
  intros H. unfold sorted.
  destruct (for_each_returns key l H) as [keys ->]. simpl. eauto.
Qed.

Lemma sorter_returns {lc : StrLower} sort_by processes pid :
  In pid (dict_keys processes) -> exists k, sorter sort_by processes pid = Ok k.
Proof.
  intros H. apply dict_get_is_Some in H as [proc Hproc].
  unfold sorter, dict_item. rewrite Hproc. simpl.
  repeat match goal with
         | |- context [if ?b then _ else _] => destruct b
         end; eauto.
Qed.

Section ViewBuilderReturns.

Context {lc : StrLower}.

Variable sort_by : string.

Variable processes : list (Z * proc_record).

Variable children_map : gmap Z (list Z).

Hypothesis Hindexed : well_indexed (processes, children_map).

Hypothesis Hlabels : labels_ok processes = true.

Lemma ancestry_head_key pid rest :
  ancestry processes (pid :: rest) -> In pid (dict_keys processes).
Proof.
  inversion 1 as [root Hroot | c p rest' proc Hget _ _]; subst.
  - unfold root_pids in Hroot. now apply filter_In in Hroot as [Hk _].
  - apply dict_get_is_Some. eauto.
Qed.

Lemma ancestry_keys path :
  ancestry processes path ->
  forall k, In k path -> In k (dict_keys processes).
Proof.
  induction 1 as [root Hroot | c p rest proc Hget Hpp Hanc IH]; intros k.
  - intros [<- | []]. eapply ancestry_head_key. now constructor.
  - intros [<- | Hk]; [apply dict_get_is_Some; eauto | now apply IH].
Qed.

(** The path above a pid is determined by the pid. *)
Lemma ancestry_unique pid rest :
  ancestry processes (pid :: rest) ->
  forall rest', ancestry processes (pid :: rest') -> rest = rest'.
Proof.
  remember (pid :: rest) as path eqn:E. intros H. revert pid rest E.
  induction H as [root Hroot | c p rest0 proc Hget Hpp Hanc IH];
    intros pid rest [= <- <-] rest' H'.
  - inversion H' as [root' _ | c' p' rest'' proc' Hget' Hpp' Hanc']; subst;
      [reflexivity|].
    exfalso. destruct (root_pids_parent_absent _ _ Hroot) as (proc & Hg & Hnone).
    rewrite Hg in Hget'. injection Hget' as <-.
    apply ancestry_head_key in Hanc'. apply dict_get_is_Some in Hanc' as [v Hv].
    congruence.
  - inversion H' as [root' Hroot' | c' p' rest'' proc' Hget' Hpp' Hanc']; subst.
    + exfalso. destruct (root_pids_parent_absent _ _ Hroot') as (proc' & Hg & Hnone).
      rewrite Hg in Hget. injection Hget as <-.
      apply ancestry_head_key in Hanc. apply dict_get_is_Some in Hanc as [v Hv].
      congruence.
    + rewrite Hget in Hget'. injection Hget' as <-.
      f_equal. eapply IH; eauto.
Qed.

Lemma ancestry_suffix path : ancestry processes path ->
  forall k, In k path -> exists before after,
    path = (before ++ k :: after)%list /\ ancestry processes (k :: after).
Proof.
  induction 1 as [root Hroot | c p rest proc Hget Hpp Hanc IH]; intros k.
  - intros [<- | []]. exists [], []. split; [reflexivity | now constructor].
  - intros [<- | Hk].
    + exists [], (p :: rest). split; [reflexivity | econstructor; eauto].
    + destruct (IH k Hk) as (before & after & E & Ha).
      exists (c :: before), after. split; [| exact Ha].
      simpl. now rewrite E.
Qed.

Lemma ancestry_NoDup path : ancestry processes path -> List.NoDup path.
Proof.
  induction 1 as [root Hroot | c p rest proc Hget Hpp Hanc IH].
  - constructor; [intros [] | constructor].
  - constructor; [| exact IH].
    intros Hc. destruct (ancestry_suffix _ Hanc c Hc) as (before & after & E & Ha).
    assert (Hfull : ancestry processes (c :: p :: rest)) by (econstructor; eauto).
    pose proof (ancestry_unique _ _ Ha _ Hfull) as Heq.
    apply (f_equal (@length Z)) in E. rewrite length_app in E.
    subst after. simpl in E. lia.
Qed.

Lemma ancestry_length path :
  ancestry processes path -> (length path <= length processes)%nat.
Proof.
  intros H.
  assert (Hl : (length path <= length (dict_keys processes))%nat).
  { apply List.NoDup_incl_length; [now apply ancestry_NoDup|].
    intros k. now apply ancestry_keys. }
  unfold dict_keys in Hl. now rewrite length_map in Hl.
Qed.

Lemma format_proc_returns pid proc :
  dict_get pid processes = Some proc -> exists lbl, format_proc proc = Ok lbl.
Proof.
  intros H. apply dict_get_Some_In in H.
  unfold labels_ok in Hlabels. rewrite forallb_forall in Hlabels.
  apply Hlabels in H. simpl in H.
  destruct (format_proc proc) as [lbl | e]; [eauto | discriminate].
Qed.

Lemma add_children_returns depth :
  forall pid rest,
    ancestry processes (pid :: rest) ->
    (length processes <= length rest + depth)%nat ->
    exists nodes,
      add_children_recursive depth sort_by pid processes children_map = Ok nodes.
Proof.
  destruct Hindexed as [_ Hindex]. simpl in Hindex.
  induction depth as [| d IH]; intros pid rest Hanc Hdepth.
  { apply ancestry_length in Hanc. simpl in Hanc. lia. }
  rewrite add_children_unfold.
  destruct (children_map !! pid) as [child_pids|] eqn:Hcs; [| eauto].
  destruct (sorted_returns (sorter sort_by processes)
              (String.eqb sort_by "memory") child_pids) as [ordered Hsorted].
  { intros c Hc. apply sorter_returns.
    destruct (Hindex pid child_pids c Hcs Hc) as (proc & Hget & _).
    apply dict_get_is_Some. eauto. }
  rewrite Hsorted. simpl. apply for_each_returns. intros c Hc.
  assert (Hin : In c child_pids).
  { apply Permutation_in with (l := ordered); [| exact Hc].
    symmetry. eapply sorted_perm; eauto. }
  destruct (Hindex pid child_pids c Hcs Hin) as (proc & Hget & Hpp).
  destruct (format_proc_returns c proc Hget) as [lbl Hlbl].
  destruct (IH c (pid :: rest)) as [below Hbelow].
  { econstructor; eauto. }
  { simpl. lia. }
  exists (Node lbl below). unfold add_node, dict_item.
  rewrite Hget. simpl. rewrite Hlbl. simpl. rewrite Hbelow. reflexivity.
Qed.

(** On an index as the scan builds it, with records that can be put on a
    line, [load_tree] returns a forest as soon as the call stack is deeper
    than the number of processes. *)
Lemma build_forest_returns depth :
  (length processes <= depth)%nat ->
  exists forest, build_forest depth sort_by processes children_map = Ok forest.
Proof.
  intros Hdepth. rewrite build_forest_unfold.
  destruct (sorted_returns (sorter sort_by processes)
              (String.eqb sort_by "memory") (root_pids processes))
    as [ordered Hsorted].
  { intros r Hr. apply sorter_returns.
    unfold root_pids in Hr. now apply filter_In in Hr as [Hk _]. }
  rewrite Hsorted. simpl. apply for_each_returns. intros r Hr.
  assert (Hroot : In r (root_pids processes)).
  { apply Permutation_in with (l := ordered); [| exact Hr].
    symmetry. eapply sorted_perm; eauto. }
  destruct (root_pids_parent_absent _ _ Hroot) as (proc & Hget & _).
  destruct (format_proc_returns r proc Hget) as [lbl Hlbl].
  destruct (add_children_returns depth r []) as [below Hbelow].
  { now constructor. }
  { simpl. lia. }
  exists (Node lbl below). unfold add_node, dict_item.
  rewrite Hget. simpl. rewrite Hlbl. simpl. rewrite Hbelow. reflexivity.
Qed.

End ViewBuilderReturns.

(** * Further properties *)

(** ** The ancestor walk *)

(** X1: psutil's exceptions never leave [get_parent_tree]: a call returns a
    chain, or it ends in [RecursionError]. *)
Theorem get_parent_tree_absorbs_signals (depth : nat) (os : snapshot_source)
    (proc : Z) :
  (exists chain, get_parent_tree depth os proc = Ok chain) \/
  get_parent_tree depth os proc = Raise RecursionError.
Proof.
  destruct (get_parent_tree depth os proc) as [chain | e] eqn:H.
  - left. now exists chain.
  - right. apply get_parent_tree_raises in H. now subst e.
Qed.

(** X2: the chain [get_parent_tree] returns holds only what psutil
    answered: level by level the parent reported for the level below, its
    name and its memory percentage rounded to two decimals; and it is empty
    exactly when the parent of [proc], that parent's name or that parent's
    memory could not be read, or [proc] has no parent. *)
Theorem get_parent_tree_chain (depth : nat) (os : snapshot_source) (proc : Z)
    (chain : parent_tree)
    (Hreturns : get_parent_tree depth os proc = Ok chain) :
  chain_of os proc chain /\
  (chain <> NoParent <->
   exists parent name memory,
     os_parent os proc = Answer (Some parent) /\
     os_name os parent = Answer name /\
     os_memory_percent os parent = Answer memory).
Proof.
  revert proc chain Hreturns.
  induction depth as [| d IH]; intros proc chain H; simpl in H; [discriminate|].
  destruct (os_parent os proc) as [[parent|] | |] eqn:Hp; simpl in H;
    try (injection H as <-; split; [constructor|];
         split; [congruence | intros (p & n & m & Hq & _); discriminate]).
  destruct (os_name os parent) as [name | |] eqn:Hn; simpl in H;
    try (injection H as <-; split; [constructor|];
         split; [congruence |];
         intros (p & n & m & Hq & Hn' & _); injection Hq as <-; congruence).
  destruct (get_parent_tree d os parent) as [ppids | e] eqn:Hrec; simpl in H.
  - destruct (os_memory_percent os parent) as [memory | |] eqn:Hm; simpl in H;
      injection H as <-.
    + split.
      * econstructor; eauto. now apply (IH parent ppids).
      * split; [| discriminate]. intros _. exists parent, name, memory. auto.
    + split; [constructor|]. split; [congruence|].
      intros (p & n & m & Hq & _ & Hm'). injection Hq as <-. congruence.
    + split; [constructor|]. split; [congruence|].
      intros (p & n & m & Hq & _ & Hm'). injection Hq as <-. congruence.
  - apply get_parent_tree_raises in Hrec. subst e. discriminate.
Qed.

Lemma get_parent_tree_chain_witness :
  exists chain,
    get_parent_tree 3 chain_os 3 = Ok chain /\
    chain_pids chain = [2; 1] /\
    chain_of chain_os 3 chain.
Proof.
  eexists. split; [reflexivity|]. split; [reflexivity|].
  exact (proj1 (get_parent_tree_chain 3 chain_os 3 _ eq_refl)).
Defined.

(** ** Owner names *)

Lemma has_char_false_split (sep : ascii) (s : string) :
  has_char sep s = false -> split sep s = [s].
Proof.
  induction s as [| c s IH]; simpl; [reflexivity|].
  intros H. apply orb_false_iff in H as [Hc Hs].
  rewrite Hc, (IH Hs). reflexivity.
Qed.

Lemma split_nonempty (sep : ascii) (s : string) : split sep s <> [].
Proof.
  destruct s as [| c s]; simpl; [discriminate|].
  destruct (Ascii.eqb c sep); [discriminate|].
  destruct (split sep s); discriminate.
Qed.

Lemma split_no_sep (sep : ascii) (s : string) :
  Forall (fun w => has_char sep w = false) (split sep s).
Proof.
  induction s as [| c s IH]; simpl.
  - constructor; [reflexivity | constructor].
  - destruct (Ascii.eqb c sep) eqn:Hc.
    + constructor; [reflexivity | exact IH].
    + destruct (split sep s) as [| w ws]; [repeat constructor; simpl; now rewrite Hc|].
      apply List.Forall_cons_iff in IH as [Hw Hws].
      constructor; [simpl; now rewrite Hc, Hw | exact Hws].
Qed.

Lemma has_char_app (sep : ascii) (d u : string) :
  has_char sep (d ++ String sep u) = true.
Proof.
  induction d as [| c d IH]; simpl.
  - now rewrite Ascii.eqb_refl.
  - now rewrite IH, orb_true_r.
Qed.

Lemma split_with_sep (sep : ascii) (s : string) :
  has_char sep s = true -> exists w w' ws, split sep s = w :: w' :: ws.
Proof.
  induction s as [| c s IH]; simpl; [discriminate|].
  destruct (Ascii.eqb c sep); simpl.
  - intros _. destruct (split sep s) as [| w' ws] eqn:E;
      [now apply split_nonempty in E | eauto].
  - intros H. destruct (IH H) as (w & w' & ws & ->). eauto.
Qed.

Lemma last_split_app (sep : ascii) (d u : string) :
  List.last (split sep (d ++ String sep u)) EmptyString =
  List.last (split sep u) EmptyString.
Proof.
  induction d as [| c d IH]; simpl.
  - rewrite Ascii.eqb_refl.
    destruct (split sep u) eqn:E; [now apply split_nonempty in E | reflexivity].
  - destruct (split_with_sep sep _ (has_char_app sep d u)) as (w & w' & ws & E).
    rewrite E in *. destruct (Ascii.eqb c sep); exact IH.
Qed.

(** X5: the owner [list_process] stores never holds a backslash; a missing
    or empty owner becomes ["unknown"]; of an owner with a domain prefix,
    [DOMAIN\name], what follows the last backslash is kept; an owner without
    a backslash is kept as it is. *)
Theorem normalize_username_component :
  (forall username, has_char "\" (normalize_username username) = false) /\
  normalize_username None = "unknown" /\
  normalize_username (Some "") = "unknown" /\
  (forall domain name,
     has_char "\" name = false ->
     normalize_username (Some (domain ++ String "\" name)) = name) /\
  (forall name,
     name <> "" -> has_char "\" name = false ->
     normalize_username (Some name) = name).
Proof.
  split; [| split; [reflexivity | split; [reflexivity | split]]].
  - intros username. unfold normalize_username.
    set (u := match username with
              | None | Some EmptyString => "unknown"
              | Some u => u
              end).
    pose proof (split_no_sep "\" u) as Hno.
    pose proof (split_nonempty "\" u) as Hne.
    rewrite List.Forall_forall in Hno. apply Hno.
    destruct (split "\" u) as [| w ws]; [congruence|].
    apply (@exists_last _ (w :: ws)) in Hne as (l' & a & ->).
    rewrite last_last. apply in_or_app. right. now left.
  - intros domain name Hname. unfold normalize_username.
    assert (Hu : match domain ++ String "\" name with
                 | EmptyString => "unknown"
                 | String _ _ => domain ++ String "\" name
                 end = domain ++ String "\" name).
    { destruct domain; reflexivity. }
    rewrite Hu, last_split_app, has_char_false_split by exact Hname.
    reflexivity.
  - intros name Hne Hname. unfold normalize_username.
    destruct name as [| c name]; [congruence|].
    rewrite has_char_false_split by exact Hname. reflexivity.
Qed.

(** ** The snapshot the scan builds *)

Lemma dict_set_fresh {V : Type} (d : list (Z * V)) (k : Z) (v : V) :
  ~ In k (dict_keys d) -> dict_set k v d = (d ++ [(k, v)])%list.
Proof.
  induction d as [| [k' v'] d IH]; simpl; [reflexivity|].
  intros H. destruct (Z.eqb_spec k' k) as [-> | NE]; [tauto|].
  rewrite IH by tauto. reflexivity.
Qed.

(** One iteration of the scan that returns: a kept process is appended to
    the state, with the chain of its ancestors; any other process leaves the
    state as it is. *)
Lemma scan_one_step {lc : StrLower}
    depth os filter processes children_map proc st' :
  scan_one depth os filter (processes, children_map) proc = Ok st' ->
  if kept os filter proc then
    is_ok (get_parent_tree depth os (info_pid proc)) = true /\
    st' = (dict_set (info_pid proc) (record_of depth os proc) processes,
           <[info_ppid proc :=
               (default [] (children_map !! info_ppid proc) ++ [info_pid proc])%list]>
             children_map)
  else st' = (processes, children_map).
Proof.
  unfold scan_one, scan_body, kept, memory_read, record_of, passes_filter.
  destruct filter as [[pid | name] |]; simpl;
    repeat match goal with
           | |- context [negb ?b] => destruct b; simpl
           end;
    try (intros [= <-]; reflexivity);
    destruct (os_memory_percent os (info_pid proc)) as [m | |]; simpl;
    try (intros [= <-]; reflexivity);
    destruct (get_parent_tree depth os (info_pid proc)) as [t | e] eqn:Hwalk;
    simpl;
    try (intros [= <-]; split; reflexivity);
    apply get_parent_tree_raises in Hwalk; subst e; discriminate.
Qed.

(** One iteration of the scan raises only when the walk up the ancestors of
    a kept process runs out of stack. *)
Lemma scan_one_raises {lc : StrLower} depth os filter st proc e :
  scan_one depth os filter st proc = Raise e ->
  e = RecursionError /\ kept os filter proc = true /\
  get_parent_tree depth os (info_pid proc) = Raise RecursionError.
Proof.
  destruct st as [processes children_map].
  unfold scan_one, scan_body, kept, memory_read, passes_filter.
  destruct filter as [[pid | name] |]; simpl;
    repeat match goal with
           | |- context [negb ?b] => destruct b; simpl
           end;
    try discriminate;
    destruct (os_memory_percent os (info_pid proc)) as [m | |]; simpl;
    try discriminate;
    destruct (get_parent_tree depth os (info_pid proc)) as [t | e'] eqn:Hwalk;
    simpl; try discriminate;
    apply get_parent_tree_raises in Hwalk; subst e'; simpl;
    intros [= <-]; auto.
Qed.

Lemma scan_index {lc : StrLower} depth os filter procs :
  forall processes children_map processes' children_map',
    scan depth os filter procs (processes, children_map) =
      Ok (processes', children_map') ->
    forall parent,
      default [] (children_map' !! parent) =
      (default [] (children_map !! parent) ++
       kept_children os filter parent procs)%list.
Proof.
  induction procs as [| proc procs IH];
    intros processes children_map processes' children_map'; simpl.
  - intros [= <- <-] parent. unfold kept_children. simpl. now rewrite app_nil_r.
  - destruct (scan_one depth os filter (processes, children_map) proc)
      as [[ps1 cm1] | e] eqn:H1; simpl; [| discriminate].
    intros Hscan parent. rewrite (IH _ _ _ _ Hscan parent).
    apply scan_one_step in H1. unfold kept_children. simpl.
    destruct (kept os filter proc); simpl.
    + destruct H1 as [_ [= -> ->]].
      destruct (Z.eqb_spec (info_ppid proc) parent) as [<- | NE]; simpl.
      * rewrite lookup_insert_eq. simpl. now rewrite <- app_assoc.
      * rewrite lookup_insert_ne by exact NE. reflexivity.
    + injection H1 as -> ->. reflexivity.
Qed.

Lemma scan_no_empty_list {lc : StrLower} depth os filter procs :
  forall st st',
    (forall parent children, snd st !! parent = Some children -> children <> []) ->
    scan depth os filter procs st = Ok st' ->
    forall parent children, snd st' !! parent = Some children -> children <> [].
Proof.
  induction procs as [| proc procs IH]; intros [processes children_map] st' Hst;
    simpl.
  - intros [= <-]. exact Hst.
  - destruct (scan_one depth os filter (processes, children_map) proc)
      as [[ps1 cm1] | e] eqn:H1; simpl; [| discriminate].
    apply IH. apply scan_one_step in H1.
    destruct (kept os filter proc);
      [destruct H1 as [_ [= -> ->]] | injection H1 as -> ->; exact Hst].
    simpl. intros parent children.
    destruct (decide (info_ppid proc = parent)) as [<- | NE].
    + rewrite lookup_insert_eq. intros [= <-].
      destruct (default [] (children_map !! info_ppid proc)); discriminate.
    + rewrite lookup_insert_ne by exact NE. apply Hst.
Qed.

Lemma scan_records {lc : StrLower} depth os filter procs :
  forall processes children_map processes' children_map',
    List.NoDup (map info_pid procs) ->
    (forall proc, In proc procs -> ~ In (info_pid proc) (dict_keys processes)) ->
    scan depth os filter procs (processes, children_map) =
      Ok (processes', children_map') ->
    processes' =
    (processes ++
     map (fun proc => (info_pid proc, record_of depth os proc))
       (List.filter (kept os filter) procs))%list.
Proof.
  induction procs as [| proc procs IH];
    intros processes children_map processes' children_map' Hnd Hfresh; simpl.
  - intros [= <- <-]. now rewrite app_nil_r.
  - destruct (scan_one depth os filter (processes, children_map) proc)
      as [[ps1 cm1] | e] eqn:H1; simpl; [| discriminate].
    simpl in Hnd. apply List.NoDup_cons_iff in Hnd as [Hp Hnd].
    intros Hscan. apply scan_one_step in H1.
    destruct (kept os filter proc);
      [destruct H1 as [_ [= -> ->]] | injection H1 as -> ->].
    + rewrite dict_set_fresh in Hscan by (apply Hfresh; now left).
      apply (IH _ _ _ _ Hnd) in Hscan.
      * rewrite Hscan. simpl. now rewrite <- app_assoc.
      * intros q Hq. unfold dict_keys. rewrite map_app, in_app_iff. simpl.
        intros [Hk | [Hk | []]].
        -- apply (Hfresh q); [now right | exact Hk].
        -- apply Hp. rewrite Hk. now apply in_map.
    + apply (IH _ _ _ _ Hnd) in Hscan; [exact Hscan|].
      intros q Hq. apply Hfresh. now right.
Qed.

Lemma scan_kept_walks {lc : StrLower} depth os filter procs :
  forall st st',
    scan depth os filter procs st = Ok st' ->
    forall proc, In proc procs -> kept os filter proc = true ->
      is_ok (get_parent_tree depth os (info_pid proc)) = true.
Proof.
  induction procs as [| p procs IH]; intros [processes children_map] st'; simpl.
  - intros _ proc [].
  - destruct (scan_one depth os filter (processes, children_map) p)
      as [st1 | e] eqn:H1; simpl; [| discriminate].
    intros Hscan proc [<- | Hin] Hkept.
    + apply scan_one_step in H1. rewrite Hkept in H1. apply H1.
    + eapply IH; eauto.
Qed.

Lemma scan_raises {lc : StrLower} depth os filter procs :
  forall st e, scan depth os filter procs st = Raise e -> e = RecursionError.
Proof.
  induction procs as [| p procs IH]; intros st e; simpl; [discriminate|].
  destruct (scan_one depth os filter st p) as [st1 | e1] eqn:H1; simpl.
  - apply IH.
  - intros [= <-]. now apply scan_one_raises in H1.
Qed.

Lemma scan_length {lc : StrLower} depth os filter procs :
  forall st st',
    scan depth os filter procs st = Ok st' ->
    (length (fst st') <=
     length (fst st) + length (List.filter (kept os filter) procs))%nat.
Proof.
  induction procs as [| p procs IH]; intros [processes children_map] st'; simpl.
  - intros [= <-]. simpl. lia.
  - destruct (scan_one depth os filter (processes, children_map) p)
      as [st1 | e] eqn:H1; simpl; [| discriminate].
    intros Hscan. apply IH in Hscan. apply scan_one_step in H1.
    destruct (kept os filter p); simpl.
    + destruct H1 as [_ ->]. simpl in Hscan.
      assert (length (dict_set (info_pid p) (record_of depth os p) processes)
              <= S (length processes))%nat; [| lia].
      clear. induction processes as [| [k v] ps IHps]; simpl; [lia|].
      destruct (k =? info_pid p); simpl; lia.
    + subst st1. exact Hscan.
Qed.

Lemma scan_keys_kept {lc : StrLower} depth os filter procs :
  forall st st',
    scan depth os filter procs st = Ok st' ->
    forall pid, In pid (dict_keys (fst st')) ->
      In pid (dict_keys (fst st)) \/
      exists proc, In proc procs /\ info_pid proc = pid /\
                   kept os filter proc = true.
Proof.
  induction procs as [| p procs IH]; intros [processes children_map] st'; simpl.
  - intros [= <-]. auto.
  - destruct (scan_one depth os filter (processes, children_map) p)
      as [st1 | e] eqn:H1; simpl; [| discriminate].
    intros Hscan pid Hpid. apply scan_one_step in H1.
    destruct (IH _ _ Hscan pid Hpid) as [Hin | (proc & Hin & Hp & Hk)];
      [| right; exists proc; auto].
    destruct (kept os filter p) eqn:Hkept.
    + destruct H1 as [_ ->]. simpl in Hin. rewrite dict_keys_set in Hin.
      destruct (dict_mem (info_pid p) processes); [now left|].
      apply in_app_iff in Hin as [Hin | [<- | []]]; [now left|].
      right. exists p. auto.
    + subst st1. now left.
Qed.

(** ** The aggregation loop sets every total *)

Lemma aggregate_sets_totals depth children_map pids :
  forall ps memo ps' memo',
    aggregate depth pids ps children_map memo = Ok (ps', memo') ->
    (forall k, is_Some (total_of ps k) -> is_Some (total_of ps' k)) /\
    (forall pid, In pid pids -> is_Some (total_of ps' pid)).
Proof.
  induction pids as [| pid rest IH]; intros ps memo ps' memo'; simpl.
  - intros [= <- _]. split; [auto | intros pid []].
  - destruct (compute_memory_with_children depth pid ps children_map memo ∅)
      as [[total [memo1 visited1]] | e]; simpl; [| discriminate].
    unfold dict_item. destruct (dict_get pid ps) as [proc|] eqn:Hproc; simpl;
      [| discriminate].
    intros H. apply IH in H as [Hkeep Hset].
    assert (Hstep : forall k, is_Some (total_of ps k) \/ k = pid ->
              is_Some (total_of (dict_set pid (set_memory_total total proc) ps) k)).
    { intros k Hk. unfold total_of in *. rewrite dict_get_set.
      destruct (Z.eqb_spec pid k) as [-> | NE]; [simpl; eauto|].
      destruct Hk as [Hk | ->]; [exact Hk | congruence]. }
    split.
    + intros k Hk. apply Hkeep, Hstep. now left.
    + intros k [<- | Hin]; [| now apply Hset].
      apply Hkeep, Hstep. now right.
Qed.

Lemma list_process_parts {lc : StrLower}
    depth os filter procs processes children_map :
  list_process depth os filter procs = Ok (processes, children_map) ->
  exists scanned memo,
    scan depth os filter procs ([], ∅) = Ok (scanned, children_map) /\
    aggregate depth (dict_keys scanned) scanned children_map ∅ =
      Ok (processes, memo).
Proof.
  unfold list_process.
  destruct (scan depth os filter procs ([], ∅)) as [[scanned cm] | e]; simpl;
    [| discriminate].
  destruct (aggregate depth (dict_keys scanned) scanned cm ∅)
    as [[ps' memo] | e] eqn:Hagg; simpl; [| discriminate].
  intros [= <- <-]. eauto.
Qed.

Lemma dict_get_NoDup {V : Type} (d : list (Z * V)) (k : Z) (v : V) :
  List.NoDup (dict_keys d) -> In (k, v) d -> dict_get k d = Some v.
Proof.
  induction d as [| [k' v'] d IH]; simpl; [intros _ []|].
  intros Hnd. apply List.NoDup_cons_iff in Hnd as [Hk Hnd].
  intros [[= -> ->] | Hin].
  - now rewrite Z.eqb_refl.
  - destruct (Z.eqb_spec k' k) as [-> | NE]; [| now apply IH].
    exfalso. apply Hk. change k with (fst (k, v)). now apply in_map.
Qed.

Lemma NoDup_map_filter {A B : Type} (f : A -> B) (p : A -> bool) (l : list A) :
  List.NoDup (map f l) -> List.NoDup (map f (List.filter p l)).
Proof.
  induction l as [| a l IH]; simpl; [auto|].
  intros H. apply List.NoDup_cons_iff in H as [Ha Hl].
  destruct (p a); simpl; [| now apply IH].
  apply List.NoDup_cons; [| now apply IH].
  intros Hin. apply Ha. apply in_map_iff in Hin as (x & Hx & Hin).
  apply filter_In in Hin as [Hin _]. rewrite <- Hx. now apply in_map.
Qed.

(** What [list_process] returns from a table of distinct pids: distinct
    keys, a total in every record, and no pid twice in a list of the
    index. *)
Lemma list_process_distinct {lc : StrLower}
    depth os filter procs processes children_map :
  List.NoDup (map info_pid procs) ->
  list_process depth os filter procs = Ok (processes, children_map) ->
  List.NoDup (dict_keys processes) /\
  (forall k v, In (k, v) processes ->
     dict_get k processes = Some v /\ is_Some (p_memory_total v)) /\
  (forall parent children,
     children_map !! parent = Some children -> List.NoDup children).
Proof.
  intros Hdistinct Hlist.
  destruct (list_process_parts _ _ _ _ _ _ Hlist) as (scanned & memo & Hscan & Hagg).
  pose proof (aggregate_similar _ _ _ _ _ _ _ Hagg) as Hsim.
  pose proof (scan_index _ _ _ _ _ _ _ _ Hscan) as Hindex.
  apply scan_records in Hscan; [| exact Hdistinct | intros proc _ []].
  simpl in Hscan.
  assert (Hkeys : List.NoDup (dict_keys processes)).
  { rewrite <- (dict_similar_keys _ _ Hsim), Hscan. unfold dict_keys.
    rewrite map_map. simpl. now apply NoDup_map_filter. }
  split; [exact Hkeys|]. split.
  - intros k v Hin.
    assert (Hget : dict_get k processes = Some v) by now apply dict_get_NoDup.
    split; [exact Hget|].
    destruct (aggregate_sets_totals _ _ _ _ _ _ _ Hagg) as [_ Hset].
    specialize (Hset k). unfold total_of in Hset. rewrite Hget in Hset.
    apply Hset. rewrite (dict_similar_keys _ _ Hsim).
    change k with (fst (k, v)). now apply in_map.
  - intros parent children Hl. specialize (Hindex parent).
    rewrite Hl, lookup_empty in Hindex. simpl in Hindex. subst children.
    unfold kept_children. now apply NoDup_map_filter.
Qed.

(** The records of the result, one for each kept process, in the order of
    the iteration. *)
Lemma list_process_records {lc : StrLower}
    depth os filter procs processes children_map :
  List.NoDup (map info_pid procs) ->
  list_process depth os filter procs = Ok (processes, children_map) ->
  Forall2 (scanned_from depth os) (List.filter (kept os filter) procs) processes.
Proof.
  intros Hdistinct Hlist.
  destruct (list_process_parts _ _ _ _ _ _ Hlist) as (scanned & memo & Hscan & Hagg).
  pose proof (aggregate_similar _ _ _ _ _ _ _ Hagg) as Hsim.
  pose proof (scan_kept_walks _ _ _ _ _ _ Hscan) as Hwalks.
  apply scan_records in Hscan; [| exact Hdistinct | intros proc _ []].
  simpl in Hscan.
  assert (Htotals : forall entry, In entry processes ->
            is_Some (p_memory_total (snd entry))).
  { destruct (list_process_distinct _ _ _ _ _ _ Hdistinct Hlist)
      as (_ & Hentries & _).
    intros [k v] Hin. exact (proj2 (Hentries k v Hin)). }
  clear Hagg Hlist Hdistinct.
  assert (Hkept : forall proc, In proc (List.filter (kept os filter) procs) ->
            kept os filter proc = true /\
            is_ok (get_parent_tree depth os (info_pid proc)) = true).
  { intros proc Hin. apply filter_In in Hin as [Hin Hk]. auto. }
  clear Hwalks. subst scanned.
  revert processes Hsim Htotals.
  induction (List.filter (kept os filter) procs) as [| proc l IH];
    intros processes Hsim Htotals; inversion Hsim as [| a b l1 l2 [Hk Hf] Hrest];
    subst; constructor.
  - destruct (Hkept proc (or_introl eq_refl)) as [Hkp Hwalk].
    destruct Hf as (Hpid & Hppid & Hname & Huser & Hmem & Hchain).
    unfold kept, memory_read in Hkp. apply andb_true_iff in Hkp as [_ Hread].
    unfold record_of in *. simpl in *.
    destruct (os_memory_percent os (info_pid proc)) as [m | |] eqn:Hm;
      try discriminate.
    destruct (get_parent_tree depth os (info_pid proc)) as [chain |] eqn:Hc;
      try discriminate.
    unfold scanned_from. rewrite Hm, Hc.
    split; [auto|]. split; [auto|]. split; [auto|]. split; [auto|].
    split; [auto|]. split; [exists m; auto|]. split; [congruence|].
    apply Htotals. now left.
  - apply IH; [intros q Hq; apply Hkept; now right | exact Hrest |].
    intros entry Hin. apply Htotals. now right.
Qed.

(** X6: [list_process] returns, in the order of the iteration over the
    process table, one record for each process that passes the filter and
    whose memory is read, and no other: the record is stored under the pid of
    the process and holds the prefetched pid and parent pid, the name (empty
    when psutil has none), the owner without its domain, the memory
    percentage rounded to two decimals, the chain [get_parent_tree] returns
    for the process, and a total. *)
Theorem list_process_snapshot {lc : StrLower}
    (depth : nat) (os : snapshot_source)
    (filter : option filter_arg) (procs : list raw_proc)
    (processes : list (Z * proc_record)) (children_map : gmap Z (list Z))
    (Hdistinct : List.NoDup (map info_pid procs))
    (Hlist : list_process depth os filter procs = Ok (processes, children_map)) :
  Forall2 (scanned_from depth os) (List.filter (kept os filter) procs) processes.
Proof.
  exact (list_process_records depth os filter procs processes children_map
           Hdistinct Hlist).
Qed.

Lemma flaky_procs_distinct : List.NoDup (map info_pid flaky_procs).
Proof. repeat constructor; simpl; intuition discriminate. Qed.

Lemma flaky_snapshot_listed :
  list_process 10 flaky_os None flaky_procs =
    Ok (fst flaky_snapshot, snd flaky_snapshot).
Proof. vm_compute. reflexivity. Qed.

Lemma list_process_snapshot_witness :
  List.filter (kept flaky_os None) flaky_procs =
    [raw 1 0 "a"; raw 2 1 "b"; raw 4 2 "d"] /\
  Forall2 (scanned_from 10 flaky_os)
    (List.filter (kept flaky_os None) flaky_procs) (fst flaky_snapshot).
Proof.
  split; [reflexivity|].
  exact (list_process_snapshot 10 flaky_os None flaky_procs
           (fst flaky_snapshot) (snd flaky_snapshot)
           flaky_procs_distinct flaky_snapshot_listed).
Defined.

(** X7: the index [list_process] returns lists under each parent pid exactly
    the kept processes that report it as their parent, in the order of the
    iteration; a pid under which no kept process stands is no key of the
    index, so no list of the index is empty. *)
Theorem list_process_index {lc : StrLower} (depth : nat) (os : snapshot_source)
    (filter : option filter_arg) (procs : list raw_proc)
    (processes : list (Z * proc_record)) (children_map : gmap Z (list Z))
    (Hlist : list_process depth os filter procs = Ok (processes, children_map)) :
  forall parent,
    children_map !! parent =
    match kept_children os filter parent procs with
    | [] => None
    | children => Some children
    end.
Proof.
  destruct (list_process_parts _ _ _ _ _ _ Hlist) as (scanned & memo & Hscan & _).
  intros parent.
  pose proof (scan_index _ _ _ _ _ _ _ _ Hscan parent) as Hindex.
  rewrite lookup_empty in Hindex. simpl in Hindex.
  destruct (children_map !! parent) as [children|] eqn:Hl; simpl in Hindex.
  - rewrite <- Hindex. destruct children; [| reflexivity].
    exfalso.
    refine (scan_no_empty_list _ _ _ _ ([], ∅) _ _ Hscan parent [] Hl eq_refl).
    simpl. intros p c H. rewrite lookup_empty in H. discriminate.
  - now rewrite <- Hindex.
Qed.

Lemma list_process_index_witness :
  snd flaky_snapshot !! 1 = Some [2] /\
  snd flaky_snapshot !! 3 = None.
Proof.
  pose proof (list_process_index 10 flaky_os None flaky_procs
                (fst flaky_snapshot) (snd flaky_snapshot)
                flaky_snapshot_listed) as H.
  split; [exact (H 1) | exact (H 3)].
Defined.

Lemma scan_none_kept {lc : StrLower} depth os filter procs :
  (forall proc, In proc procs -> kept os filter proc = false) ->
  forall st, scan depth os filter procs st = Ok st.
Proof.
  induction procs as [| p procs IH]; intros Hnone [processes children_map];
    simpl; [reflexivity|].
  destruct (scan_one depth os filter (processes, children_map) p)
    as [st1 | e] eqn:H1; simpl.
  - apply scan_one_step in H1. rewrite (Hnone p (or_introl eq_refl)) in H1.
    subst st1. apply IH. intros q Hq. apply Hnone. now right.
  - apply scan_one_raises in H1 as (_ & Hk & _).
    rewrite (Hnone p (or_introl eq_refl)) in Hk. discriminate.
Qed.

(** X8: every key of the processes [list_process] returns is the pid of a
    process of the table that passes the filter and whose memory is read;
    when the table has no such process (an empty table, a filter nothing
    matches) the result is the empty snapshot, whatever stack there is. *)
Theorem list_process_filtered {lc : StrLower}
    (depth : nat) (os : snapshot_source)
    (filter : option filter_arg) (procs : list raw_proc) :
  (forall processes children_map,
     list_process depth os filter procs = Ok (processes, children_map) ->
     forall pid, In pid (dict_keys processes) ->
       exists proc, In proc procs /\ info_pid proc = pid /\
                    passes_filter filter proc = true /\
                    memory_read os proc = true) /\
  ((forall proc, In proc procs -> kept os filter proc = false) ->
   list_process depth os filter procs = Ok ([], ∅)).
Proof.
  split.
  - intros processes children_map Hlist pid Hpid.
    destruct (list_process_parts _ _ _ _ _ _ Hlist)
      as (scanned & memo & Hscan & Hagg).
    apply aggregate_similar, dict_similar_keys in Hagg. rewrite <- Hagg in Hpid.
    destruct (scan_keys_kept _ _ _ _ _ _ Hscan pid Hpid)
      as [[] | (proc & Hin & Hp & Hk)].
    apply andb_true_iff in Hk. exists proc. tauto.
  - intros Hnone. unfold list_process.
    rewrite (scan_none_kept _ _ _ _ Hnone). reflexivity.
Qed.

(** ** What the aggregation can raise *)

Lemma sum_children_raises rec processes child_pids :
  (forall c memo visited e,
     In c child_pids -> dict_mem c processes = true ->
     rec c memo visited = Raise e -> e = RecursionError) ->
  forall total memo visited e,
    sum_children rec processes child_pids total memo visited = Raise e ->
    e = RecursionError.
Proof.
  induction child_pids as [| c cs IH]; intros Hrec total memo visited e; simpl;
    [discriminate|].
  assert (Hrec' : forall c' memo visited e, In c' cs ->
            dict_mem c' processes = true ->
            rec c' memo visited = Raise e -> e = RecursionError).
  { intros c' m v e' Hin. apply Hrec. now right. }
  destruct (dict_mem c processes) eqn:Hc; [| now apply IH].
  destruct (rec c memo visited) as [[sub [memo1 visited1]] | e1] eqn:H1; simpl.
  - now apply IH.
  - intros [= <-]. eapply Hrec; eauto. now left.
Qed.

Lemma compute_memory_raises processes children_map depth :
  forall pid memo visited e,
    compute_memory_with_children depth pid processes children_map memo visited =
      Raise e ->
    e = RecursionError \/
    (e = KeyError /\ depth <> O /\ memo !! pid = None /\ (pid ∉ visited) /\
     ~ In pid (dict_keys processes)).
Proof.
  induction depth as [| d IH]; intros pid memo visited e; simpl.
  - intros [= <-]. now left.
  - destruct (memo !! pid) eqn:Hmemo; [discriminate|].
    destruct (decide (pid ∈ visited)) as [Hv | Hv]; [discriminate|].
    unfold dict_item. destruct (dict_get pid processes) as [proc|] eqn:Hproc;
      simpl.
    + destruct (sum_children _ processes _ (p_memory proc) memo
                  ({[pid]} ∪ visited))
        as [[total [memo1 visited1]] | e1] eqn:Hsum; simpl; [discriminate|].
      intros [= <-]. left.
      eapply sum_children_raises; [| exact Hsum].
      intros c m v e' _ Hc Hcall.
      destruct (IH _ _ _ _ Hcall) as [-> | (_ & _ & _ & _ & Hk)];
        [reflexivity|].
      apply dict_mem_true in Hc. contradiction.
    + intros [= <-]. right. split; [reflexivity|]. split; [discriminate|].
      split; [reflexivity|]. split; [exact Hv|]. now apply dict_get_None.
Qed.

(** X9: [compute_memory_with_children] raises [KeyError] exactly when it is
    called for a pid that is not in [memo], not in [visited] and no key of
    [processes]: the children are looked up only after the [in processes]
    test, so no call below the first raises it.  Apart from that the call
    raises only when the stack is used up. *)
Theorem compute_memory_key_error (depth : nat) (pid : Z)
    (processes : list (Z * proc_record)) (children_map : gmap Z (list Z))
    (memo : gmap Z Q) (visited : gset Z) :
  (forall e,
     compute_memory_with_children depth pid processes children_map memo visited =
       Raise e ->
     e = RecursionError \/ e = KeyError) /\
  (compute_memory_with_children depth pid processes children_map memo visited =
     Raise KeyError <->
   depth <> O /\ memo !! pid = None /\ (pid ∉ visited) /\
   ~ In pid (dict_keys processes)).
Proof.
  split.
  - intros e H. apply compute_memory_raises in H. tauto.
  - split.
    + intros H. apply compute_memory_raises in H as [[=] | H]. tauto.
    + intros (Hd & Hm & Hv & Hk). destruct depth as [| d]; [congruence|].
      now apply compute_memory_missing_key.
Qed.

Lemma aggregate_raises depth children_map pids :
  forall ps memo e,
    (forall pid, In pid pids -> In pid (dict_keys ps)) ->
    aggregate depth pids ps children_map memo = Raise e ->
    e = RecursionError.
Proof.
  induction pids as [| pid rest IH]; intros ps memo e Hkeys; simpl;
    [discriminate|].
  assert (Hpid : In pid (dict_keys ps)) by (apply Hkeys; now left).
  destruct (compute_memory_with_children depth pid ps children_map memo ∅)
    as [[total [memo1 visited1]] | e1] eqn:Hcall; simpl.
  - unfold dict_item. apply dict_get_is_Some in Hpid as [proc Hproc].
    rewrite Hproc. simpl. apply IH. intros k Hk.
    rewrite dict_keys_set.
    assert (Hmem : dict_mem pid ps = true).
    { apply dict_mem_true, dict_get_is_Some. eauto. }
    rewrite Hmem. apply Hkeys. now right.
  - intros [= <-].
    apply compute_memory_raises in Hcall as [-> | (_ & _ & _ & _ & Hk)];
      [reflexivity | contradiction].
Qed.

(** X10: [list_process] returns or raises [RecursionError]: the signals of
    psutil are handled inside the loop, and no [KeyError] arises in the
    aggregation, which looks up only keys of [processes]. *)
Theorem list_process_raises_only {lc : StrLower}
    (depth : nat) (os : snapshot_source)
    (filter : option filter_arg) (procs : list raw_proc) :
  (exists processes children_map,
     list_process depth os filter procs = Ok (processes, children_map)) \/
  list_process depth os filter procs = Raise RecursionError.
Proof.
  unfold list_process.
  destruct (scan depth os filter procs ([], ∅)) as [[scanned cm] | e] eqn:Hscan;
    simpl.
  - destruct (aggregate depth (dict_keys scanned) scanned cm ∅)
      as [[ps' memo] | e] eqn:Hagg; simpl.
    + left. eauto.
    + right. apply aggregate_raises in Hagg; [now subst | auto].
  - right. apply scan_raises in Hscan. now subst.
Qed.

Lemma scan_returns {lc : StrLower} depth os filter procs :
  (forall proc, In proc procs -> kept os filter proc = true ->
     is_ok (get_parent_tree depth os (info_pid proc)) = true) ->
  forall st, exists st', scan depth os filter procs st = Ok st'.
Proof.
  induction procs as [| p procs IH]; intros Hwalks st; simpl; [eauto|].
  destruct (scan_one depth os filter st p) as [st1 | e] eqn:H1; simpl.
  - apply IH. intros q Hq. apply Hwalks. now right.
  - apply scan_one_raises in H1 as (_ & Hk & Hwalk).
    specialize (Hwalks p (or_introl eq_refl) Hk). rewrite Hwalk in Hwalks.
    discriminate.
Qed.

(** X11: [list_process] returns when the stack is deeper than the walk up
    the ancestors of every kept process and than the number of kept
    processes. *)
Theorem list_process_returns {lc : StrLower}
    (depth : nat) (os : snapshot_source)
    (filter : option filter_arg) (procs : list raw_proc)
    (Hwalks : forall proc, In proc procs -> kept os filter proc = true ->
       exists n, (n < depth)%nat /\ walk_ends os (info_pid proc) n)
    (Hdepth : (length (List.filter (kept os filter) procs) < depth)%nat) :
  exists processes children_map,
    list_process depth os filter procs = Ok (processes, children_map).
Proof.
  unfold list_process.
  destruct (scan_returns depth os filter procs) with (st := ([], ∅) : snapshot)
    as [[scanned cm] Hscan].
  { intros proc Hin Hk. destruct (Hwalks proc Hin Hk) as (n & Hn & Hw).
    destruct (get_parent_tree_returns os n _ Hw) as [t Ht].
    now rewrite (Ht depth Hn). }
  rewrite Hscan. simpl.
  pose proof (scan_length _ _ _ _ _ _ Hscan) as Hlen. simpl in Hlen.
  destruct (aggregate_all scanned cm no_invariant
              ltac:(intros; exact I) ltac:(intros; exact I) depth)
    as (ps' & memo & Hagg & _); [lia|].
  rewrite Hagg. simpl. eauto.
Qed.

Lemma list_process_returns_witness :
  exists processes children_map,
    list_process 10 flaky_os None flaky_procs = Ok (processes, children_map).
Proof.
  apply (list_process_returns 10 flaky_os None flaky_procs).
  - intros proc _ _. exists 0%nat. split; [lia|].
    now apply walk_ends_no_parent.
  - simpl. lia.
Defined.

(** X12: the [except] of the scan handles the signals of psutil only: when
    the walk up the ancestors of one kept process uses up the stack, the
    [RecursionError] leaves [list_process], and no snapshot is returned. *)
Theorem list_process_recursion_escapes {lc : StrLower}
    (depth : nat) (os : snapshot_source)
    (filter : option filter_arg) (procs : list raw_proc) (proc : raw_proc)
    (Hin : In proc procs)
    (Hkept : kept os filter proc = true)
    (Hwalk : get_parent_tree depth os (info_pid proc) = Raise RecursionError) :
  list_process depth os filter procs = Raise RecursionError.
Proof.
  unfold list_process.
  destruct (scan depth os filter procs ([], ∅)) as [[scanned cm] | e] eqn:Hscan;
    simpl.
  - pose proof (scan_kept_walks _ _ _ _ _ _ Hscan proc Hin Hkept) as Hok.
    rewrite Hwalk in Hok. discriminate.
  - apply scan_raises in Hscan. now subst.
Qed.

Lemma list_process_recursion_escapes_witness :
  list_process 10 cyclic_os None [raw 1 0 "a"; raw 5 7 "five"] =
    Raise RecursionError.
Proof.
  apply (list_process_recursion_escapes 10 cyclic_os None
           [raw 1 0 "a"; raw 5 7 "five"] (raw 5 7 "five")).
  - simpl. auto.
  - reflexivity.
  - vm_compute. reflexivity.
Defined.

(** ** A process that cannot be read *)

Lemma NoDup_map_In_eq {A B : Type} (f : A -> B) (l : list A) (x y : A) :
  List.NoDup (map f l) -> In x l -> In y l -> f x = f y -> x = y.
Proof.
  induction l as [| a l IH]; simpl; [intros _ []|].
  intros Hnd. apply List.NoDup_cons_iff in Hnd as [Ha Hnd].
  intros [<- | Hx] [<- | Hy] Heq; auto.
  - exfalso. apply Ha. rewrite Heq. now apply in_map.
  - exfalso. apply Ha. rewrite <- Heq. now apply in_map.
Qed.


(** A denied name, a denied owner and a denied parent do not cost a process
    its place in the snapshot: the name becomes empty, the owner
    ["unknown"] and the ancestor chain empty, and the index lists the
    process under its parent. *)
Lemma list_process_keeps_denied_reads :
  (s ← list_process 10 guarded_os None
         [{| info_pid := 3; info_ppid := 1;
             info_name := None; info_username := None |}];
   Ok (map (fun entry =>
              (fst entry, p_name (snd entry), p_username (snd entry),
               p_ppids (snd entry))) (fst s),
       snd s !! 1)) =
  Ok ([(3, "", "unknown", NoParent)], Some [3]).
Proof. vm_compute. reflexivity. Qed.

(** C8, as the code has it: the read that costs a process its place is the
    one of its memory percentage.  When that read raises [NoSuchProcess] or
    [AccessDenied] for one process of a table of distinct pids, nothing is
    raised on its account: [list_process] ends as it does on the table
    without that process, and it returns when the stack is deep enough for
    the others.  What it returns holds no record under the pid and lists
    the pid under no parent; it holds, in the order of the iteration, the
    record of every other process that passes the filter and whose memory
    is read, and the index lists these and no others. *)
Theorem list_process_drops_failed {lc : StrLower}
    (depth : nat) (os : snapshot_source)
    (filter : option filter_arg) (before after : list raw_proc)
    (proc : raw_proc)
    (Hpids : List.NoDup (map info_pid (before ++ proc :: after)))
    (Hfail : read_fails (os_memory_percent os (info_pid proc))) :
  list_process depth os filter (before ++ proc :: after) =
    list_process depth os filter (before ++ after) /\
  ((forall q, In q (before ++ after) -> kept os filter q = true ->
      exists n, (n < depth)%nat /\ walk_ends os (info_pid q) n) ->
   (length (List.filter (kept os filter) (before ++ after)) < depth)%nat ->
   is_ok (list_process depth os filter (before ++ proc :: after)) = true) /\
  (forall processes children_map,
     list_process depth os filter (before ++ proc :: after) =
       Ok (processes, children_map) ->
     dict_get (info_pid proc) processes = None /\
     (forall parent children,
        children_map !! parent = Some children ->
        ~ In (info_pid proc) children) /\
     Forall2 (scanned_from depth os)
       (List.filter (kept os filter) (before ++ after)) processes /\
     forall parent,
       children_map !! parent =
       match kept_children os filter parent (before ++ after) with
       | [] => None
       | children => Some children
       end).
Proof.
  assert (Hsame : list_process depth os filter (before ++ proc :: after) =
                  list_process depth os filter (before ++ after)).
  { unfold list_process. now rewrite scan_dropped. }
  assert (Hothers : List.NoDup (map info_pid (before ++ after))).
  { rewrite map_app in *. simpl in Hpids. now apply List.NoDup_remove_1 in Hpids. }
  assert (Hdropped : kept os filter proc = false).
  { unfold kept, memory_read. destruct Hfail as [-> | ->]; apply andb_false_r. }
  split; [exact Hsame|]. split.
  - intros Hwalks Hdepth. rewrite Hsame. unfold list_process.
    destruct (scan_returns depth os filter (before ++ after))
      with (st := ([], ∅) : snapshot) as [[scanned cm] Hscan].
    { intros q Hin Hk. destruct (Hwalks q Hin Hk) as (n & Hn & Hw).
      destruct (get_parent_tree_returns os n _ Hw) as [t Ht].
      now rewrite (Ht depth Hn). }
    rewrite Hscan. simpl.
    pose proof (scan_length _ _ _ _ _ _ Hscan) as Hlen. simpl in Hlen.
    destruct (aggregate_all scanned cm no_invariant
                ltac:(intros; exact I) ltac:(intros; exact I) depth)
      as (ps' & memo & Hagg & _); [lia|].
    now rewrite Hagg.
  - intros processes children_map Hlist.
    pose proof Hlist as Hlist'. rewrite Hsame in Hlist'.
    pose proof (list_process_records _ _ _ _ _ _ Hothers Hlist') as Hrecords.
    destruct (list_process_parts _ _ _ _ _ _ Hlist')
      as (scanned & memo & Hscan & _).
    pose proof (scan_index _ _ _ _ _ _ _ _ Hscan) as Hindex.
    assert (Hlisted : forall parent children,
              children_map !! parent = Some children ->
              children = kept_children os filter parent (before ++ after)).
    { intros parent children Hl. specialize (Hindex parent).
      now rewrite Hl, lookup_empty in Hindex. }
    split; [| split; [| split; [exact Hrecords|]]].
    + apply dict_get_None. intros Hkey.
      destruct (list_process_parts _ _ _ _ _ _ Hlist)
        as (scanned' & memo' & Hscan' & Hagg').
      apply aggregate_similar, dict_similar_keys in Hagg'.
      rewrite <- Hagg' in Hkey.
      destruct (scan_keys_kept _ _ _ _ _ _ Hscan' _ Hkey)
        as [[] | (q & Hq & Hpid & Hk)].
      assert (q = proc); [| congruence].
      apply (NoDup_map_In_eq info_pid (before ++ proc :: after)); auto.
      apply in_or_app. right. now left.
    + intros parent children Hl Hin. rewrite (Hlisted _ _ Hl) in Hin.
      unfold kept_children in Hin. apply in_map_iff in Hin as (q & Hpid & Hq).
      apply filter_In in Hq as [Hq _].
      rewrite map_app in Hpids. simpl in Hpids.
      apply List.NoDup_remove_2 in Hpids. apply Hpids.
      rewrite <- map_app, <- Hpid. now apply in_map.
    + intros parent. specialize (Hindex parent).
      rewrite lookup_empty in Hindex. simpl in Hindex.
      destruct (children_map !! parent) as [children|] eqn:Hl; simpl in Hindex.
      * rewrite <- Hindex. destruct children; [| reflexivity].
        exfalso.
        refine (scan_no_empty_list _ _ _ _ ([], ∅) _ _ Hscan parent [] Hl eq_refl).
        simpl. intros p c H. rewrite lookup_empty in H. discriminate.
      * now rewrite <- Hindex.
Qed.

Lemma list_process_drops_failed_witness :
  list_process 10 flaky_os None
    ([raw 1 0 "a"; raw 2 1 "b"] ++ raw 3 1 "c" :: [raw 4 2 "d"]) =
  list_process 10 flaky_os None ([raw 1 0 "a"; raw 2 1 "b"] ++ [raw 4 2 "d"]) /\
  is_ok (list_process 10 flaky_os None
           ([raw 1 0 "a"; raw 2 1 "b"] ++ raw 3 1 "c" :: [raw 4 2 "d"])) = true /\
  dict_keys (fst flaky_snapshot) = [1; 2; 4] /\
  Forall2 (scanned_from 10 flaky_os)
    [raw 1 0 "a"; raw 2 1 "b"; raw 4 2 "d"] (fst flaky_snapshot) /\
  snd flaky_snapshot !! 1 = Some [2].
Proof.
  destruct (list_process_drops_failed 10 flaky_os None
              [raw 1 0 "a"; raw 2 1 "b"] [raw 4 2 "d"] (raw 3 1 "c"))
    as (Hsame & Hreturns & Hresult).
  - repeat constructor; simpl; intuition discriminate.
  - left. reflexivity.
  - split; [exact Hsame|]. split.
    + apply Hreturns.
      * intros q _ _. exists 0%nat. split; [lia|]. now apply walk_ends_no_parent.
      * simpl. lia.
    + destruct (Hresult _ _ flaky_snapshot_listed) as (_ & _ & Hrecords & Hindex).
      split; [reflexivity|]. split; [exact Hrecords | exact (Hindex 1)].
Defined.

(** ** The levels of the forest *)

Lemma format_proc_label proc lbl : format_proc proc = Ok lbl -> label_of proc lbl.
Proof.
  unfold format_proc, label_of.
  destruct (p_memory_total proc) as [total|]; simpl; [| discriminate].
  destruct (text_sparkline (to_float total)) as [bar|] eqn:Hbar; simpl;
    [| discriminate].
  intros [= <-]. simpl. auto.
Qed.

(** The keys come out of [sorted] in order: ascending, and descending with
    [reverse=True]. *)
Lemma sorted_ordered {A : Type} (key : A -> outcome sort_value) reverse
    (l l' : list A) :
  (forall x y kx ky, key x = Ok kx -> key y = Ok ky -> same_kind kx ky = true) ->
  sorted key reverse l = Ok l' ->
  StronglySorted
    (fun a b => exists ka kb,
       key a = Ok ka /\ key b = Ok kb /\
       if reverse then key_le kb ka else key_le ka kb) l'.
Proof.
  intros Hkind. unfold sorted.
  destruct (for_each key l) as [keys | e] eqn:Hkeys; simpl; [| discriminate].
  intros [= <-]. destruct (for_each_keys key l keys Hkeys) as [Hd _].
  fold (order_decorated reverse (combine keys l)).
  assert (Hone : one_kind (combine keys l)).
  { rewrite List.Forall_forall in Hd. intros x y Hx Hy.
    eapply Hkind; apply Hd; assumption. }
  pose proof (order_decorated_ordered reverse _ Hone) as Hsorted.
  assert (Hd' : Forall (decorated_by key)
                  (order_decorated reverse (combine keys l))).
  { refine (Permutation_Forall (order_decorated_perm reverse _) Hd). }
  induction Hsorted as [| x ordered Hs IH Hx]; simpl; [constructor|].
  apply List.Forall_cons_iff in Hd' as [Hdx Hd'].
  constructor; [now apply IH|].
  rewrite List.Forall_forall in *. intros b Hb.
  apply in_map_iff in Hb as (y & <- & Hy).
  exists (fst x), (fst y). split; [exact Hdx|]. split; [now apply Hd'|].
  specialize (Hx y Hy). unfold in_order in Hx. now destruct reverse.
Qed.

Section ForestLevels.

Context {lc : StrLower}.

Variable sort_by : string.

Variable processes : list (Z * proc_record).

Variable children_map : gmap Z (list Z).

Hypothesis Hkeys : keys_match processes = true.

Lemma add_children_labelled depth :
  forall pid nodes,
    add_children_recursive depth sort_by pid processes children_map = Ok nodes ->
    Forall (labelled processes) nodes.
Proof.
  induction depth as [| d IH]; intros pid nodes; [discriminate|].
  rewrite add_children_unfold.
  destruct (children_map !! pid) as [child_pids|]; simpl;
    [| intros [= <-]; constructor].
  destruct (sorted (sorter sort_by processes) (String.eqb sort_by "memory")
              child_pids) as [ordered | e]; simpl; [| discriminate].
  intros Hnodes. apply for_each_Forall2 in Hnodes.
  apply List.Forall_forall. intros n Hn.
  destruct (Forall2_In_right _ _ _ Hnodes n Hn) as (c & _ & Hc).
  apply node_added in Hc as (proc & lbl & below & Hget & Hlbl & Hbelow & -> & Hl).
  constructor; [| eapply IH; eauto].
  exists proc. split; [| now apply format_proc_label].
  rewrite Hl, (keys_match_get _ _ _ Hkeys Hget). exact Hget.
Qed.

(** A relation between a group of pids and the list [sorted] makes of it
    holds at every level of the forest. *)
Variable L : list Z -> list Z -> Prop.

Hypothesis L_nil : L [] [].

Hypothesis L_sorted : forall group ordered,
  sorted (sorter sort_by processes) (String.eqb sort_by "memory") group =
    Ok ordered ->
  L group ordered.

Lemma add_children_levels depth :
  forall pid nodes,
    add_children_recursive depth sort_by pid processes children_map = Ok nodes ->
    L (default [] (children_map !! pid)) (map node_pid nodes) /\
    Forall (levels_in L children_map) nodes.
Proof.
  induction depth as [| d IH]; intros pid nodes; [discriminate|].
  rewrite add_children_unfold.
  destruct (children_map !! pid) as [child_pids|]; simpl.
  - destruct (sorted (sorter sort_by processes) (String.eqb sort_by "memory")
                child_pids) as [ordered | e] eqn:Hsorted; simpl; [| discriminate].
    intros Hnodes. split.
    + rewrite (add_nodes_pids _ _ _ Hkeys _ _ _ Hnodes). now apply L_sorted.
    + apply for_each_Forall2 in Hnodes.
      apply List.Forall_forall. intros n Hn.
      destruct (Forall2_In_right _ _ _ Hnodes n Hn) as (c & _ & Hc).
      apply (add_node_pid _ _ _ Hkeys) in Hc as (lbl & below & -> & Hl & Hbelow).
      destruct (IH c below Hbelow) as [Hlevel Hall].
      constructor; [now rewrite Hl | exact Hall].
  - intros [= <-]. split; [exact L_nil | constructor].
Qed.

Lemma build_forest_levels depth forest :
  build_forest depth sort_by processes children_map = Ok forest ->
  L (root_pids processes) (map node_pid forest) /\
  Forall (levels_in L children_map) forest.
Proof.
  rewrite build_forest_unfold.
  destruct (sorted (sorter sort_by processes) (String.eqb sort_by "memory")
              (root_pids processes)) as [ordered | e] eqn:Hsorted; simpl;
    [| discriminate].
  intros Hnodes. split.
  - rewrite (add_nodes_pids _ _ _ Hkeys _ _ _ Hnodes). now apply L_sorted.
  - apply for_each_Forall2 in Hnodes.
    apply List.Forall_forall. intros n Hn.
    destruct (Forall2_In_right _ _ _ Hnodes n Hn) as (c & _ & Hc).
    apply (add_node_pid _ _ _ Hkeys) in Hc as (lbl & below & -> & Hl & Hbelow).
    destruct (add_children_levels _ _ _ Hbelow) as [Hlevel Hall].
    constructor; [now rewrite Hl | exact Hall].
Qed.

End ForestLevels.

Lemma sorted_pid_order {lc : StrLower} sort_by processes group ordered :
  sorted (sorter sort_by processes) (String.eqb sort_by "memory") group =
    Ok ordered ->
  StronglySorted (pid_order sort_by processes) ordered.
Proof.
  intros H. apply sorted_ordered in H; [exact H|].
  intros x y kx ky. apply sorter_one_kind.
Qed.

(** A node of a forest whose levels are permutations of the child lists
    shows every pid reached from its own along the index. *)
Lemma levels_shown children_map p q :
  rtc (index_edge children_map) p q ->
  forall n, node_pid n = p ->
    levels_in (@Permutation Z) children_map n -> shown q n.
Proof.
  induction 1 as [p | p c q (children & Hl & Hc) _ IH]; intros n Hn Hlevels.
  - destruct n as [lbl nodes]. now apply shown_here.
  - inversion Hlevels as [lbl nodes Hperm Hall]; subst. simpl in *.
    rewrite Hl in Hperm. simpl in Hperm.
    apply (Permutation_in _ Hperm), in_map_iff in Hc as (n' & Hn' & Hin).
    apply shown_below, List.Exists_exists. exists n'. split; [exact Hin|].
    apply IH; [exact Hn'|]. rewrite List.Forall_forall in Hall. now apply Hall.
Qed.

(** X13: every node of the forest carries what [format_proc] makes of the
    record stored under its pid: the name, pid and owner of the record, its
    total, and the sparkline glyph of that total. *)
Theorem forest_labels {lc : StrLower} (depth : nat) (sort_by : string)
    (processes : list (Z * proc_record)) (children_map : gmap Z (list Z))
    (forest : list tree_node)
    (Hkeys : keys_match processes = true)
    (Hbuild : build_forest depth sort_by processes children_map = Ok forest) :
  Forall (labelled processes) forest.
Proof.
  revert Hbuild. rewrite build_forest_unfold.
  destruct (sorted (sorter sort_by processes) (String.eqb sort_by "memory")
              (root_pids processes)) as [ordered | e]; simpl; [| discriminate].
  intros Hnodes. apply for_each_Forall2 in Hnodes.
  apply List.Forall_forall. intros n Hn.
  destruct (Forall2_In_right _ _ _ Hnodes n Hn) as (c & _ & Hc).
  apply node_added in Hc as (proc & lbl & below & Hget & Hlbl & Hbelow & -> & Hl).
  constructor.
  - exists proc. split; [| now apply format_proc_label].
    rewrite Hl, (keys_match_get _ _ _ Hkeys Hget). exact Hget.
  - eapply add_children_labelled; eauto.
Qed.

Lemma forest_labels_witness : Forall (labelled (fst cycle_snapshot)) cycle_forest.
Proof.
  apply (forest_labels 10 "pid" (fst cycle_snapshot) (snd cycle_snapshot)).
  - vm_compute. reflexivity.
  - exact cycle_forest_built.
Defined.

(** X14: the roots of the forest, and the nodes under every node, stand in
    the order of their sort keys: ascending lower-cased names, owners or
    pids, and descending totals under ["memory"]. *)
Theorem forest_levels_sorted {lc : StrLower} (depth : nat) (sort_by : string)
    (processes : list (Z * proc_record)) (children_map : gmap Z (list Z))
    (forest : list tree_node)
    (Hkeys : keys_match processes = true)
    (Hbuild : build_forest depth sort_by processes children_map = Ok forest) :
  StronglySorted (pid_order sort_by processes) (map node_pid forest) /\
  Forall (levels_in (fun _ shown =>
                       StronglySorted (pid_order sort_by processes) shown)
            children_map) forest.
Proof.
  apply (build_forest_levels sort_by processes children_map Hkeys
           (fun _ shown => StronglySorted (pid_order sort_by processes) shown))
    with (depth := depth).
  - constructor.
  - intros group ordered. apply sorted_pid_order.
  - exact Hbuild.
Qed.

Lemma forest_levels_sorted_witness :
  StronglySorted (pid_order "pid" (fst cycle_snapshot))
    (map node_pid cycle_forest) /\
  Forall (levels_in (fun _ shown =>
                       StronglySorted (pid_order "pid" (fst cycle_snapshot)) shown)
            (snd cycle_snapshot)) cycle_forest.
Proof.
  apply (forest_levels_sorted 10 "pid" (fst cycle_snapshot) (snd cycle_snapshot)).
  - vm_compute. reflexivity.
  - exact cycle_forest_built.
Defined.

(** X15: no level of the forest loses or repeats a pid: the roots of the
    forest are the pids of [root_pids], and the nodes under a node are the
    pids the index lists for it, each as often as it is listed. *)
Theorem forest_levels_complete {lc : StrLower} (depth : nat) (sort_by : string)
    (processes : list (Z * proc_record)) (children_map : gmap Z (list Z))
    (forest : list tree_node)
    (Hkeys : keys_match processes = true)
    (Hbuild : build_forest depth sort_by processes children_map = Ok forest) :
  Permutation (root_pids processes) (map node_pid forest) /\
  Forall (levels_in (@Permutation Z) children_map) forest.
Proof.
  apply (build_forest_levels sort_by processes children_map Hkeys
           (@Permutation Z)) with (depth := depth).
  - constructor.
  - intros group ordered. apply sorted_perm.
  - exact Hbuild.
Qed.

Lemma forest_levels_complete_witness :
  Permutation (root_pids (fst cycle_snapshot)) (map node_pid cycle_forest) /\
  Forall (levels_in (@Permutation Z) (snd cycle_snapshot)) cycle_forest.
Proof.
  apply (forest_levels_complete 10 "pid" (fst cycle_snapshot)
           (snd cycle_snapshot)).
  - vm_compute. reflexivity.
  - exact cycle_forest_built.
Defined.

(** X16: the forest shows every root and every pid reached from a root
    along the index. *)
Theorem forest_shows_reachable {lc : StrLower} (depth : nat) (sort_by : string)
    (processes : list (Z * proc_record)) (children_map : gmap Z (list Z))
    (forest : list tree_node)
    (Hkeys : keys_match processes = true)
    (Hbuild : build_forest depth sort_by processes children_map = Ok forest) :
  forall root pid,
    In root (root_pids processes) ->
    rtc (index_edge children_map) root pid ->
    Exists (shown pid) forest.
Proof.
  destruct (build_forest_levels sort_by processes children_map Hkeys
              (@Permutation Z) (perm_nil Z)
              (fun group ordered => sorted_perm _ _ group ordered)
              depth forest Hbuild) as [Hroots Hall].
  intros root pid Hroot Hreach.
  apply (Permutation_in _ Hroots), in_map_iff in Hroot as (n & Hn & Hin).
  apply List.Exists_exists. exists n. split; [exact Hin|].
  eapply levels_shown; eauto.
  rewrite List.Forall_forall in Hall. now apply Hall.
Qed.

Lemma forest_shows_reachable_witness :
  Exists (shown 11) cycle_forest.
Proof.
  apply (forest_shows_reachable 10 "pid" (fst cycle_snapshot)
           (snd cycle_snapshot) cycle_forest) with (root := 10).
  - vm_compute. reflexivity.
  - exact cycle_forest_built.
  - vm_compute. auto.
  - apply rtc_once. exists [11]. split; [vm_compute; reflexivity | now left].
Defined.

(** ** Building the forest of a snapshot *)

Lemma for_each_fails {A B : Type} (f : A -> outcome B) (l : list A) (x : A) :
  In x l -> is_ok (f x) = false -> is_ok (for_each f l) = false.
Proof.
  induction l as [| a l IH]; simpl; [intros []|].
  intros [<- | Hin] Hx.
  - destruct (f a); [discriminate | reflexivity].
  - destruct (f a); simpl; [| reflexivity].
    specialize (IH Hin Hx). destruct (for_each f l); [discriminate | reflexivity].
Qed.

(** Every total is a number of hundredths: it comes out of [round(., 2)]. *)
Lemma sum_children_rounded rec processes child_pids :
  (forall c memo visited sub memo' visited',
     (forall k q, memo !! k = Some q -> exists x, q = round2 x) ->
     rec c memo visited = Ok (sub, (memo', visited')) ->
     forall k q, memo' !! k = Some q -> exists x, q = round2 x) ->
  forall total memo visited total' memo' visited',
    (forall k q, memo !! k = Some q -> exists x, q = round2 x) ->
    sum_children rec processes child_pids total memo visited =
      Ok (total', (memo', visited')) ->
    forall k q, memo' !! k = Some q -> exists x, q = round2 x.
Proof.
  intros Hrec.
  induction child_pids as [| c cs IH];
    intros total memo visited total' memo' visited' Hmemo; simpl.
  - now intros [= _ <- _].
  - destruct (dict_mem c processes); [| now apply IH].
    destruct (rec c memo visited) as [[sub [memo1 visited1]] | e] eqn:Hcall;
      simpl; [| discriminate].
    apply IH. eapply Hrec; eauto.
Qed.

Lemma compute_memory_rounded processes children_map depth :
  forall pid memo visited total memo' visited',
    (forall k q, memo !! k = Some q -> exists x, q = round2 x) ->
    compute_memory_with_children depth pid processes children_map memo visited =
      Ok (total, (memo', visited')) ->
    (forall k q, memo' !! k = Some q -> exists x, q = round2 x) /\
    (pid ∉ visited -> exists x, total = round2 x).
Proof.
  induction depth as [| d IH]; intros pid memo visited total memo' visited' Hmemo;
    simpl; [discriminate|].
  destruct (memo !! pid) as [known|] eqn:Hknown.
  - intros [= <- <- <-]. split; [exact Hmemo | intros _; eauto].
  - destruct (decide (pid ∈ visited)) as [Hv | Hv].
    + intros [= <- <- <-]. split; [exact Hmemo | contradiction].
    + unfold dict_item. destruct (dict_get pid processes) as [proc|]; simpl;
        [| discriminate].
      destruct (sum_children _ processes _ (p_memory proc) memo
                  ({[pid]} ∪ visited))
        as [[sum [memo1 visited1]] | e] eqn:Hsum; simpl; [| discriminate].
      intros [= <- <- <-]. split; [| intros _; eauto].
      intros k q. destruct (decide (pid = k)) as [-> | NE].
      * rewrite lookup_insert_eq. intros [= <-]. eauto.
      * rewrite lookup_insert_ne by exact NE.
        eapply sum_children_rounded; [| exact Hmemo | exact Hsum].
        intros c m v sub m' v' Hm Hcall. exact (proj1 (IH _ _ _ _ _ _ Hm Hcall)).
Qed.

Lemma aggregate_rounded depth children_map pids :
  forall ps memo ps' memo',
    (forall k q, memo !! k = Some q -> exists x, q = round2 x) ->
    aggregate depth pids ps children_map memo = Ok (ps', memo') ->
    (forall k,
       (forall q, total_of ps k = Some q -> exists x, q = round2 x) ->
       forall q, total_of ps' k = Some q -> exists x, q = round2 x) /\
    (forall pid, In pid pids ->
       forall q, total_of ps' pid = Some q -> exists x, q = round2 x).
Proof.
  induction pids as [| pid rest IH]; intros ps memo ps' memo' Hmemo; simpl.
  - intros [= <- _]. split; [auto | intros pid []].
  - destruct (compute_memory_with_children depth pid ps children_map memo ∅)
      as [[total [memo1 visited1]] | e] eqn:Hcall; simpl; [| discriminate].
    apply compute_memory_rounded in Hcall as [Hmemo1 Htotal]; [| exact Hmemo].
    destruct Htotal as [x ->]; [set_solver|].
    unfold dict_item. destruct (dict_get pid ps) as [proc|] eqn:Hproc; simpl;
      [| discriminate].
    intros H. apply IH in H as [Hkeep Hset]; [| exact Hmemo1].
    assert (Hstep : forall k,
              (forall q, total_of ps k = Some q -> exists x, q = round2 x) \/
              k = pid ->
              forall q,
                total_of (dict_set pid (set_memory_total (round2 x) proc) ps) k =
                  Some q ->
                exists x, q = round2 x).
    { intros k Hk q. unfold total_of in *. rewrite dict_get_set.
      destruct (Z.eqb_spec pid k) as [-> | NE]; [simpl; intros [= <-]; eauto|].
      destruct Hk as [Hk | ->]; [apply Hk | congruence]. }
    split.
    + intros k Hk. apply Hkeep, Hstep. now left.
    + intros k [<- | Hin]; [| now apply Hset].
      apply Hkeep, Hstep. now right.
Qed.

Lemma list_process_rounded {lc : StrLower}
    depth os filter procs processes children_map :
  list_process depth os filter procs = Ok (processes, children_map) ->
  forall pid proc total,
    dict_get pid processes = Some proc -> p_memory_total proc = Some total ->
    exists x, total = round2 x.
Proof.
  intros Hlist pid proc total Hget Htotal.
  destruct (list_process_parts _ _ _ _ _ _ Hlist) as (scanned & memo & _ & Hagg).
  pose proof (aggregate_similar _ _ _ _ _ _ _ Hagg) as Hsim.
  apply aggregate_rounded in Hagg as [_ Hset];
    [| intros k q; rewrite lookup_empty; discriminate].
  apply (Hset pid).
  - rewrite (dict_similar_keys _ _ Hsim). apply dict_get_is_Some. eauto.
  - unfold total_of. now rewrite Hget.
Qed.

(** X17: [load_tree] builds a forest from what [list_process] returns for a
    table of distinct pids, whatever the sort key, when every total lies
    between -900/7 and 800/7, where the sparkline has a glyph, and the stack
    is as deep as there are processes. *)
Theorem forest_built_from_snapshot {lc : StrLower} (depth scan_depth : nat)
    (os : snapshot_source) (filter : option filter_arg) (procs : list raw_proc)
    (sort_by : string)
    (processes : list (Z * proc_record)) (children_map : gmap Z (list Z))
    (Hpids : List.NoDup (map info_pid procs))
    (Hlist : list_process scan_depth os filter procs = Ok (processes, children_map))
    (Hrange : forall pid proc total,
       dict_get pid processes = Some proc ->
       p_memory_total proc = Some total ->
       (- (900 # 7) < total /\ total < 800 # 7)%Q)
    (Hdepth : (length processes <= depth)%nat) :
  exists forest, build_forest depth sort_by processes children_map = Ok forest.
Proof.
  apply build_forest_returns; [| | exact Hdepth].
  - eapply list_process_indexed; eauto.
  - destruct (list_process_distinct _ _ _ _ _ _ Hpids Hlist) as (_ & Hentries & _).
    unfold labels_ok. apply forallb_forall. intros [k v] Hin. simpl.
    destruct (Hentries k v Hin) as [Hget [total Htotal]].
    unfold format_proc. rewrite Htotal. simpl.
    destruct (list_process_rounded _ _ _ _ _ _ Hlist k v total Hget Htotal)
      as [x ->].
    destruct (Hrange k v _ Hget Htotal) as [Hlow Hhigh].
    pose proof (text_sparkline_decimal (round2 x) (round_half_even (x * 100))
                  (Qeq_refl _) Hlow Hhigh) as Hok.
    destruct (text_sparkline (to_float (round2 x))); [reflexivity | discriminate].
Qed.

Lemma forest_built_from_snapshot_witness :
  exists forest,
    build_forest 6 "memory" (fst cycle_snapshot) (snd cycle_snapshot) = Ok forest.
Proof.
  apply (forest_built_from_snapshot 6 10 even_os None cycle_procs "memory").
  - exact cycle_procs_distinct.
  - exact cycle_snapshot_listed.
  - intros pid proc total Hget Htotal.
    apply dict_get_Some_In in Hget. vm_compute in Hget.
    repeat (destruct Hget as [[= <- <-] | Hget];
            [injection Htotal as <-; vm_compute; split; reflexivity|]).
    destruct Hget.
  - vm_compute. lia.
Defined.

(** X18: [load_tree] does not survive a root whose total is outside the
    values for which the sparkline has a glyph (800/7 percent, about 114.29,
    or more): no forest is built. *)
Theorem forest_total_off_scale {lc : StrLower} (depth : nat) (sort_by : string)
    (processes : list (Z * proc_record)) (children_map : gmap Z (list Z))
    (root : Z) (proc : proc_record) (total : Q)
    (Hroot : In root (root_pids processes))
    (Hget : dict_get root processes = Some proc)
    (Htotal : p_memory_total proc = Some total)
    (Hoff : (total <= - (900 # 7) \/ 800 # 7 <= total)%Q) :
  is_ok (build_forest depth sort_by processes children_map) = false.
Proof.
  rewrite build_forest_unfold.
  destruct (sorted (sorter sort_by processes) (String.eqb sort_by "memory")
              (root_pids processes)) as [ordered | e] eqn:Hsorted; simpl;
    [| reflexivity].
  apply for_each_fails with (x := root).
  - apply Permutation_in with (l := root_pids processes); [| exact Hroot].
    eapply sorted_perm; eauto.
  - unfold add_node, dict_item, format_proc. rewrite Hget. simpl.
    rewrite Htotal. simpl.
    pose proof (text_sparkline_total_off_scale total Hoff) as Hfails.
    destruct (text_sparkline (to_float total)); [discriminate | reflexivity].
Qed.

Lemma forest_total_off_scale_witness :
  total_of (fst heavy_snapshot) 10 = Some (12000 # 100) /\
  is_ok (build_forest 10 "pid" (fst heavy_snapshot) (snd heavy_snapshot)) = false.
Proof.
  split; [vm_compute; reflexivity|].
  eapply (forest_total_off_scale 10 "pid" (fst heavy_snapshot)
            (snd heavy_snapshot) 10 _ (12000 # 100)).
  - vm_compute. auto.
  - vm_compute. reflexivity.
  - reflexivity.
  - right. unfold Qle. simpl. lia.
Defined.

(** ** No pid twice *)

Section NoPidTwice.

Context {lc : StrLower}.

Variable sort_by : string.

Variable processes : list (Z * proc_record).

Variable children_map : gmap Z (list Z).

Hypothesis Hindexed : well_indexed (processes, children_map).

Hypothesis Hlists : forall parent children,
  children_map !! parent = Some children -> List.NoDup children.

(** The nodes added for distinct pids, each showing only pids whose path up
    to a root runs through its own pid and then along [tail], have no pid
    in common. *)
Lemma nodes_distinct (tail : list Z) (pids : list Z) (nodes : list tree_node) :
  List.NoDup pids ->
  Forall2 (fun c n =>
             List.NoDup (forest_pids n) /\
             forall q, In q (forest_pids n) ->
               exists pre, ancestry processes ((q :: pre) ++ tail) /\
                           List.last (q :: pre) 0 = c)
    pids nodes ->
  List.NoDup (flat_map forest_pids nodes).
Proof.
  intros Hnd H. induction H as [| c n cs ns [Hn Hpaths] Hrest IH]; simpl;
    [constructor|].
  apply List.NoDup_cons_iff in Hnd as [Hc Hcs].
  apply List.NoDup_app; [exact Hn | now apply IH |].
  intros q Hq Hq'. apply in_flat_map in Hq' as (n' & Hn' & Hq').
  destruct (Forall2_In_right _ _ _ Hrest n' Hn') as (c' & Hc' & _ & Hpaths').
  destruct (Hpaths q Hq) as (pre & Hanc & Hlast).
  destruct (Hpaths' q Hq') as (pre' & Hanc' & Hlast').
  simpl in Hanc, Hanc'.
  pose proof (ancestry_unique _ _ _ Hanc _ Hanc') as E.
  apply app_inv_tail in E. subst pre'. congruence.
Qed.

Lemma ancestry_child_of parent rest children c :
  ancestry processes (parent :: rest) ->
  children_map !! parent = Some children -> In c children ->
  ancestry processes (c :: parent :: rest).
Proof.
  intros Hanc Hl Hc. destruct Hindexed as [_ Hindex].
  destruct (Hindex parent children c Hl Hc) as (proc & Hget & Hpp).
  econstructor; eauto.
Qed.

Lemma add_children_distinct depth :
  forall pid rest nodes,
    ancestry processes (pid :: rest) ->
    add_children_recursive depth sort_by pid processes children_map = Ok nodes ->
    List.NoDup (flat_map forest_pids nodes) /\
    forall q, In q (flat_map forest_pids nodes) ->
      exists pre, ancestry processes ((q :: pre) ++ pid :: rest).
Proof.
  destruct Hindexed as [Hkeys _]. simpl in Hkeys.
  induction depth as [| d IH]; intros pid rest nodes Hanc; [discriminate|].
  rewrite add_children_unfold.
  destruct (children_map !! pid) as [child_pids|] eqn:Hcs; simpl;
    [| intros [= <-]; split; [constructor | intros q []]].
  destruct (sorted (sorter sort_by processes) (String.eqb sort_by "memory")
              child_pids) as [ordered | e] eqn:Hsorted; simpl; [| discriminate].
  intros Hnodes. apply for_each_Forall2 in Hnodes.
  apply sorted_perm in Hsorted.
  assert (Hall : Forall2 (fun c n =>
             List.NoDup (forest_pids n) /\
             forall q, In q (forest_pids n) ->
               exists pre, ancestry processes ((q :: pre) ++ pid :: rest) /\
                           List.last (q :: pre) 0 = c) ordered nodes).
  { eapply Forall2_impl_In; [exact Hnodes|]. simpl.
    intros c n Hc Hadd.
    assert (Hchild : ancestry processes (c :: pid :: rest)).
    { eapply ancestry_child_of; eauto.
      eapply Permutation_in; [symmetry; exact Hsorted | exact Hc]. }
    apply (add_node_pid _ _ _ Hkeys) in Hadd as (lbl & below & -> & Hl & Hbelow).
    destruct (IH c (pid :: rest) below Hchild Hbelow) as [Hnd Hpaths].
    simpl. rewrite Hl. split.
    - constructor; [| exact Hnd].
      intros Hin. destruct (Hpaths c Hin) as [pre Hcycle].
      apply ancestry_NoDup in Hcycle. simpl in Hcycle.
      apply List.NoDup_cons_iff in Hcycle as [Hc' _].
      apply Hc', in_or_app. right. now left.
    - intros q [<- | Hq].
      + exists []. split; [exact Hchild | reflexivity].
      + destruct (Hpaths q Hq) as [pre Hpath].
        exists (pre ++ [c])%list. split.
        * simpl in *. now rewrite <- app_assoc.
        * exact (last_last (q :: pre) c 0). }
  split.
  - eapply (nodes_distinct (pid :: rest)); [| exact Hall].
    eapply Permutation_NoDup; [exact Hsorted | eapply Hlists; eauto].
  - intros q Hq. apply in_flat_map in Hq as (n & Hn & Hq).
    destruct (Forall2_In_right _ _ _ Hall n Hn) as (c & _ & _ & Hpaths).
    destruct (Hpaths q Hq) as (pre & Hpath & _). eauto.
Qed.

End NoPidTwice.

(** X19: in the forest built from what [list_process] returns for a table
    of distinct pids, no pid is shown twice. *)
Theorem forest_no_pid_twice {lc : StrLower}
    (depth scan_depth : nat) (os : snapshot_source)
    (filter : option filter_arg) (procs : list raw_proc) (sort_by : string)
    (processes : list (Z * proc_record)) (children_map : gmap Z (list Z))
    (forest : list tree_node)
    (Hpids : List.NoDup (map info_pid procs))
    (Hlist : list_process scan_depth os filter procs = Ok (processes, children_map))
    (Hbuild : build_forest depth sort_by processes children_map = Ok forest) :
  List.NoDup (flat_map forest_pids forest).
Proof.
  pose proof (list_process_indexed _ _ _ _ _ _ Hpids Hlist) as Hindexed.
  destruct (list_process_distinct _ _ _ _ _ _ Hpids Hlist) as (Hkeys & _ & Hlists).
  revert Hbuild. rewrite build_forest_unfold.
  destruct (sorted (sorter sort_by processes) (String.eqb sort_by "memory")
              (root_pids processes)) as [ordered | e] eqn:Hsorted; simpl;
    [| discriminate].
  intros Hnodes. apply for_each_Forall2 in Hnodes. apply sorted_perm in Hsorted.
  apply (nodes_distinct processes [] ordered).
  - eapply Permutation_NoDup; [exact Hsorted|].
    unfold root_pids. now apply List.NoDup_filter.
  - eapply Forall2_impl_In; [exact Hnodes|]. simpl.
    intros root n Hroot Hadd.
    assert (Hanc : ancestry processes [root]).
    { constructor. eapply Permutation_in; [symmetry; exact Hsorted | exact Hroot]. }
    apply (add_node_pid _ _ _ (proj1 Hindexed)) in Hadd
      as (lbl & below & -> & Hl & Hbelow).
    destruct (add_children_distinct sort_by processes children_map Hindexed
                Hlists depth root [] below Hanc Hbelow) as [Hnd Hpaths].
    simpl. rewrite Hl. split.
    + constructor; [| exact Hnd].
      intros Hin. destruct (Hpaths root Hin) as [pre Hcycle].
      apply ancestry_NoDup in Hcycle. simpl in Hcycle.
      apply List.NoDup_cons_iff in Hcycle as [Hc' _].
      apply Hc', in_or_app. right. now left.
    + intros q [<- | Hq].
      * exists []. split; [exact Hanc | reflexivity].
      * destruct (Hpaths q Hq) as [pre Hpath].
        exists (pre ++ [root])%list. split.
        -- simpl in *. now rewrite <- app_assoc, app_nil_r.
        -- exact (last_last (q :: pre) root 0).
Qed.

Lemma forest_no_pid_twice_witness :
  List.NoDup (flat_map forest_pids cycle_forest).
Proof.
  exact (forest_no_pid_twice 10 10 even_os None cycle_procs "pid"
           (fst cycle_snapshot) (snd cycle_snapshot) cycle_forest
           cycle_procs_distinct cycle_snapshot_listed cycle_forest_built).
Defined.

(** ** A child without a record *)

Lemma sorter_raises {lc : StrLower} sort_by processes pid e :
  sorter sort_by processes pid = Raise e -> e = KeyError.
Proof.
  unfold sorter, dict_item. destruct (dict_get pid processes); simpl.
  - repeat match goal with
           | |- context [if ?b then _ else _] => destruct b
           end; discriminate.
  - now intros [= <-].
Qed.

Lemma for_each_raises {A B : Type} (f : A -> outcome B) (l : list A) (x : A)
    (e : exn) :
  (forall a e', f a = Raise e' -> e' = e) ->
  In x l -> is_ok (f x) = false -> for_each f l = Raise e.
Proof.
  intros Honly. induction l as [| a l IH]; simpl; [intros []|].
  intros Hin Hx. destruct (f a) as [b | e'] eqn:Ha; simpl.
  - destruct Hin as [<- | Hin]; [rewrite Ha in Hx; discriminate|].
    now rewrite (IH Hin Hx).
  - now rewrite (Honly a e' Ha).
Qed.

(** X20: [add_children_recursive] does not skip a child that has no record,
    as [compute_memory_with_children] does: when the index lists under [pid]
    a pid that is no key of [processes], the sort key of that child cannot
    be computed and the call raises [KeyError]; no node is added. *)
Theorem add_children_missing_child {lc : StrLower}
    (depth : nat) (sort_by : string) (pid : Z)
    (processes : list (Z * proc_record)) (children_map : gmap Z (list Z))
    (children : list Z) (child : Z)
    (Hlisted : children_map !! pid = Some children)
    (Hchild : In child children)
    (Hmissing : dict_get child processes = None) :
  add_children_recursive (S depth) sort_by pid processes children_map =
    Raise KeyError.
Proof.
  rewrite add_children_unfold, Hlisted. unfold sorted.
  rewrite (for_each_raises (sorter sort_by processes) children child KeyError).
  - reflexivity.
  - intros a e. apply sorter_raises.
  - exact Hchild.
  - unfold sorter, dict_item. now rewrite Hmissing.
Qed.

Lemma add_children_missing_child_witness :
  add_children_recursive 3 "pid" 2 example_tree example_tree_index =
    Raise KeyError.
Proof.
  apply (add_children_missing_child 2 "pid" 2 example_tree example_tree_index
           [4; 99] 99).
  - vm_compute. reflexivity.
  - simpl. auto.
  - reflexivity.
Defined.

(** ** Totals of a scanned table *)

(** X21: when psutil answers no negative memory percentage and the stack is
    deeper than the process table is long, every record [list_process]
    returns holds a total, and that total is no less than the own memory of
    the record, which is not negative. *)
Theorem list_process_totals_bound {lc : StrLower}
    (depth : nat) (os : snapshot_source)
    (filter : option filter_arg) (procs : list raw_proc)
    (processes : list (Z * proc_record)) (children_map : gmap Z (list Z))
    (Hos : forall pid memory,
       os_memory_percent os pid = Answer memory -> (0 <= memory)%Q)
    (Hdepth : (length procs < depth)%nat)
    (Hlist : list_process depth os filter procs = Ok (processes, children_map)) :
  forall pid proc,
    dict_get pid processes = Some proc ->
    exists total,
      p_memory_total proc = Some total /\
      (0 <= p_memory proc)%Q /\ (p_memory proc <= total)%Q.
Proof.
  intros pid proc Hget.
  destruct (list_process_totals _ _ _ _ _ _ Hos Hdepth Hlist pid proc Hget)
    as (total & Htotal & Hle).
  exists total. split; [exact Htotal|]. split; [| exact Hle].
  destruct (list_process_scan _ _ _ _ _ _ Hlist) as (scanned & Hscan & Hsim).
  destruct (scan_sane _ _ _ _ Hos ([], ∅) _ eq_refl Hscan) as [Hsane _].
  simpl in Hsane.
  assert (Hself : memory_of scanned pid = Some (p_memory proc)).
  { rewrite (dict_similar_memory_of _ _ Hsim). unfold memory_of.
    now rewrite Hget. }
  now apply (sane_memory_of _ _ _ Hsane) in Hself.
Qed.

Lemma list_process_totals_bound_witness :
  exists proc total,
    dict_get 11 (fst cycle_snapshot) = Some proc /\
    p_memory_total proc = Some total /\
    (0 <= p_memory proc)%Q /\ (p_memory proc <= total)%Q.
Proof.
  destruct (dict_get 11 (fst cycle_snapshot)) as [proc|] eqn:Hget;
    [| vm_compute in Hget; discriminate].
  assert (Hos : forall pid memory,
            os_memory_percent even_os pid = Answer memory -> (0 <= memory)%Q).
  { intros pid memory [= <-]. unfold Qle. simpl. lia. }
  assert (Hdepth : (length cycle_procs < 10)%nat) by (simpl; lia).
  destruct (list_process_totals_bound 10 even_os None cycle_procs
              (fst cycle_snapshot) (snd cycle_snapshot) Hos Hdepth
              cycle_snapshot_listed 11 proc Hget)
    as (total & Htotal & Hbounds).
  exists proc, total. auto.
Defined.
